(** * The macro evaluation pipeline: walker and engine

    A shallow embedding of [MacroCstWalker.js] (the CST walker), of
    [MacroEngine.js] (pre-processing, macro resolution, post-processing) and of
    the parts of [MacroDiagnostics.js] the engine logs through, followed by the
    properties of the evaluation pipeline proved about them.

    JavaScript numbers are integers or [NaN] (offsets are integers; the parser
    library marks tokens it inserts during recovery with [NaN] offsets).
    A string is a [string] of the bytes of its UTF-8 encoding, so offsets
    agree with JavaScript's for ASCII text. A concrete syntax tree is the
    parser library's generic tree: a node has a name, a dictionary from keys
    to arrays of children (tokens or nodes, in insertion order) and an
    optional location. *)

From Stdlib Require Import ZArith List String Ascii Bool Lia Sorted Permutation.
From stdpp Require Import gmap strings pretty.
Import ListNotations.

Local Open Scope Z_scope.

(** ** JavaScript numbers and strings *)

Inductive jsnum : Type :=
| Num (z : Z)
| NaN.

Definition js_add (a : jsnum) (k : Z) : jsnum :=
  match a with Num z => Num (z + k) | NaN => NaN end.

Definition js_sub (a b : jsnum) : jsnum :=
  match a, b with Num x, Num y => Num (x - y) | _, _ => NaN end.

(** [a < b], [a > b], [a <= b]: every comparison with [NaN] is false. *)
Definition js_lt (a b : jsnum) : bool :=
  match a, b with Num x, Num y => x <? y | _, _ => false end.

Definition js_gt (a b : jsnum) : bool := js_lt b a.

Definition js_le (a b : jsnum) : bool :=
  match a, b with Num x, Num y => x <=? y | _, _ => false end.

(** [a !== b]: [NaN] differs from everything, itself included. *)
Definition js_neq (a b : jsnum) : bool :=
  match a, b with Num x, Num y => negb (x =? y) | _, _ => true end.

Definition isNaN (a : jsnum) : bool :=
  match a with Num _ => false | NaN => true end.

(** [ToIntegerOrInfinity] on the numbers of this model. *)
Definition toInteger (a : jsnum) : Z :=
  match a with Num z => z | NaN => 0 end.

Definition strlen (s : string) : Z := Z.of_nat (String.length s).

(** A relative index of [String.prototype.slice]: negative indices count from
    the end, and the result is clamped to [0 .. len]. *)
Definition clampIndex (len rel : Z) : Z :=
  if rel <? 0 then Z.max (len + rel) 0 else Z.min rel len.

(** [s.slice(a, b)] *)
Definition slice (s : string) (a b : jsnum) : string :=
  let len := strlen s in
  let from := clampIndex len (toInteger a) in
  let to := clampIndex len (toInteger b) in
  substring (Z.to_nat from) (Z.to_nat (to - from)) s.

(** [s.slice(a)] *)
Definition sliceFrom (s : string) (a : jsnum) : string :=
  slice s a (Num (strlen s)).

(** [Array.prototype.sort(compare)]: the sort is stable, and a comparison
    result that is [NaN] counts as [0]. An element is placed after the
    elements it does not precede strictly. For a comparator that is not a
    consistent ordering the result of the real sort depends on the engine;
    the properties below are stated for offsets that are numbers. *)
Section Sort.
Context {A : Type}.
Variable compare : A -> A -> jsnum.

Definition comesAfter (a b : A) : bool :=
  match compare a b with Num z => 0 <? z | NaN => false end.

Fixpoint sortInsert (x : A) (l : list A) : list A :=
  match l with
  | [] => [x]
  | y :: l' => if comesAfter x y then y :: sortInsert x l' else x :: y :: l'
  end.

Fixpoint js_sort (l : list A) : list A :=
  match l with
  | [] => []
  | x :: l' => sortInsert x (js_sort l')
  end.
End Sort.

(** ** Tokens, ranges and syntax trees *)

Module TokenRange.
Record t : Type := mk { startOffset : jsnum; endOffset : jsnum }.
End TokenRange.

(** A token of the lexer. [id] stands for the identity of the token object
    ([===] compares identities); [endOffset] may be absent. *)
Module IToken.
Record t : Type := mk {
  id : nat;
  image : string;
  startOffset : jsnum;
  endOffset : option jsnum;
  isInsertedInRecovery : bool
}.
End IToken.

#[local] Set Warnings "-register-all".

Inductive CstNode : Type :=
| mkCstNode (name : string)
            (children : list (string * list (IToken.t + CstNode)))
            (location : option TokenRange.t).

Abbreviation CstElement := (IToken.t + CstNode)%type.

Definition children (n : CstNode) : list (string * list CstElement) :=
  match n with mkCstNode _ c _ => c end.

Definition location (n : CstNode) : option TokenRange.t :=
  match n with mkCstNode _ _ l => l end.

Definition nodeName (n : CstNode) : string :=
  match n with mkCstNode nm _ _ => nm end.

(** [children[key] || []] *)
Fixpoint childArray (key : string) (cs : list (string * list CstElement)) : list CstElement :=
  match cs with
  | [] => []
  | (k, els) :: cs' => if String.eqb k key then els else childArray key cs'
  end.

(** The first element of an array of tokens ([arr[0]]); none when the array is
    empty (or does not start with a token). *)
Definition firstToken (els : list CstElement) : option IToken.t :=
  match els with
  | inl t :: _ => Some t
  | _ => None
  end.

Definition firstNode (els : list CstElement) : option CstNode :=
  match els with
  | inr n :: _ => Some n
  | _ => None
  end.

(** The nodes of an array whose elements the code takes to be nodes. *)
Fixpoint nodesOf (els : list CstElement) : list CstNode :=
  match els with
  | [] => []
  | inr n :: els' => n :: nodesOf els'
  | inl _ :: els' => nodesOf els'
  end.

(** An absent [endOffset] is [undefined]; in arithmetic and comparisons
    [undefined] behaves as [NaN]. *)
Definition numberOr (o : option jsnum) : jsnum :=
  match o with Some x => x | None => NaN end.

(** The number of nodes on the longest path below a node, itself included. *)
Fixpoint height (n : CstNode) : nat :=
  match n with
  | mkCstNode _ cs _ =>
      S (fold_right (fun kv acc =>
           fold_right (fun e acc' =>
             match e with
             | inl _ => acc'
             | inr m => Nat.max (height m) acc'
             end) acc (snd kv)) 0%nat cs)
  end.

(** ** The walker's document items and macro calls *)

Inductive ItemKind : Type :=
| plaintext (token : IToken.t)
| macro (node : CstNode).

Module DocumentItem.
Record t : Type := mk { type : ItemKind; startOffset : jsnum; endOffset : jsnum }.
End DocumentItem.

Module MacroCall.
Record t (Env : Type) : Type := mk {
  name : string;
  args : list string;
  env : Env;
  rawInner : string;
  rawWithBraces : string;
  range : TokenRange.t;
  cstNode : CstNode
}.
Arguments mk {Env}.
Arguments name {Env}.
Arguments args {Env}.
Arguments env {Env}.
Arguments rawInner {Env}.
Arguments rawWithBraces {Env}.
Arguments range {Env}.
Arguments cstNode {Env}.
End MacroCall.

(** ** MacroCstWalker *)

(** [#isRecoveryToken]: the token is absent, was inserted during recovery, or
    has a start offset that is not a usable number. *)
Definition isRecoveryToken (token : option IToken.t) : bool :=
  match token with
  | None => true
  | Some t => IToken.isInsertedInRecovery t || isNaN (IToken.startOffset t)
  end.

(** [#getMacroRange] *)
Definition getMacroRange (macroNode : CstNode) : TokenRange.t :=
  let startToken := firstToken (childArray "Macro.Start" (children macroNode)) in
  let endToken := firstToken (childArray "Macro.End" (children macroNode)) in
  match startToken, endToken with
  | Some st, Some en =>
      TokenRange.mk (IToken.startOffset st) (numberOr (IToken.endOffset en))
  | _, _ =>
      match location macroNode with
      | Some loc => loc
      | None => TokenRange.mk (Num 0) (Num 0)
      end
  end.

(** [element === excludeToken] *)
Definition sameToken (element : IToken.t) (excludeToken : option IToken.t) : bool :=
  match excludeToken with
  | Some ex => Nat.eqb (IToken.id element) (IToken.id ex)
  | None => false
  end.

Definition plaintextItem (element : IToken.t) : DocumentItem.t :=
  DocumentItem.mk (plaintext element) (IToken.startOffset element)
    (match IToken.endOffset element with
     | Some e => e
     | None => IToken.startOffset element
     end).

Definition macroItem (node : CstNode) : DocumentItem.t :=
  let range := getMacroRange node in
  DocumentItem.mk (macro node) (TokenRange.startOffset range) (TokenRange.endOffset range).

(** [#flattenIncompleteMacro]: the tokens of an incomplete macro become
    plaintext items, complete nested macros stay macro items. [items] is the
    array the items are pushed to. *)
Fixpoint flattenIncompleteMacro (macroNode : CstNode) (excludeToken : option IToken.t)
    (items : list DocumentItem.t) {struct macroNode} : list DocumentItem.t :=
  match macroNode with
  | mkCstNode _ cs _ =>
      fold_left (fun items kv =>
        fold_left (fun items element =>
          match element with
          | inl tok =>
              if sameToken tok excludeToken then items
              else items ++ [plaintextItem tok]
          | inr nested =>
              let nestedEnd := firstToken (childArray "Macro.End" (children nested)) in
              let nestedStart := firstToken (childArray "Macro.Start" (children nested)) in
              match nestedStart, nestedEnd with
              | Some _, Some _ =>
                  if negb (isRecoveryToken nestedEnd)
                  then items ++ [macroItem nested]
                  else flattenIncompleteMacro nested nestedEnd items
              | _, _ => flattenIncompleteMacro nested excludeToken items
              end
          end) (snd kv) items) cs items
  end.

(** [#collectDocumentItems]: the top-level plaintext tokens and macro nodes of
    the document, sorted by start offset, then end offset. A plaintext entry
    without numeric offsets is skipped. *)
Definition compareItems (a b : DocumentItem.t) : jsnum :=
  if js_neq (DocumentItem.startOffset a) (DocumentItem.startOffset b)
  then js_sub (DocumentItem.startOffset a) (DocumentItem.startOffset b)
  else js_sub (DocumentItem.endOffset a) (DocumentItem.endOffset b).

Definition collectPlaintext (items : list DocumentItem.t) (element : CstElement)
    : list DocumentItem.t :=
  match element with
  | inl token =>
      match IToken.endOffset token with
      | Some e => items ++ [DocumentItem.mk (plaintext token) (IToken.startOffset token) e]
      | None => items
      end
  | inr _ => items
  end.

Definition collectMacro (items : list DocumentItem.t) (element : CstElement)
    : list DocumentItem.t :=
  match element with
  | inr macroNode =>
      let endToken := firstToken (childArray "Macro.End" (children macroNode)) in
      if isRecoveryToken endToken
      then flattenIncompleteMacro macroNode endToken items
      else items ++ [macroItem macroNode]
  | inl _ => items
  end.

Definition collectUnsorted (cst : CstNode) : list DocumentItem.t :=
  let plaintextTokens := childArray "plaintext" (children cst) in
  let macroNodes := childArray "macro" (children cst) in
  fold_left collectMacro macroNodes (fold_left collectPlaintext plaintextTokens []).

Definition collectDocumentItems (cst : CstNode) : list DocumentItem.t :=
  js_sort compareItems (collectUnsorted cst).

(** [#getArgumentLocation]: the least start offset and the greatest end offset
    over the child tokens and the located child nodes of an argument node;
    [null] when there is none. [lo] and [hi] are [None] while they still hold
    the infinities they start from. *)
Definition lowerTo (lo : option Z) (x : jsnum) : option Z :=
  match x, lo with
  | Num z, None => Some z
  | Num z, Some l => if z <? l then Some z else Some l
  | NaN, _ => lo
  end.

Definition raiseTo (hi : option Z) (x : jsnum) : option Z :=
  match x, hi with
  | Num z, None => Some z
  | Num z, Some h => if h <? z then Some z else Some h
  | NaN, _ => hi
  end.

Definition locateElement (acc : option Z * option Z) (element : CstElement)
    : option Z * option Z :=
  match element with
  | inr node =>
      match location node with
      | None => acc
      | Some loc =>
          (lowerTo (fst acc) (TokenRange.startOffset loc),
           raiseTo (snd acc) (TokenRange.endOffset loc))
      end
  | inl token =>
      (lowerTo (fst acc) (IToken.startOffset token),
       raiseTo (snd acc) (numberOr (IToken.endOffset token)))
  end.

Definition getArgumentLocation (argNode : CstNode) : option TokenRange.t :=
  let bounds :=
    fold_left (fun acc kv => fold_left locateElement (snd kv) acc)
      (children argNode) (None, None) in
  match bounds with
  | (Some lo, Some hi) => Some (TokenRange.mk (Num lo) (Num hi))
  | _ => None
  end.

(** ** Stateful computations

    A macro handler may read and change state outside the walker, so resolving
    a macro is a computation over a state [W]; the walker threads it through
    the resolver calls in the order in which the code makes them. *)

Definition State (W A : Type) : Type := W -> A * W.

Definition ret {W A : Type} (x : A) : State W A := fun w => (x, w).

Definition bind {W A B : Type} (c : State W A) (k : A -> State W B) : State W B :=
  fun w => let (a, w') := c w in k a w'.

Notation "x <- c ;; k" := (bind c (fun x => k))
  (at level 20, c at level 99, k at level 200, only parsing).
Notation "' p <- c ;; k" := (bind c (fun x => let 'p := x in k))
  (at level 20, p pattern, c at level 99, k at level 200, only parsing).

(** [EvaluationContext] *)
Module EvaluationContext.
Record t (Env W : Type) : Type := mk {
  text : string;
  env : Env;
  resolveMacro : MacroCall.t Env -> State W string
}.
Arguments mk {Env W}.
Arguments text {Env W}.
Arguments env {Env W}.
Arguments resolveMacro {Env W}.
End EvaluationContext.

Section Walker.
Context {Env W : Type}.

Abbreviation EvaluationContext := (EvaluationContext.t Env W).
Abbreviation text := EvaluationContext.text.
Abbreviation env := EvaluationContext.env.

Definition compareByStart {X : Type} (a b : X * TokenRange.t) : jsnum :=
  js_sub (TokenRange.startOffset (snd a)) (TokenRange.startOffset (snd b)).

(** The loop of [#evaluateArgumentNode] over the nested macros, sorted by
    start offset. A nested macro that starts before the cursor is skipped. *)
Fixpoint evaluateNested (evaluateMacroNode : CstNode -> State W string) (text : string)
    (nestedWithRange : list (CstNode * TokenRange.t)) (result : string) (cursor : jsnum)
    : State W (string * jsnum) :=
  match nestedWithRange with
  | [] => ret (result, cursor)
  | entry :: rest =>
      if js_lt (TokenRange.startOffset (snd entry)) cursor
      then evaluateNested evaluateMacroNode text rest result cursor
      else
        let result := result +:+ slice text cursor (TokenRange.startOffset (snd entry)) in
        value <- evaluateMacroNode (fst entry) ;;
        evaluateNested evaluateMacroNode text rest (result +:+ value)
          (js_add (TokenRange.endOffset (snd entry)) 1)
  end.

(** [#evaluateArgumentNode], with the evaluation of macro nodes it recurses
    into as a parameter. *)
Definition evaluateArgumentNode (evaluateMacroNode : CstNode -> State W string)
    (argNode : CstNode) (context : EvaluationContext) : State W string :=
  match getArgumentLocation argNode with
  | None => ret ""
  | Some location =>
      let nestedMacros := nodesOf (childArray "macro" (children argNode)) in
      match nestedMacros with
      | [] =>
          ret (slice (text context) (TokenRange.startOffset location)
                 (js_add (TokenRange.endOffset location) 1))
      | _ :: _ =>
          let nestedWithRange := map (fun node => (node, getMacroRange node)) nestedMacros in
          let sorted := js_sort compareByStart nestedWithRange in
          ' (result, cursor) <-
            evaluateNested evaluateMacroNode (text context) sorted ""
              (TokenRange.startOffset location) ;;
          if js_le cursor (TokenRange.endOffset location)
          then ret (result +:+ slice (text context) cursor
                      (js_add (TokenRange.endOffset location) 1))
          else ret result
      end
  end.

(** The first loop of [#evaluateMacroNode]: the argument values in order, and
    the values of the arguments that have a location, with that location. *)
Fixpoint evaluateArguments (evaluateArgument : CstNode -> State W string)
    (argumentNodes : list CstNode)
    : State W (list string * list (string * TokenRange.t)) :=
  match argumentNodes with
  | [] => ret ([], [])
  | argNode :: rest =>
      argValue <- evaluateArgument argNode ;;
      ' (args, evaluatedArguments) <- evaluateArguments evaluateArgument rest ;;
      ret (argValue :: args,
           match getArgumentLocation argNode with
           | Some location => (argValue, location) :: evaluatedArguments
           | None => evaluatedArguments
           end)
  end.

(** The second loop of [#evaluateMacroNode]: the text between the braces with
    the evaluated arguments in place of their source ranges. *)
Fixpoint spliceArguments (text : string) (evaluatedArguments : list (string * TokenRange.t))
    (rawInner : string) (cursor : jsnum) : string * jsnum :=
  match evaluatedArguments with
  | [] => (rawInner, cursor)
  | entry :: rest =>
      let rawInner :=
        if js_gt (TokenRange.startOffset (snd entry)) cursor
        then rawInner +:+ slice text cursor (TokenRange.startOffset (snd entry))
        else rawInner in
      spliceArguments text rest (rawInner +:+ fst entry)
        (js_add (TokenRange.endOffset (snd entry)) 1)
  end.

Definition buildRawInner (text : string) (innerStart innerEnd : jsnum)
    (evaluatedArguments : list (string * TokenRange.t)) : string :=
  if js_le innerStart innerEnd then
    let (rawInner, cursor) := spliceArguments text evaluatedArguments "" innerStart in
    if js_le cursor innerEnd
    then rawInner +:+ slice text cursor (js_add innerEnd 1)
    else rawInner
  else "".

Definition macroName (macroNode : CstNode) : string :=
  match firstToken (childArray "Macro.identifier" (children macroNode)) with
  | Some t => IToken.image t
  | None => ""
  end.

Definition innerStartOf (macroNode : CstNode) : jsnum :=
  match firstToken (childArray "Macro.Start" (children macroNode)) with
  | Some startToken => js_add (numberOr (IToken.endOffset startToken)) 1
  | None => TokenRange.startOffset (getMacroRange macroNode)
  end.

Definition innerEndOf (macroNode : CstNode) : jsnum :=
  match firstToken (childArray "Macro.End" (children macroNode)) with
  | Some endToken => js_add (IToken.startOffset endToken) (-1)
  | None => TokenRange.endOffset (getMacroRange macroNode)
  end.

(** The argument nodes of the [arguments] rule of a macro node, if present. *)
Definition argumentNodesOf (macroNode : CstNode) : list CstNode :=
  match firstNode (childArray "arguments" (children macroNode)) with
  | Some argumentsNode => nodesOf (childArray "argument" (children argumentsNode))
  | None => []
  end.

(** [#evaluateMacroNode], with the evaluation of the nested macro nodes as a
    parameter. The resolver returns a string, so the conversion of its result
    to a string is the identity. *)
Definition evaluateMacroNodeWith (evaluateMacroNode : CstNode -> State W string)
    (macroNode : CstNode) (context : EvaluationContext) : State W string :=
  let name := macroName macroNode in
  let range := getMacroRange macroNode in
  let innerStart := innerStartOf macroNode in
  let innerEnd := innerEndOf macroNode in
  let argumentNodes := argumentNodesOf macroNode in
  ' (args, evaluatedArguments) <-
    evaluateArguments
      (fun argNode => evaluateArgumentNode evaluateMacroNode argNode context)
      argumentNodes ;;
  let sorted := js_sort compareByStart evaluatedArguments in
  let rawInner := buildRawInner (text context) innerStart innerEnd sorted in
  let call :=
    MacroCall.mk name args (env context) rawInner
      (slice (text context) (TokenRange.startOffset range)
         (js_add (TokenRange.endOffset range) 1))
      range macroNode in
  value <- EvaluationContext.resolveMacro context call ;;
  ret value.

(** The recursion of [#evaluateMacroNode] and [#evaluateArgumentNode] is over
    the depth of the tree: [fuel] bounds the depth, and [evaluateMacroNode]
    starts with the height of the node, which is enough
    ([evaluateMacroNode_unfold]). *)
Fixpoint evaluateMacroNodeFuel (fuel : nat) (macroNode : CstNode)
    (context : EvaluationContext) : State W string :=
  match fuel with
  | O => ret ""
  | S fuel' =>
      evaluateMacroNodeWith (fun node => evaluateMacroNodeFuel fuel' node context)
        macroNode context
  end.

Definition evaluateMacroNode (macroNode : CstNode) (context : EvaluationContext)
    : State W string :=
  evaluateMacroNodeFuel (height macroNode) macroNode context.

(** The loop of [evaluateDocument] over the document items. *)
Fixpoint walkItems (context : EvaluationContext) (items : list DocumentItem.t)
    (result : string) (cursor : jsnum) : State W (string * jsnum) :=
  match items with
  | [] => ret (result, cursor)
  | item :: rest =>
      let result :=
        if js_gt (DocumentItem.startOffset item) cursor
        then result +:+ slice (text context) cursor (DocumentItem.startOffset item)
        else result in
      match DocumentItem.type item with
      | plaintext _ =>
          walkItems context rest
            (result +:+ slice (text context) (DocumentItem.startOffset item)
                          (js_add (DocumentItem.endOffset item) 1))
            (js_add (DocumentItem.endOffset item) 1)
      | macro node =>
          value <- evaluateMacroNode node context ;;
          walkItems context rest (result +:+ value)
            (js_add (DocumentItem.endOffset item) 1)
      end
  end.

(** [evaluateDocument]. The checks of the argument types at its head hold by
    typing. *)
Definition evaluateDocument (context : EvaluationContext) (cst : CstNode)
    : State W string :=
  let items := collectDocumentItems cst in
  match items with
  | [] => ret (text context)
  | _ :: _ =>
      ' (result, cursor) <- walkItems context items "" (Num 0) ;;
      if js_lt cursor (Num (strlen (text context)))
      then ret (result +:+ sliceFrom (text context) cursor)
      else ret result
  end.

End Walker.

(** ** Regular-expression replacement

    [s.replace(re, ...)] with a global regular expression replaces the
    matches from left to right; the search resumes behind each match.
    [matchAt s] is the match of the expression at the head of [s], if any: its
    length (none of the expressions below matches the empty string) and the
    text that replaces it. [skip] counts the characters of the current match
    still to be passed. *)

Fixpoint replaceMatches (matchAt : string -> option (nat * string)) (s : string)
    (skip : nat) : string :=
  match s with
  | EmptyString => EmptyString
  | String c s' =>
      match skip with
      | S k => replaceMatches matchAt s' k
      | O =>
          match matchAt s with
          | Some (n, replacement) => replacement +:+ replaceMatches matchAt s' (Nat.pred n)
          | None => String c (replaceMatches matchAt s' 0)
          end
      end
  end.

Definition replaceAll (matchAt : string -> option (nat * string)) (s : string) : string :=
  replaceMatches matchAt s 0.

(** Matching with the flag [i]: two characters match when their upper-case
    forms agree; a character outside ASCII never matches an ASCII one. *)
Definition upperCase (c : ascii) : ascii :=
  let n := nat_of_ascii c in
  if (97 <=? n)%nat && (n <=? 122)%nat then ascii_of_nat (n - 32) else c.

Definition sameCharCI (a b : ascii) : bool := Ascii.eqb (upperCase a) (upperCase b).

(** The rest of [s] behind the literal [pattern], matched ignoring case. *)
Fixpoint stripPrefixCI (pattern s : string) : option string :=
  match pattern with
  | EmptyString => Some s
  | String p pattern' =>
      match s with
      | String c s' => if sameCharCI p c then stripPrefixCI pattern' s' else None
      | EmptyString => None
      end
  end.

(** [/literal/gi] *)
Definition matchLiteralCI (pattern replacement : string) (s : string) : option (nat * string) :=
  match stripPrefixCI pattern s with
  | Some _ => Some (String.length pattern, replacement)
  | None => None
  end.

Definition isDigit (c : ascii) : bool :=
  let n := nat_of_ascii c in (48 <=? n)%nat && (n <=? 57)%nat.

(** The longest prefix of digits ([\d*], greedy) and the rest. *)
Fixpoint spanDigits (s : string) : string * string :=
  match s with
  | String c s' =>
      if isDigit c then let (ds, rest) := spanDigits s' in (String c ds, rest)
      else (EmptyString, s)
  | EmptyString => (EmptyString, EmptyString)
  end.

(** [/{{time_(UTC[+-]\d+)}}/gi], replaced by [{{time::$1}}]. The digits are
    matched greedily; what follows them is no digit, so no shorter run of
    digits can make the rest match. *)
Definition matchLegacyTime (s : string) : option (nat * string) :=
  match stripPrefixCI "{{time_" s with
  | Some afterName =>
      match stripPrefixCI "UTC" afterName with
      | Some (String sign afterSign) =>
          if Ascii.eqb sign "+" || Ascii.eqb sign "-" then
            let (digits, rest) := spanDigits afterSign in
            match digits, stripPrefixCI "}}" rest with
            | String _ _, Some _ =>
                let utcOffset := substring 7 (4 + String.length digits) s in
                Some ((13 + String.length digits)%nat, "{{time::" +:+ utcOffset +:+ "}}")
            | _, _ => None
            end
          else None
      | _ => None
      end
  | None => None
  end.

(** [/\\([{}])/g], replaced by [$1] *)
Definition matchEscapedBrace (s : string) : option (nat * string) :=
  match s with
  | String "\" (String c _) =>
      if Ascii.eqb c "{" || Ascii.eqb c "}" then Some (2%nat, String c EmptyString) else None
  | _ => None
  end.

Definition CR : ascii := "013".
Definition LF : ascii := "010".

(** The rest behind the longest run of line breaks [(?:\r?\n)*] and the length
    of the run. A line break is read in one way only, and what follows the
    longest run is no line break. *)
Fixpoint skipNewlines (s : string) : nat * string :=
  match s with
  | String c s' =>
      if Ascii.eqb c LF then let (n, rest) := skipNewlines s' in (S n, rest)
      else if Ascii.eqb c CR then
        match s' with
        | String c' s'' =>
            if Ascii.eqb c' LF then let (n, rest) := skipNewlines s'' in (S (S n), rest)
            else (O, s)
        | EmptyString => (O, s)
        end
      else (O, s)
  | EmptyString => (O, s)
  end.

(** [/(?:\r?\n)*{{trim}}(?:\r?\n)*/gi], replaced by the empty string. When the
    token does not follow the longest run of line breaks at this position, it
    follows no shorter one: the character behind a shorter run is a line break
    character. *)
Definition matchTrim (s : string) : option (nat * string) :=
  let (before, atToken) := skipNewlines s in
  match stripPrefixCI "{{trim}}" atToken with
  | Some afterToken =>
      let (after, _) := skipNewlines afterToken in
      Some ((before + 8 + after)%nat, EmptyString)
  | None => None
  end.

(** [String.prototype.trim]. A string is the sequence of the bytes of its
    UTF-8 encoding. The white space and the line terminators of ECMAScript
    are TAB, LF, VT, FF, CR, SP, U+00A0, U+1680, U+2000 to U+200A, U+2028,
    U+2029, U+202F, U+205F, U+3000 and U+FEFF, here each as the bytes of its
    encoding; none of these is the beginning of another. *)
Definition bytes (l : list nat) : string := string_of_list_ascii (map ascii_of_nat l).

Definition whiteSpaces : list string :=
  map bytes
    [[9]; [10]; [11]; [12]; [13]; [32]; [194; 160]; [225; 154; 128];
     [226; 128; 128]; [226; 128; 129]; [226; 128; 130]; [226; 128; 131];
     [226; 128; 132]; [226; 128; 133]; [226; 128; 134]; [226; 128; 135];
     [226; 128; 136]; [226; 128; 137]; [226; 128; 138];
     [226; 128; 168]; [226; 128; 169]; [226; 128; 175]; [226; 129; 159];
     [227; 128; 128]; [239; 187; 191]]%nat.

(** The number of bytes of the white space character at the head of [s];
    0 when [s] does not begin with white space. *)
Definition whiteSpaceAt (s : string) : nat :=
  match List.find (fun ws => String.prefix ws s) whiteSpaces with
  | Some ws => String.length ws
  | None => 0
  end.

(** [trimStart]: [skip] counts the bytes of the current white space
    character still to be passed. *)
Fixpoint trimStartFrom (s : string) (skip : nat) : string :=
  match s with
  | String c s' =>
      match skip with
      | S k => trimStartFrom s' k
      | O =>
          match whiteSpaceAt s with
          | S k => trimStartFrom s' k
          | O => s
          end
      end
  | EmptyString => EmptyString
  end.

Definition trimStart (s : string) : string := trimStartFrom s 0.

(** [trimEnd]: the text up to the first position from which there is white
    space only. *)
Fixpoint trimEnd (s : string) : string :=
  match s with
  | String c s' =>
      if String.eqb (trimStart s) EmptyString then EmptyString else String c (trimEnd s')
  | EmptyString => EmptyString
  end.

Definition js_trim (s : string) : string := trimEnd (trimStart s).

(** ** Values, errors and the console *)

(** The values a handler returns, as far as [normalizeMacroResult] tells them
    apart. A [Date] is given by its ISO string; an object or array by what
    [JSON.stringify] makes of it ([None] when it throws) and by its [String]
    form. *)
Inductive JsValue : Type :=
| JsUndefined
| JsNull
| JsString (s : string)
| JsOther (asString : string)
| JsDate (iso : string)
| JsObject (json : option string) (asString : string).

(** A thrown value: an object with the properties the engine looks at, or
    anything else (a primitive, [null], [undefined]). *)
Inductive Thrown : Type :=
| ThrownObject (name message : string) (isMacroRuntimeError : bool)
| ThrownOther.

Inductive Completion (A : Type) : Type :=
| Returns (a : A)
| Throws (e : Thrown).
Arguments Returns {A}.
Arguments Throws {A}.

Inductive Payload : Type :=
| MacroPayload (macroName : string) (raw : string) (error : option Thrown)
| SyntaxPayload (phase : string) (count : nat) (input : string)
| GeneralPayload (input : string).

Inductive ConsoleCall : Type :=
| console_warn (label message : string) (payload : Payload)
| console_error (label message : string) (payload : Payload).

(** The state the engine runs in: the state [St] outside the engine that
    handlers read and change, and the console. *)
Record World (St : Type) : Type := mkWorld { store : St; console : list ConsoleCall }.
Arguments mkWorld {St}.
Arguments store {St}.
Arguments console {St}.

Definition consoleLog {St : Type} (entry : ConsoleCall) : State (World St) unit :=
  fun w => (tt, mkWorld (store w) (console w ++ [entry])).

(** An object with a fixed set of own properties [P], frozen or not. *)
Record JsFrozen (P : Type) : Type := mkObject { frozen : bool; properties : P }.
Arguments mkObject {P}.
Arguments frozen {P}.
Arguments properties {P}.

(** [{ ...o }]: a new object, not frozen, with the own properties of [o]. *)
Definition spread {P : Type} (o : JsFrozen P) : JsFrozen P := mkObject false (properties o).

(** [Object.freeze(o)] *)
Definition freeze {P : Type} (o : JsFrozen P) : JsFrozen P := mkObject true (properties o).

(** ** Environment, definitions *)

Section Types.
Context {St : Type}.

(** [env.names] *)
Record MacroNames : Type := mkNames {
  user : string;
  char : string;
  group : string;
  groupNotMuted : string;
  notChar : string
}.

(** A dynamic macro: a value, or a function of no argument. *)
Inductive DynamicMacro : Type :=
| DynamicValue (v : JsValue)
| DynamicFunction (f : State (World St) (Completion JsValue)).

(** [env.functions]. [postProcess] is called on every macro result; when the
    property is absent the call throws. *)
Record EnvFunctions : Type := mkFunctions {
  postProcess : option (string -> State (World St) (Completion string))
}.

(** The own properties of a [MacroEnv]. *)
Record MacroEnvProperties : Type := mkEnv {
  content : string;
  contentHash : Z;
  names : MacroNames;
  dynamicMacros : gmap string DynamicMacro;
  functions : EnvFunctions
}.

Definition MacroEnv : Type := JsFrozen MacroEnvProperties.

Inductive MacroValueType : Type := type_string | type_integer | type_number | type_boolean.

Record MacroArgDef : Type := mkArgDef {
  argName : string;
  argType : list MacroValueType;
  optional : bool;
  defaultValue : option string;
  sampleValue : option string;
  argDescription : string
}.

Record MacroListSpec : Type := mkList { min : nat; max : option nat }.

Record MacroSource : Type := mkSource { sourceName : string; isExtension : bool; isThirdParty : bool }.

(** What a handler is called with. *)
Record HandlerContext : Type := mkHandlerContext {
  unnamedArgs : list string;
  list_ : list string;
  handlerEnv : MacroEnv;
  call : MacroCall.t MacroEnv;
  handlerRange : TokenRange.t;
  normalize : JsValue -> string
}.

Definition MacroHandler : Type := HandlerContext -> State (World St) (Completion JsValue).

End Types.

Arguments MacroEnv : clear implicits.
Arguments MacroEnvProperties : clear implicits.
Arguments DynamicMacro : clear implicits.
Arguments EnvFunctions : clear implicits.
Arguments HandlerContext : clear implicits.
Arguments MacroHandler : clear implicits.

Module MacroDefinition.
Record t (St : Type) : Type := mk {
  name : string;
  aliases : Datatypes.list string;
  category : string;
  description : string;
  minArgs : nat;
  maxArgs : nat;
  unnamedArgDefs : Datatypes.list MacroArgDef;
  strictArgs : bool;
  returns : option string;
  returnType : MacroValueType;
  displayOverride : option string;
  exampleUsage : Datatypes.list string;
  source : MacroSource;
  aliasOf : option string;
  aliasVisible : option bool;
  handler : MacroHandler St;
  list : option MacroListSpec
}.
Arguments mk {St}.
Arguments name {St}.
Arguments aliases {St}.
Arguments category {St}.
Arguments description {St}.
Arguments minArgs {St}.
Arguments maxArgs {St}.
Arguments unnamedArgDefs {St}.
Arguments list {St}.
Arguments strictArgs {St}.
Arguments returns {St}.
Arguments returnType {St}.
Arguments displayOverride {St}.
Arguments exampleUsage {St}.
Arguments source {St}.
Arguments aliasOf {St}.
Arguments aliasVisible {St}.
Arguments handler {St}.
End MacroDefinition.

(** ** MacroDiagnostics *)

Definition quote : string := String "034" EmptyString.

(** [inferMacroName]: the explicit name, the name of the call or the name of
    the definition, whichever is first not blank, else [unknown]. *)
Definition inferMacroName (callName defName explicit : option string) : string :=
  let candidate (o : option string) :=
    match o with
    | Some n => if String.eqb (js_trim n) "" then None else Some (js_trim n)
    | None => None
    end in
  match candidate explicit, candidate callName, candidate defName with
  | Some n, _, _ => n
  | None, Some n, _ => n
  | None, None, Some n => n
  | None, None, None => "unknown"
  end.

Section Diagnostics.
Context {St Env : Type}.

Definition buildMacroPayload (call : MacroCall.t Env) (defName : option string)
    (error : option Thrown) : Payload :=
  MacroPayload (inferMacroName (Some (MacroCall.name call)) defName None)
    (MacroCall.rawInner call) error.

(** [logMacroRuntimeWarning] *)
Definition logMacroRuntimeWarning (message : string) (call : MacroCall.t Env)
    (defName : option string) (error : option Thrown) : State (World St) unit :=
  consoleLog (console_warn "[Macro] Warning:" message (buildMacroPayload call defName error)).

(** [logMacroInternalError] *)
Definition logMacroInternalError (message : string) (call : MacroCall.t Env)
    (error : option Thrown) : State (World St) unit :=
  consoleLog (console_error "[Macro] Error:" message (buildMacroPayload call None error)).

(** [logMacroGeneralError] *)
Definition logMacroGeneralError (message input : string) : State (World St) unit :=
  consoleLog (console_error "[Macro] Error:" message (GeneralPayload input)).

(** [logMacroSyntaxWarning]: nothing is logged for an empty list of errors. *)
Definition logMacroSyntaxWarning (phase input : string) (errors : list string)
    : State (World St) unit :=
  match errors with
  | [] => ret tt
  | _ :: _ =>
      let label := if String.eqb phase "lexing" then "Lexing" else "Parsing" in
      consoleLog (console_warn "[Macro] Warning:" (label +:+ " errors detected")
                    (SyntaxPayload phase (length errors) input))
  end.

(** [createMacroRuntimeError] *)
Definition createMacroRuntimeError (message : string) : Thrown :=
  ThrownObject "MacroRuntimeError" message true.

End Diagnostics.

(** ** MacroEngine *)

(** What [MacroParser.parseDocument] returns: the tree, if the parser built
    one, and the messages of the lexing and parsing errors. *)
Record ParseResult : Type := mkParseResult {
  cst : option CstNode;
  lexingErrors : list string;
  parserErrors : list string
}.

(** [#runPreProcessors] *)
Definition runPreProcessors {E : Type} (text : string) (env : E) : string :=
  let result := text in
  let result := replaceAll matchLegacyTime result in
  let result := replaceAll (matchLiteralCI "<USER>" "{{user}}") result in
  let result := replaceAll (matchLiteralCI "<BOT>" "{{char}}") result in
  let result := replaceAll (matchLiteralCI "<CHAR>" "{{char}}") result in
  let result := replaceAll (matchLiteralCI "<GROUP>" "{{group}}") result in
  let result := replaceAll (matchLiteralCI "<CHARIFNOTGROUP>" "{{charIfNotGroup}}") result in
  result.

(** [#runPostProcessors] *)
Definition runPostProcessors {E : Type} (text : string) (env : E) : string :=
  let result := text in
  let result := replaceAll matchEscapedBrace result in
  let result := replaceAll matchTrim result in
  result.

(** [normalizeMacroResult] *)
Definition normalizeMacroResult (value : JsValue) : string :=
  match value with
  | JsUndefined | JsNull => ""
  | JsDate iso => iso
  | JsObject (Some json) _ => json
  | JsObject None asString => asString
  | JsString s => s
  | JsOther asString => asString
  end.

Section Engine.
Context {St : Type}.

(** The registry and the parser are other modules; the engine uses
    [MacroRegistry.hasMacro], [MacroRegistry.executeMacro] and
    [MacroParser.parseDocument]. *)
Variable hasMacro : string -> bool.
Variable executeMacro :
  MacroCall.t (MacroEnv St) -> option (MacroDefinition.t St) ->
  State (World St) (Completion string).
Variable parseDocument : string -> ParseResult.

(** The definition [#resolveMacro] makes for a dynamic macro. *)
Definition dynamicDefinition (name : string) (impl : DynamicMacro St) : MacroDefinition.t St :=
  {| MacroDefinition.name := name;
     MacroDefinition.aliases := [];
     MacroDefinition.category := "dynamic";
     MacroDefinition.description := "Dynamic macro";
     MacroDefinition.minArgs := 0;
     MacroDefinition.maxArgs := 0;
     MacroDefinition.unnamedArgDefs := [];
     MacroDefinition.list := None;
     MacroDefinition.strictArgs := true;
     MacroDefinition.returns := None;
     MacroDefinition.returnType := type_string;
     MacroDefinition.displayOverride := None;
     MacroDefinition.exampleUsage := [];
     MacroDefinition.source := mkSource "dynamic" false false;
     MacroDefinition.aliasOf := None;
     MacroDefinition.aliasVisible := None;
     MacroDefinition.handler :=
       match impl with
       | DynamicFunction f => fun _ => f
       | DynamicValue v => fun _ => ret (Returns v)
       end |}.

(** [call.env.functions.postProcess(result)] *)
Definition callPostProcess (env : MacroEnv St) (result : string)
    : State (World St) (Completion string) :=
  match postProcess (functions (properties env)) with
  | Some f => f result
  | None => ret (Throws (ThrownObject "TypeError" "postProcess is not a function" false))
  end.

Definition isRuntimeError (error : Thrown) : bool :=
  match error with
  | ThrownObject name _ tagged => String.eqb name "MacroRuntimeError" || tagged
  | ThrownOther => false
  end.

Definition errorMessage (error : Thrown) : string :=
  match error with
  | ThrownObject _ message _ => message
  | ThrownOther => ""
  end.

(** [#resolveMacro] *)
Definition resolveMacro (call : MacroCall.t (MacroEnv St)) : State (World St) string :=
  let name := MacroCall.name call in
  let env := MacroCall.env call in
  let raw := "{{" +:+ MacroCall.rawInner call +:+ "}}" in
  if String.eqb name "" then ret raw
  else
    let defOverride :=
      match dynamicMacros (properties env) !! name with
      | Some impl => Some (dynamicDefinition name impl)
      | None => None
      end in
    if match defOverride with Some _ => false | None => negb (hasMacro name) end
    then ret raw
    else
      completion <- executeMacro call defOverride ;;
      match completion with
      | Returns result =>
          processed <- callPostProcess (MacroCall.env call) result ;;
          match processed with
          | Returns value => ret value
          | Throws error =>
              _ <- logMacroInternalError
                     ("Macro " +:+ quote +:+ name +:+ quote +:+ " postProcess function failed.")
                     call (Some error) ;;
              ret result
          end
      | Throws error =>
          _ <- (if isRuntimeError error
                then logMacroRuntimeWarning
                       (if String.eqb (errorMessage error) ""
                        then "Macro " +:+ quote +:+ name +:+ quote +:+ " execution failed."
                        else errorMessage error)
                       call None (Some error)
                else logMacroInternalError
                       ("Macro " +:+ quote +:+ name +:+ quote +:+ " internal execution error.")
                       call (Some error)) ;;
          ret raw
      end.

(** [evaluate]. The resolver catches what the execution of a macro throws and
    the walker throws nothing else, so the handler around the walk is never
    entered. *)
Definition evaluate (input : string) (env : MacroEnv St) : State (World St) string :=
  if String.eqb input "" then ret ""
  else
    let safeEnv := freeze (spread env) in
    let preProcessed := runPreProcessors input safeEnv in
    let parsed := parseDocument preProcessed in
    _ <- logMacroSyntaxWarning "lexing" input (lexingErrors parsed) ;;
    _ <- logMacroSyntaxWarning "parsing" input (parserErrors parsed) ;;
    match cst parsed with
    | None =>
        _ <- logMacroGeneralError
               "Macro parser produced an invalid CST. Returning original input." input ;;
        ret input
    | Some cst =>
        evaluated <-
          evaluateDocument (EvaluationContext.mk preProcessed safeEnv resolveMacro) cst ;;
        ret (runPostProcessors evaluated safeEnv)
    end.

End Engine.

(** ** MacroRegistry: lookup and execution *)

Section Registry.
Context {St : Type}.

(** The registry maps every registered name and alias to its definition. *)
Variable registry : gmap string (MacroDefinition.t St).

(** Modelled from the spec: [MacroRegistry.hasMacro], of MacroRegistry.js,
    which is not among the sources: the alias-aware lookup of a name. *)
Definition hasMacro (name : string) : bool :=
  match registry !! name with Some _ => true | None => false end.

(** Modelled from the spec: the arity rule of [MacroRegistry.executeMacro], of
    MacroRegistry.js, which is not among the sources, in the words of its
    step 2: with [n] arguments, [required <= n <= positional + listMax], and
    [n >= positional + listMin] when [n > positional]; [listMax] is unbounded
    for a list without a maximum and 0 without a list. One condition is
    added, which the engine's test of the list bounds asks for (a call with
    the required argument only is refused when the list needs an argument):
    [n >= required + listMin]. *)
Definition arityValid (def : MacroDefinition.t St) (n : nat) : bool :=
  let required := MacroDefinition.minArgs def in
  let positional := MacroDefinition.maxArgs def in
  let listMin := match MacroDefinition.list def with Some l => min l | None => 0%nat end in
  let withinMax :=
    match MacroDefinition.list def with
    | Some l =>
        match max l with
        | Some listMax => (n <=? positional + listMax)%nat
        | None => true
        end
    | None => (n <=? positional + 0)%nat
    end in
  (required <=? n)%nat && withinMax &&
  (if (positional <? n)%nat then (positional + listMin <=? n)%nat else true) &&
  (required + listMin <=? n)%nat.

(** Modelled from the spec: the text of the arity warning, of which the
    engine's tests fix the name of the macro in quotes and the words
    [unnamed arguments]. *)
Definition arityMessage (def : MacroDefinition.t St) (n : nat) : string :=
  "Macro " +:+ quote +:+ MacroDefinition.name def +:+ quote +:+ " called with " +:+
  pretty n +:+ " unnamed arguments, which its definition does not accept.".

(** Modelled from the spec: the default values of the optional positional
    arguments that the call leaves out (step 3 of [executeMacro]). *)
Definition applyDefaults (def : MacroDefinition.t St) (args : list string) : list string :=
  args ++
  map (fun d => match defaultValue d with Some v => v | None => EmptyString end)
    (filter (fun d => optional d = true)
       (drop (length args) (MacroDefinition.unnamedArgDefs def))).

Fixpoint allDigits (s : string) : bool :=
  match s with
  | EmptyString => true
  | String c s' => isDigit c && allDigits s'
  end.

Definition equalsCI (pattern s : string) : bool :=
  match stripPrefixCI pattern s with
  | Some EmptyString => true
  | _ => false
  end.

Definition unsigned (s : string) : string :=
  match s with
  | String "-" s' => s'
  | _ => s
  end.

(** Modelled from the spec: the type rules of step 4 of [executeMacro]:
    an integer matches [-?[0-9]+]; a number is a decimal numeral, with an
    optional fraction; a boolean is one of six words, in any case. *)
Definition hasType (t : MacroValueType) (value : string) : bool :=
  match t with
  | type_string => true
  | type_integer => negb (String.eqb (unsigned value) "") && allDigits (unsigned value)
  | type_number =>
      let (whole, rest) := spanDigits (unsigned value) in
      negb (String.eqb whole "") &&
      match rest with
      | EmptyString => true
      | String "." fraction => negb (String.eqb fraction "") && allDigits fraction
      | _ => false
      end
  | type_boolean =>
      existsb (fun word => equalsCI word value) ["true"; "false"; "1"; "0"; "yes"; "no"]
  end.

Definition typeName (t : MacroValueType) : string :=
  match t with
  | type_string => "string"
  | type_integer => "integer"
  | type_number => "number"
  | type_boolean => "boolean"
  end.

(** A union passes when a member passes; a descriptor without a type is a
    string. *)
Definition hasOneOf (types : list MacroValueType) (value : string) : bool :=
  match types with
  | [] => true
  | _ :: _ => existsb (fun t => hasType t value) types
  end.

Definition typeMessage (def : MacroDefinition.t St) (d : MacroArgDef) : string :=
  "Macro " +:+ quote +:+ MacroDefinition.name def +:+ quote +:+ " argument " +:+
  quote +:+ argName d +:+ quote +:+ " expected type " +:+
  String.concat " | " (map typeName (argType d)) +:+ ".".

(** Modelled from the spec: step 4 of [executeMacro], over the positional
    arguments and their descriptors. A strict definition throws the runtime
    error that [createMacroRuntimeError] builds for the engine to catch; a
    definition that is not strict logs the warning and goes on. *)
Fixpoint validateTypes (def : MacroDefinition.t St) (call : MacroCall.t (MacroEnv St))
    (args : list string) (defs : list MacroArgDef) : State (World St) (Completion unit) :=
  match args, defs with
  | value :: args', d :: defs' =>
      if hasOneOf (argType d) value then validateTypes def call args' defs'
      else if MacroDefinition.strictArgs def
      then ret (Throws (createMacroRuntimeError (typeMessage def d)))
      else
        _ <- logMacroRuntimeWarning (typeMessage def d) call
               (Some (MacroDefinition.name def)) None ;;
        validateTypes def call args' defs'
  | _, _ => ret (Returns tt)
  end.

(** Modelled from the spec: steps 3 to 7 of [MacroRegistry.executeMacro]: the
    defaults, the types of the positional arguments, the split into
    positional and list arguments, the handler and the normalisation of its
    result. *)
Definition invokeMacro (def : MacroDefinition.t St) (call : MacroCall.t (MacroEnv St))
    : State (World St) (Completion string) :=
  let args := applyDefaults def (MacroCall.args call) in
  typed <- validateTypes def call args (MacroDefinition.unnamedArgDefs def) ;;
  match typed with
  | Throws error => ret (Throws error)
  | Returns _ =>
      let unnamedArgs := take (MacroDefinition.maxArgs def) args in
      let listArgs :=
        match MacroDefinition.list def with
        | Some _ => drop (MacroDefinition.maxArgs def) args
        | None => []
        end in
      result <-
        MacroDefinition.handler def
          (mkHandlerContext unnamedArgs listArgs (MacroCall.env call) call
             (MacroCall.range call) normalizeMacroResult) ;;
      match result with
      | Returns value => ret (Returns (normalizeMacroResult value))
      | Throws error => ret (Throws error)
      end
  end.

(** Modelled from the spec: [MacroRegistry.executeMacro], of MacroRegistry.js,
    which is not among the sources, after the seven steps the specification
    gives for it. Where the specification has a strict definition return the
    raw invocation, the function throws a runtime error: MacroDiagnostics.js
    documents that these errors are made to be caught by the engine, which
    logs them as runtime warnings and leaves the macro raw. *)
Definition executeMacro (call : MacroCall.t (MacroEnv St))
    (defOverride : option (MacroDefinition.t St)) : State (World St) (Completion string) :=
  let found :=
    match defOverride with
    | Some def => Some def
    | None => registry !! MacroCall.name call
    end in
  match found with
  | None =>
      ret (Throws (ThrownObject "Error"
             ("Macro " +:+ quote +:+ MacroCall.name call +:+ quote +:+ " is not registered")
             false))
  | Some def =>
      let n := length (MacroCall.args call) in
      if arityValid def n then invokeMacro def call
      else if MacroDefinition.strictArgs def
      then ret (Throws (createMacroRuntimeError (arityMessage def n)))
      else
        _ <- logMacroRuntimeWarning (arityMessage def n) call
               (Some (MacroDefinition.name def)) None ;;
        invokeMacro def call
  end.

End Registry.

(** ** Definitions of core-macros.js

    The definitions as [MacroRegistry.registerMacro] stores them: the
    arguments of the registration give [minArgs] (the required descriptors),
    [maxArgs] (all descriptors) and the list; a definition is strict unless
    the registration says otherwise. *)

Section CoreMacros.
Context {St : Type}.

Definition registered (name category description : string)
    (unnamedArgDefs : list MacroArgDef) (listSpec : option MacroListSpec)
    (strictArgs : bool) (handler : MacroHandler St) : MacroDefinition.t St :=
  {| MacroDefinition.name := name;
     MacroDefinition.aliases := [];
     MacroDefinition.category := category;
     MacroDefinition.description := description;
     MacroDefinition.minArgs := length (filter (fun d => optional d = false) unnamedArgDefs);
     MacroDefinition.maxArgs := length unnamedArgDefs;
     MacroDefinition.unnamedArgDefs := unnamedArgDefs;
     MacroDefinition.list := listSpec;
     MacroDefinition.strictArgs := strictArgs;
     MacroDefinition.returns := None;
     MacroDefinition.returnType := type_string;
     MacroDefinition.displayOverride := None;
     MacroDefinition.exampleUsage := [];
     MacroDefinition.source := mkSource "builtin" false false;
     MacroDefinition.aliasOf := None;
     MacroDefinition.aliasVisible := None;
     MacroDefinition.handler := handler |}.

Fixpoint repeat_string (s : string) (n : nat) : string :=
  match n with
  | O => EmptyString
  | S n' => s +:+ repeat_string s n'
  end.

(** The number a string of digits denotes. *)
Definition digitsValue (s : string) : nat :=
  fold_left (fun acc c => (10 * acc + (nat_of_ascii c - 48))%nat) (list_ascii_of_string s) 0%nat.

(** [{{newline}}]: [count] has passed the integer check of a strict
    definition; [repeat] throws for a negative count. *)
Definition newlineMacro : MacroDefinition.t St :=
  registered "newline" "utility"
    "Inserts one or more newlines. One newline by default, more if the count argument is specified."
    [mkArgDef "count" [type_integer] true (Some "1") None "Number of newlines to insert."]
    None true
    (fun ctx =>
       match unnamedArgs ctx with
       | count :: _ =>
           match count with
           | String "-" digits =>
               if (digitsValue digits =? 0)%nat then ret (Returns (JsString EmptyString))
               else ret (Throws (ThrownObject "RangeError" "Invalid count value" false))
           | _ => ret (Returns (JsString (repeat_string (String LF EmptyString) (digitsValue count))))
           end
       | [] => ret (Returns (JsString (String LF EmptyString)))
       end).

(** [{{noop}}] *)
Definition noopMacro : MacroDefinition.t St :=
  registered "noop" "utility" "Does nothing and produces an empty string." [] None true
    (fun _ => ret (Returns (JsString EmptyString))).

(** [{{trim}}]: the macro replaces itself with itself; the trimming is done
    in post-processing. *)
Definition trimMacro : MacroDefinition.t St :=
  registered "trim" "utility" "Trims all whitespaces around the trim macro." [] None true
    (fun _ => ret (Returns (JsString "{{trim}}"))).

(** [{{reverse::value}}] *)
Definition reverseMacro : MacroDefinition.t St :=
  registered "reverse" "utility" "Reverses the characters of the argument provided."
    [mkArgDef "value" [type_string] false None None "The string to reverse."]
    None true
    (fun ctx =>
       match unnamedArgs ctx with
       | value :: _ => ret (Returns (JsString (String.rev value)))
       | [] => ret (Throws (ThrownObject "TypeError" "undefined is not iterable" false))
       end).

(** Modelled from the spec: the name macros [{{user}}] and [{{char}}], whose
    registration is not among the sources: they give [env.names.user] and
    [env.names.char]. *)
Definition userMacro : MacroDefinition.t St :=
  registered "user" "names" "The name of the user." [] None true
    (fun ctx => ret (Returns (JsString (user (names (properties (handlerEnv ctx))))))).

Definition charMacro : MacroDefinition.t St :=
  registered "char" "names" "The name of the character." [] None true
    (fun ctx => ret (Returns (JsString (char (names (properties (handlerEnv ctx))))))).

Definition coreRegistry : gmap string (MacroDefinition.t St) :=
  list_to_map
    [("newline", newlineMacro); ("noop", noopMacro); ("trim", trimMacro);
     ("reverse", reverseMacro); ("user", userMacro); ("char", charMacro)].

End CoreMacros.

(** The engine over a registry: [MacroEngine.evaluate] with
    [MacroRegistry.hasMacro] and [MacroRegistry.executeMacro]. *)
Definition engineEvaluate {St : Type} (registry : gmap string (MacroDefinition.t St))
    (parseDocument : string -> ParseResult) (input : string) (env : MacroEnv St)
    : State (World St) string :=
  evaluate (hasMacro registry) (executeMacro registry) parseDocument input env.

(** * Further modules *)

(** ** state-macros.js

    The module keeps the type of the last generation in a variable that two
    event listeners write. The event emitter of events.js is not among the
    sources; of it the model has the listeners this module registers, in the
    order of registration, and [emit] calls the listeners of the event in
    that order. [eventSource] may be absent, as it is in tests. *)

Module StateMacros.

(** [lastGenerationTypeValue] and [lastGenerationTypeTrackingInitialized] *)
Record Vars : Type := mkVars {
  lastGenerationTypeValue : string;
  lastGenerationTypeTrackingInitialized : bool
}.

Inductive EventType : Type :=
| GENERATION_STARTED
| CHAT_CHANGED
| OTHER_EVENT (name : string).

Definition sameEvent (a b : EventType) : bool :=
  match a, b with
  | GENERATION_STARTED, GENERATION_STARTED => true
  | CHAT_CHANGED, CHAT_CHANGED => true
  | OTHER_EVENT x, OTHER_EVENT y => String.eqb x y
  | _, _ => false
  end.

(** The arguments of an event that the listeners read: [type], a string or
    absent, and [isDryRun], taken for its truth value. *)
Record EventArgs : Type := mkArgs { type : option string; isDryRun : bool }.

Definition Listener : Type := EventArgs -> Vars -> Vars.

Record Module_ : Type := mkModule {
  vars : Vars;
  eventSource : option (list (EventType * Listener))
}.

(** The module as it is loaded. *)
Definition loaded (eventSource : option (list (EventType * Listener))) : Module_ :=
  mkModule (mkVars "" false) eventSource.

(** [type || 'normal'] *)
Definition typeOrNormal (type : option string) : string :=
  match type with
  | Some t => if String.eqb t "" then "normal" else t
  | None => "normal"
  end.

(** The listener of [GENERATION_STARTED] *)
Definition onGenerationStarted : Listener :=
  fun args v =>
    if isDryRun args then v
    else mkVars (typeOrNormal (type args)) (lastGenerationTypeTrackingInitialized v).

(** The listener of [CHAT_CHANGED] *)
Definition onChatChanged : Listener :=
  fun _ v => mkVars "" (lastGenerationTypeTrackingInitialized v).

(** [eventSource?.on?.(event, listener)] *)
Definition on (event : EventType) (listener : Listener)
    (source : option (list (EventType * Listener))) : option (list (EventType * Listener)) :=
  match source with
  | Some listeners => Some (listeners ++ [(event, listener)])
  | None => None
  end.

(** [ensureLastGenerationTypeTracking] *)
Definition ensureLastGenerationTypeTracking (m : Module_) : Module_ :=
  if lastGenerationTypeTrackingInitialized (vars m) then m
  else
    mkModule (mkVars (lastGenerationTypeValue (vars m)) true)
      (on CHAT_CHANGED onChatChanged
         (on GENERATION_STARTED onGenerationStarted (eventSource m))).

(** [eventSource.emit(event, ...args)] *)
Definition emit (event : EventType) (args : EventArgs) (m : Module_) : Module_ :=
  match eventSource m with
  | Some listeners =>
      mkModule
        (fold_left (fun v entry => if sameEvent (fst entry) event then snd entry args v else v)
           listeners (vars m))
        (eventSource m)
  | None => m
  end.

(** The handler of [{{lastGenerationType}}] *)
Definition lastGenerationType (m : Module_) : string := lastGenerationTypeValue (vars m).

(** [registerStateMacros], as far as this module's state goes: the
    registration writes to the registry only. *)
Definition registerStateMacros (m : Module_) : Module_ := ensureLastGenerationTypeTracking m.

End StateMacros.

(** ** EnhancedMacroAutoCompleteOption.js: [parseMacroContext] *)

Module MacroAutoCompleteContext.

(** A part of the macro text between separators, with the offsets of its
    first character and of the position behind its last. *)
Record Part : Type := mkPart { text : string; start : nat; end_ : nat }.

Record t : Type := mk {
  fullText : string;
  cursorOffset : Z;
  identifier : string;
  args : list string;
  currentArgIndex : Z
}.

End MacroAutoCompleteContext.

Definition colon : ascii := ":"%char.

(** The loop of [parseMacroContext] from offset [i] on: [rest] is the text
    from [i]. *)
Fixpoint scanParts (rest : string) (parts : list MacroAutoCompleteContext.Part)
    (currentPart : string) (partStart i : nat) : list MacroAutoCompleteContext.Part :=
  match rest with
  | EmptyString => parts ++ [MacroAutoCompleteContext.mkPart currentPart partStart i]
  | String c rest1 =>
      let noSeparator :=
        scanParts rest1 parts (currentPart +:+ String c EmptyString) partStart (i + 1) in
      if Ascii.eqb c colon then
        match rest1 with
        | String c' rest2 =>
            if Ascii.eqb c' colon
            then scanParts rest2
                   (parts ++ [MacroAutoCompleteContext.mkPart currentPart partStart i])
                   EmptyString (i + 2) (i + 2)
            else noSeparator
        | EmptyString => noSeparator
        end
      else noSeparator
  end.

(** The loop that looks for the part the cursor is in; [idx] is the index of
    the first of [parts]. *)
Fixpoint findPart (parts : list MacroAutoCompleteContext.Part) (idx : Z) (cursorOffset : Z) : Z :=
  match parts with
  | [] => -1
  | part :: rest =>
      if (Z.of_nat (MacroAutoCompleteContext.start part) <=? cursorOffset) &&
         (cursorOffset <=? Z.of_nat (MacroAutoCompleteContext.end_ part))
      then idx - 1
      else findPart rest (idx + 1) cursorOffset
  end.

(** [parseMacroContext]. The loop always leaves a last part, so the list of
    parts is never empty. *)
Definition parseMacroContext (macroText : string) (cursorOffset : Z)
    : MacroAutoCompleteContext.t :=
  let parts := scanParts macroText [] EmptyString 0 0 in
  let currentArgIndex := findPart parts 0 cursorOffset in
  let currentArgIndex :=
    if (currentArgIndex =? -1) &&
       match last parts with
       | Some lastPart => Z.of_nat (MacroAutoCompleteContext.end_ lastPart) <=? cursorOffset
       | None => false
       end
    then Z.of_nat (length parts) - 1
    else currentArgIndex in
  MacroAutoCompleteContext.mk macroText cursorOffset
    (match parts with
     | part :: _ => js_trim (MacroAutoCompleteContext.text part)
     | [] => EmptyString
     end)
    (map MacroAutoCompleteContext.text (tail parts))
    currentArgIndex.

(** ** core-macros.js: the legacy list of [{{random}}] and [{{pick}}] *)

(** [s.includes(sub)] *)
Fixpoint includes (sub s : string) : bool :=
  match s with
  | EmptyString => String.prefix sub EmptyString
  | String _ s' => String.prefix sub s || includes sub s'
  end.

(** [s.split(sep)] for a separator that is not empty: the texts between the
    occurrences of the separator, found from left to right. [current] is the
    text read since the last separator, [skip] counts the characters of the
    separator still to be passed. *)
Fixpoint splitBy (sep s current : string) (skip : nat) : list string :=
  match s with
  | EmptyString => [current]
  | String c s' =>
      match skip with
      | S k => splitBy sep s' current k
      | O =>
          if String.prefix sep s
          then current :: splitBy sep s' EmptyString (Nat.pred (String.length sep))
          else splitBy sep s' (current +:+ String c EmptyString) 0
      end
  end.

Definition split (sep s : string) : list string := splitBy sep s EmptyString 0.

(** [/literal/g], replaced by [replacement] *)
Definition matchLiteral (pattern replacement : string) (s : string) : option (nat * string) :=
  if String.prefix pattern s then Some (String.length pattern, replacement) else None.

(** The character U+FFFD, as the bytes of its encoding. *)
Definition replacementCharacter : string :=
  String "239" (String "191" (String "189" EmptyString)).

(** The text that stands for an escaped comma while the list is split. *)
Definition commaPlaceholder : string :=
  "##" +:+ replacementCharacter +:+ "COMMA" +:+ replacementCharacter +:+ "##".

(** [readSingleArgsRandomList] *)
Definition readSingleArgsRandomList (listString : string) : list string :=
  if includes "::" listString
  then map js_trim (split "::" listString)
  else
    map (fun item => replaceAll (matchLiteral commaPlaceholder ",") (js_trim item))
      (split "," (replaceAll (matchLiteral "\," commaPlaceholder) listString)).

(** The first step of the handlers of [{{random}}] and [{{pick}}]: a list of
    one item is read as a legacy list. *)
Definition legacyList (list : Datatypes.list string) : Datatypes.list string :=
  match list with
  | [single] => readSingleArgsRandomList single
  | _ => list
  end.

(** ** core-macros.js: the hash of the chat id

    [chat_metadata] is an object of script.js; of its values the function
    tells numbers from the rest. [getStringHash], of utils.js, and
    [getCurrentChatId], of script.js, are not among the sources: the first is
    a parameter, the second is given by the id it returns. *)

Inductive MetadataValue : Type :=
| MetadataNumber (n : Z)
| MetadataString (s : string)
| MetadataNull.

Section ChatIdHash.
Variable getStringHash : MetadataValue -> Z.

(** [getChatIdHash]; [currentChatId] is what [getCurrentChatId()] returns. *)
Definition getChatIdHash (currentChatId : MetadataValue)
    : State (gmap string MetadataValue) Z :=
  fun chat_metadata =>
    match chat_metadata !! "chat_id_hash" with
    | Some (MetadataNumber cachedIdHash) => (cachedIdHash, chat_metadata)
    | _ =>
        let chatId :=
          match chat_metadata !! "main_chat" with
          | Some MetadataNull | None => currentChatId
          | Some value => value
          end in
        let chatIdHash := getStringHash chatId in
        (chatIdHash, <["chat_id_hash" := MetadataNumber chatIdHash]> chat_metadata)
    end.

End ChatIdHash.

(** ** The engine over a store of objects

    [MacroEngine.evaluate] copies its environment and freezes the copy. What
    that does shows where objects have an identity and can be changed by the
    code that holds a reference to them: here the environment is a reference
    into a store of objects, and the code the engine runs, handlers among it,
    acts on the store. *)

Module Shared.

(** A reference to an object: its index in the store. *)
Abbreviation Ref := nat (only parsing).

(** The value of a property: a primitive, a reference to an object, or a
    function, given by its name in the code outside the engine. *)
Inductive Value : Type :=
| VUndefined
| VString (s : string)
| VNumber (z : Z)
| VObject (r : Ref)
| VFunction (id : string).

(** An object: its own properties, and whether it is frozen. *)
Record JsObject : Type := mkJsObject { isFrozen : bool; own : gmap string Value }.

(** The store holds the objects made so far; a new object is put behind
    them. *)
Abbreviation Store := (list JsObject) (only parsing).

(** [{ ...o }]: a new object, not frozen, with the own properties of [o];
    without properties when [o] is no object. *)
Definition spreadObject (r : Ref) : State (World Store) Ref :=
  fun w =>
    let properties :=
      match store w !! r with
      | Some o => own o
      | None => ∅
      end in
    (length (store w), mkWorld (store w ++ [mkJsObject false properties]) (console w)).

(** [Object.freeze(o)]: the object is frozen, and returned. *)
Definition freezeObject (r : Ref) : State (World Store) Ref :=
  fun w =>
    (r,
     match store w !! r with
     | Some o => mkWorld (<[r := mkJsObject true (own o)]> (store w)) (console w)
     | None => w
     end).

(** [o[key]] *)
Definition readProperty (r : Ref) (key : string) (w : World Store) : Value :=
  match store w !! r with
  | Some o =>
      match own o !! key with
      | Some value => value
      | None => VUndefined
      end
  | None => VUndefined
  end.

(** [o[key] = value]: the property is set, whether the object had it or not.
    A frozen object is left as it is; the assignment then throws a
    [TypeError] in strict code, as the code of a module is, and does nothing
    in code that is not strict. *)
Definition assignProperty (strict : bool) (r : Ref) (key : string) (value : Value)
    : State (World Store) (Completion unit) :=
  fun w =>
    match store w !! r with
    | Some o =>
        if isFrozen o then
          (if strict
           then Throws (ThrownObject "TypeError"
                          ("Cannot assign to read only property '" +:+ key +:+ "' of object")
                          false)
           else Returns tt, w)
        else
          (Returns tt,
           mkWorld (<[r := mkJsObject false (<[key := value]> (own o))]> (store w)) (console w))
    | None =>
        (Throws (ThrownObject "TypeError" "Cannot set properties of undefined" false), w)
    end.

Section Engine.

(** The parser is another module. [#resolveMacro], bound to the engine, is
    taken as it is handed to the walker: with the registry, the handlers and
    the functions of the environment it runs, it is code that acts on the
    store. *)
Variable parseDocument : string -> ParseResult.
Variable resolveMacro : MacroCall.t Ref -> State (World Store) string.

(** [evaluate], with the environment as a reference. *)
Definition evaluate (input : string) (env : Ref) : State (World Store) string :=
  if String.eqb input "" then ret ""
  else
    copy <- spreadObject env ;;
    safeEnv <- freezeObject copy ;;
    let preProcessed := runPreProcessors input safeEnv in
    let parsed := parseDocument preProcessed in
    _ <- logMacroSyntaxWarning "lexing" input (lexingErrors parsed) ;;
    _ <- logMacroSyntaxWarning "parsing" input (parserErrors parsed) ;;
    match cst parsed with
    | None =>
        _ <- logMacroGeneralError
               "Macro parser produced an invalid CST. Returning original input." input ;;
        ret input
    | Some cst =>
        evaluated <-
          evaluateDocument (EvaluationContext.mk preProcessed safeEnv resolveMacro) cst ;;
        ret (runPostProcessors evaluated safeEnv)
    end.

End Engine.

End Shared.

(** * Properties *)

(** ** Sorting *)

(** [x] may stand before [y] in the result of a sort with [compare]. *)
Definition mayPrecede {A : Type} (compare : A -> A -> jsnum) (x y : A) : Prop :=
  comesAfter compare x y = false.

(** ** Nesting and the order of resolver calls *)

(** [m] is a macro of an argument of [n]: a macro node that the evaluation of
    [n] recurses into. *)
Definition nestedIn (m n : CstNode) : Prop :=
  exists a, In a (argumentNodesOf n) /\ In m (nodesOf (childArray "macro" (children a))).

(** [m] lies below [n]: nested in [n], or in a macro below [n]. *)
Inductive macroBelow : CstNode -> CstNode -> Prop :=
| below_nested (m n : CstNode) : nestedIn m n -> macroBelow m n
| below_deeper (m k n : CstNode) : macroBelow m k -> nestedIn k n -> macroBelow m n.

Section Recording.
Context {Env W : Type}.

(** A resolver that also records the calls it receives, in the order in which
    it receives them. *)
Definition recording (resolve : MacroCall.t Env -> State W string)
    : MacroCall.t Env -> State (W * list (MacroCall.t Env)) string :=
  fun call wt =>
    let (value, w') := resolve call (fst wt) in (value, (w', snd wt ++ [call])).

Definition recordingContext (context : EvaluationContext.t Env W)
    : EvaluationContext.t Env (W * list (MacroCall.t Env)) :=
  EvaluationContext.mk (EvaluationContext.text context) (EvaluationContext.env context)
    (recording (EvaluationContext.resolveMacro context)).

(** The calls recorded while a macro node is evaluated are inside-out: the
    call for the node itself comes last, behind calls for macros below it. *)
Definition insideOut (node : CstNode) (calls : list (MacroCall.t Env)) : Prop :=
  exists inner call,
    calls = inner ++ [call] /\ MacroCall.cstNode call = node /\
    Forall (fun c => macroBelow (MacroCall.cstNode c) node) inner.

(** A computation run while recording yields what it yields without, and
    appends calls of the given shape to the record. *)
Definition tracks {A : Type} (shape : list (MacroCall.t Env) -> Prop)
    (f' : State (W * list (MacroCall.t Env)) A) (f : State W A) : Prop :=
  forall w tr, exists calls,
    f' (w, tr) = (fst (f w), (snd (f w), tr ++ calls)) /\ shape calls.

Definition atOrBelow (m : CstNode) (c : MacroCall.t Env) : Prop :=
  MacroCall.cstNode c = m \/ macroBelow (MacroCall.cstNode c) m.

End Recording.

(** The macro nodes among document items, in the order of the items. *)
Fixpoint macroNodesOf (items : list DocumentItem.t) : list CstNode :=
  match items with
  | [] => []
  | item :: rest =>
      match DocumentItem.type item with
      | macro node => node :: macroNodesOf rest
      | plaintext _ => macroNodesOf rest
      end
  end.

(** Source order of two items whose offsets are numbers: by start offset,
    then by end offset. *)
Definition sourceOrder (a b : DocumentItem.t) : Prop :=
  forall sa ea sb eb,
    DocumentItem.startOffset a = Num sa -> DocumentItem.endOffset a = Num ea ->
    DocumentItem.startOffset b = Num sb -> DocumentItem.endOffset b = Num eb ->
    sa < sb \/ (sa = sb /\ ea <= eb).

(** ** Flattening of incomplete macros *)

Definition startTokenOf (n : CstNode) : option IToken.t :=
  firstToken (childArray "Macro.Start" (children n)).

Definition endTokenOf (n : CstNode) : option IToken.t :=
  firstToken (childArray "Macro.End" (children n)).

(** A macro node whose closing delimiter is present in the input: it has both
    delimiters, and the closing one was not inserted during recovery. *)
Definition completeMacro (n : CstNode) : Prop :=
  startTokenOf n <> None /\ endTokenOf n <> None /\ isRecoveryToken (endTokenOf n) = false.

(** A node with both delimiters whose closing one was inserted in recovery. *)
Definition incompleteMacro (n : CstNode) : Prop :=
  startTokenOf n <> None /\ endTokenOf n <> None /\ isRecoveryToken (endTokenOf n) = true.

(** Not a macro node: an [arguments] or [argument] wrapper. *)
Definition wrapperNode (n : CstNode) : Prop :=
  startTokenOf n = None \/ endTokenOf n = None.

(** The items an incomplete macro [n] is flattened to, [exclude] being its
    recovery-inserted token: a plaintext item for each of its tokens but the
    excluded one, a macro item for each complete macro directly inside it,
    and, in turn, the items of the incomplete macros and of the wrappers
    inside it. *)
Inductive Flattened : CstNode -> option IToken.t -> DocumentItem.t -> Prop :=
| flattened_token (n : CstNode) (exclude : option IToken.t) k els (tok : IToken.t) :
    In (k, els) (children n) -> In (inl tok) els -> sameToken tok exclude = false ->
    Flattened n exclude (plaintextItem tok)
| flattened_complete (n : CstNode) (exclude : option IToken.t) k els (m : CstNode) :
    In (k, els) (children n) -> In (inr m) els -> completeMacro m ->
    Flattened n exclude (macroItem m)
| flattened_incomplete (n : CstNode) (exclude : option IToken.t) k els (m : CstNode) item :
    In (k, els) (children n) -> In (inr m) els -> incompleteMacro m ->
    Flattened m (endTokenOf m) item ->
    Flattened n exclude item
| flattened_wrapper (n : CstNode) (exclude : option IToken.t) k els (m : CstNode) item :
    In (k, els) (children n) -> In (inr m) els -> wrapperNode m ->
    Flattened m exclude item ->
    Flattened n exclude item.

(** The step of [#flattenIncompleteMacro] for one child element, with the
    recursion as a parameter. *)
Definition flattenElement
    (flatten : CstNode -> option IToken.t -> list DocumentItem.t -> list DocumentItem.t)
    (excludeToken : option IToken.t) (items : list DocumentItem.t) (element : CstElement)
    : list DocumentItem.t :=
  match element with
  | inl tok =>
      if sameToken tok excludeToken then items else items ++ [plaintextItem tok]
  | inr nested =>
      let nestedEnd := firstToken (childArray "Macro.End" (children nested)) in
      let nestedStart := firstToken (childArray "Macro.Start" (children nested)) in
      match nestedStart, nestedEnd with
      | Some _, Some _ =>
          if negb (isRecoveryToken nestedEnd)
          then items ++ [macroItem nested]
          else flatten nested nestedEnd items
      | _, _ => flatten nested excludeToken items
      end
  end.

(** What one child element of a flattened node contributes. *)
Definition elementItems (exclude : option IToken.t) (e : CstElement) (x : DocumentItem.t) : Prop :=
  match e with
  | inl tok => sameToken tok exclude = false /\ x = plaintextItem tok
  | inr m =>
      (completeMacro m /\ x = macroItem m) \/
      (incompleteMacro m /\ Flattened m (endTokenOf m) x) \/
      (wrapperNode m /\ Flattened m exclude x)
  end.

(** ** Example documents

    MacroParser.js is not among the sources; the trees below are what the
    grammar of the specification gives for the inputs, with offsets counted
    from 0 and inclusive. *)

Definition token (id : nat) (image : string) (startOffset endOffset : Z) : IToken.t :=
  IToken.mk id image (Num startOffset) (Some (Num endOffset)) false.

(** A token inserted during recovery: no image, offsets that are [NaN]. *)
Definition insertedToken (id : nat) : IToken.t :=
  IToken.mk id "" NaN (Some NaN) true.

Definition located (s e : Z) : option TokenRange.t := Some (TokenRange.mk (Num s) (Num e)).

(** Modelled from the spec: the tree of the input [Test {{ hehe {{user}}]: the
    macro [hehe] lacks its closing delimiter, which the parser inserts; its
    one argument holds the complete macro [user]. *)
Definition danglingInput : string := "Test {{ hehe {{user}}".

Definition danglingUser : CstNode :=
  mkCstNode "macro"
    [("Macro.Start", [inl (token 4 "{{" 13 14)]);
     ("Macro.identifier", [inl (token 5 "user" 15 18)]);
     ("Macro.End", [inl (token 6 "}}" 19 20)])]
    (located 13 20).

Definition danglingArgument : CstNode :=
  mkCstNode "argument" [("macro", [inr danglingUser])] (located 13 20).

Definition danglingArguments : CstNode :=
  mkCstNode "arguments" [("argument", [inr danglingArgument])] (located 13 20).

Definition danglingHehe : CstNode :=
  mkCstNode "macro"
    [("Macro.Start", [inl (token 1 "{{" 5 6)]);
     ("Macro.identifier", [inl (token 2 "hehe" 8 11)]);
     ("arguments", [inr danglingArguments]);
     ("Macro.End", [inl (insertedToken 7)])]
    (located 5 20).

Definition danglingDocument : CstNode :=
  mkCstNode "document"
    [("plaintext", [inl (token 0 "Test " 0 4)]);
     ("macro", [inr danglingHehe])]
    None.

Definition danglingParser (text : string) : ParseResult :=
  mkParseResult (Some danglingDocument) []
    ["Expecting token of type Macro.End but found the end of the input"].

(** The environment of the engine's tests: the user is [User], the character
    is [Character], no group, no dynamic macros; [postProcess] returns its
    argument. *)
Definition testEnv (content : string) : MacroEnv unit :=
  mkObject false
    (mkEnv content 0 (mkNames "User" "Character" "Character" "Character" "User") ∅
       (mkFunctions (Some (fun result => ret (Returns result))))).

Definition emptyWorld : World unit := mkWorld tt [].

(** ** Resolution *)

Section ResolutionSpec.
Context {St : Type}.

(** The definition override [#resolveMacro] passes to the registry. *)
Definition defOverrideOf (call : MacroCall.t (MacroEnv St)) : option (MacroDefinition.t St) :=
  match dynamicMacros (properties (MacroCall.env call)) !! MacroCall.name call with
  | Some impl => Some (dynamicDefinition (MacroCall.name call) impl)
  | None => None
  end.

(** The invocation verbatim with braces, nested values substituted. *)
Definition rawOf (call : MacroCall.t (MacroEnv St)) : string :=
  "{{" +:+ MacroCall.rawInner call +:+ "}}".

(** The console call of a runtime warning and of an internal error for a
    call that threw [error]. *)
Definition runtimeWarningFor (call : MacroCall.t (MacroEnv St)) (error : Thrown) : ConsoleCall :=
  console_warn "[Macro] Warning:"
    (if String.eqb (errorMessage error) ""
     then "Macro " +:+ quote +:+ MacroCall.name call +:+ quote +:+ " execution failed."
     else errorMessage error)
    (MacroPayload (inferMacroName (Some (MacroCall.name call)) None None)
       (MacroCall.rawInner call) (Some error)).

Definition internalErrorFor (call : MacroCall.t (MacroEnv St)) (error : Thrown) : ConsoleCall :=
  console_error "[Macro] Error:"
    ("Macro " +:+ quote +:+ MacroCall.name call +:+ quote +:+ " internal execution error.")
    (MacroPayload (inferMacroName (Some (MacroCall.name call)) None None)
       (MacroCall.rawInner call) (Some error)).

Definition logged (w : World St) (entry : ConsoleCall) : World St :=
  mkWorld (store w) (console w ++ [entry]).

End ResolutionSpec.

(** A registry whose every execution throws the same error. *)
Definition throwingRegistry (error : Thrown)
    (call : MacroCall.t (MacroEnv unit)) (defOverride : option (MacroDefinition.t unit))
    : State (World unit) (Completion string) :=
  ret (Throws error).

Definition sampleCall (name : string) (args : list string) (rawInner : string)
    : MacroCall.t (MacroEnv unit) :=
  MacroCall.mk name args (freeze (spread (testEnv ""))) rawInner ("{{" +:+ rawInner +:+ "}}")
    (TokenRange.mk (Num 0) (Num (strlen rawInner + 3)))
    (mkCstNode "macro" [] None).



(** The core registry over a trivial outside state. *)
Definition testRegistry : gmap string (MacroDefinition.t unit) := coreRegistry.

(** ** Arity *)









(** ** What an argument evaluates to *)

Definition nestedMacrosOf (argNode : CstNode) : list CstNode :=
  nodesOf (childArray "macro" (children argNode)).


Definition rangeOf (span : Z * Z) : TokenRange.t := TokenRange.mk (Num (fst span)) (Num (snd span)).

(** A range of two numbers, with the end not before the start. *)
Definition properRange (r : TokenRange.t) : Prop :=
  exists s e, r = rangeOf (s, e) /\ s <= e + 1.

(** The pieces the evaluation of an argument is made of, in order: the text
    from [a] up to, not including, [b], and the value of a nested macro that
    spans [s] to [e]. *)
Inductive Piece : Type :=
| Verbatim (a b : Z)
| Nested (node : CstNode) (s e : Z).

(** The pieces for the entries from [cursor] on, and the cursor behind them:
    an entry that starts before the cursor yields no piece. *)
Fixpoint piecesFrom (entries : list (CstNode * TokenRange.t)) (cursor : Z) : list Piece * Z :=
  match entries with
  | [] => ([], cursor)
  | entry :: rest =>
      let s := toInteger (TokenRange.startOffset (snd entry)) in
      let e := toInteger (TokenRange.endOffset (snd entry)) in
      if s <? cursor then piecesFrom rest cursor
      else
        let (pieces, final) := piecesFrom rest (e + 1) in
        (Verbatim cursor s :: Nested (fst entry) s e :: pieces, final)
  end.

(** The pieces of an argument that spans [lo] to [hi]. *)
Definition argumentPieces (entries : list (CstNode * TokenRange.t)) (lo hi : Z) : list Piece :=
  let (pieces, final) := piecesFrom entries lo in
  pieces ++ (if final <=? hi then [Verbatim final (hi + 1)] else []).

(** The pieces follow each other from [cursor] on without overlap, and none
    runs backwards. *)
Fixpoint consecutive (cursor : Z) (pieces : list Piece) : Prop :=
  match pieces with
  | [] => True
  | Verbatim a b :: rest => cursor <= a /\ a <= b /\ consecutive b rest
  | Nested _ s e :: rest => cursor <= s /\ s <= e + 1 /\ consecutive (e + 1) rest
  end.

(** The piece takes the character at offset [i] from the text. *)
Definition takes (i : Z) (p : Piece) : bool :=
  match p with
  | Verbatim a b => (a <=? i) && (i <? b)
  | Nested _ _ _ => false
  end.

Section Rendering.
Context {W : Type}.

(** Running a list of computations in order. *)
Fixpoint forEach {A B : Type} (f : A -> State W B) (l : list A) : State W (list B) :=
  match l with
  | [] => ret []
  | x :: l' => y <- f x ;; ys <- forEach f l' ;; ret (y :: ys)
  end.

(** The string of a list of pieces: the slices of the text and the values of
    the nested macros, appended to [result] in order. *)
Fixpoint render (f : CstNode -> State W string) (text : string) (pieces : list Piece)
    (result : string) : State W string :=
  match pieces with
  | [] => ret result
  | Verbatim a b :: rest => render f text rest (result +:+ slice text (Num a) (Num b))
  | Nested node _ _ :: rest => value <- f node ;; render f text rest (result +:+ value)
  end.

End Rendering.




(** ** Substitution of nested values *)

(** The text from [cursor] on in which each span is replaced by its value, up
    to the end of the last span, and the offset behind the last span. *)
Fixpoint splice (text : string) (cursor : Z) (spans : list ((Z * Z) * string)) : string * Z :=
  match spans with
  | [] => (EmptyString, cursor)
  | (span, value) :: rest =>
      let (behind, final) := splice text (snd span + 1) rest in
      (slice text (Num cursor) (Num (fst span)) +:+ value +:+ behind, final)
  end.

(** The text from [cursor] up to, not including, [stop] in which each span is
    replaced by its value. *)
Definition spliceTo (text : string) (cursor : Z) (spans : list ((Z * Z) * string)) (stop : Z)
    : string :=
  let (replaced, final) := splice text cursor spans in
  replaced +:+ slice text (Num final) (Num stop).

(** The text from [lo] to [hi] (inclusive) in which the text of each span is
    replaced by the value of the span; the text between the spans is kept. *)
Definition substitute (text : string) (lo hi : Z) (spans : list ((Z * Z) * string)) : string :=
  spliceTo text lo spans (hi + 1).

(** The spans lie in order, without overlap, between [cursor] and [hi]. *)
Fixpoint spansWithin (cursor hi : Z) (spans : list (Z * Z)) : Prop :=
  match spans with
  | [] => cursor <= hi + 1
  | span :: rest =>
      cursor <= fst span /\ fst span <= snd span + 1 /\ spansWithin (snd span + 1) hi rest
  end.

(** The layout of an argument node: its location and the ranges of its nested
    macros, in order; or no location, and then no nested macro. *)
Inductive ArgumentLayout : Type :=
| Located (span : Z * Z) (nested : list (Z * Z))
| Unlocated.

Definition argumentLayout (argNode : CstNode) (layout : ArgumentLayout) : Prop :=
  match layout with
  | Located span nested =>
      getArgumentLocation argNode = Some (rangeOf span) /\
      map getMacroRange (nestedMacrosOf argNode) = map rangeOf nested /\
      spansWithin (fst span) (snd span) nested
  | Unlocated => getArgumentLocation argNode = None /\ nestedMacrosOf argNode = []
  end.

Fixpoint locatedSpans (layouts : list ArgumentLayout) : list (Z * Z) :=
  match layouts with
  | [] => []
  | Located span _ :: rest => span :: locatedSpans rest
  | Unlocated :: rest => locatedSpans rest
  end.

(** A macro node as the parser builds it for a well-formed invocation: the
    text between the braces runs from [lo] to [hi]; the arguments lie in it
    in order, and in each argument its nested macros. *)
Definition wellFormedMacro (macroNode : CstNode) (lo hi : Z) (layouts : list ArgumentLayout)
    : Prop :=
  innerStartOf macroNode = Num lo /\ innerEndOf macroNode = Num hi /\
  0 <= lo /\ lo <= hi /\
  Forall2 argumentLayout (argumentNodesOf macroNode) layouts /\
  spansWithin lo hi (locatedSpans layouts).

(** The spans of the nested macros of an argument with their values. *)
Definition argumentSpans (layout : ArgumentLayout) (values : list string)
    : list ((Z * Z) * string) :=
  match layout with
  | Located _ nested => combine nested values
  | Unlocated => []
  end.

(** The value of an argument: its text with the nested values in place. *)
Definition argumentValue (text : string) (layout : ArgumentLayout) (values : list string) : string :=
  match layout with
  | Located span nested => substitute text (fst span) (snd span) (combine nested values)
  | Unlocated => EmptyString
  end.

(** The spans of all nested macros of a macro node with their values. *)
Fixpoint nestedSpans (layouts : list ArgumentLayout) (values : list (list string))
    : list ((Z * Z) * string) :=
  match layouts, values with
  | layout :: layouts', vs :: values' => argumentSpans layout vs ++ nestedSpans layouts' values'
  | _, _ => []
  end.

Fixpoint argumentValues (text : string) (layouts : list ArgumentLayout)
    (values : list (list string)) : list string :=
  match layouts, values with
  | layout :: layouts', vs :: values' =>
      argumentValue text layout vs :: argumentValues text layouts' values'
  | _, _ => []
  end.

(** The located arguments with their values: what [#evaluateMacroNode]
    collects to rebuild the inner text. *)
Fixpoint locatedValues (text : string) (layouts : list ArgumentLayout)
    (values : list (list string)) : list ((Z * Z) * string) :=
  match layouts, values with
  | Located span nested :: layouts', vs :: values' =>
      (span, argumentValue text (Located span nested) vs) :: locatedValues text layouts' values'
  | Unlocated :: layouts', _ :: values' => locatedValues text layouts' values'
  | _, _ => []
  end.

(** The entries [#evaluateMacroNode] collects: value and location. *)
Definition entriesOf (located : list ((Z * Z) * string)) : list (string * TokenRange.t) :=
  map (fun sv => (snd sv, rangeOf (fst sv))) located.

(** The nested macros of each located argument lie within the argument, and
    there is a value for each. *)
Definition layoutValues (layout : ArgumentLayout) (values : list string) : Prop :=
  match layout with
  | Located span nested =>
      spansWithin (fst span) (snd span) nested /\ length values = length nested
  | Unlocated => True
  end.

(** Modelled from the spec: the tree of the input
    [Test: {{unknown::my {{newline}} example}}]: an unknown macro whose one
    argument holds text and the macro [newline]. *)
Definition unknownInput : string := "Test: {{unknown::my {{newline}} example}}".

Definition unknownNewline : CstNode :=
  mkCstNode "macro"
    [("Macro.Start", [inl (token 6 "{{" 20 21)]);
     ("Macro.identifier", [inl (token 7 "newline" 22 28)]);
     ("Macro.End", [inl (token 8 "}}" 29 30)])]
    (located 20 30).

Definition unknownArgument : CstNode :=
  mkCstNode "argument"
    [("Plaintext", [inl (token 5 "my " 17 19); inl (token 9 " example" 31 38)]);
     ("macro", [inr unknownNewline])]
    (located 17 38).

Definition unknownArguments : CstNode :=
  mkCstNode "arguments"
    [("Args.DoubleColon", [inl (token 4 "::" 15 16)]);
     ("argument", [inr unknownArgument])]
    (located 15 38).

Definition unknownNode : CstNode :=
  mkCstNode "macro"
    [("Macro.Start", [inl (token 2 "{{" 6 7)]);
     ("Macro.identifier", [inl (token 3 "unknown" 8 14)]);
     ("arguments", [inr unknownArguments]);
     ("Macro.End", [inl (token 10 "}}" 39 40)])]
    (located 6 40).

Definition unknownDocument : CstNode :=
  mkCstNode "document"
    [("plaintext", [inl (token 1 "Test: " 0 5)]);
     ("macro", [inr unknownNode])]
    None.

Definition unknownContext : EvaluationContext.t (MacroEnv unit) (World unit) :=
  EvaluationContext.mk unknownInput (freeze (spread (testEnv unknownInput)))
    (resolveMacro (hasMacro testRegistry) (executeMacro testRegistry)).

(** ** Occurrences and matches *)

(** The pattern occurs in [s], ignoring case. *)
Fixpoint occursCI (pattern s : string) : bool :=
  match s with
  | EmptyString => match stripPrefixCI pattern EmptyString with Some _ => true | None => false end
  | String _ s' =>
      match stripPrefixCI pattern s with
      | Some _ => true
      | None => occursCI pattern s'
      end
  end.

(** A run of line breaks, [(\r?\n)*]. *)
Definition isNewlineRun (s : string) : Prop := snd (skipNewlines s) = EmptyString.

(** The token [{{trim}}], in any case. *)
Definition isTrimToken (t : string) : Prop := stripPrefixCI "{{trim}}" t = Some EmptyString.

(** [s] without the run of line breaks at its end: the characters up to the
    first position from which [s] is a run of line breaks. *)
Fixpoint dropTrailingRun (s : string) : string :=
  match s with
  | EmptyString => EmptyString
  | String c s' =>
      if String.eqb (snd (skipNewlines s)) EmptyString then EmptyString
      else String c (dropTrailingRun s')
  end.

(** No occurrence of the token begins within [pre] when [pre] stands before
    the token [T]. *)
Definition firstTrimToken (pre T : string) : Prop :=
  forall p t, pre = p +:+ t -> t <> EmptyString -> stripPrefixCI "{{trim}}" (t +:+ T) = None.

(** The expression [(?:\r?\n)*{{trim}}] matches at the head of [s]. *)
Definition trimMatchAt (s : string) : Prop :=
  exists L T rest, s = L +:+ T +:+ rest /\ isNewlineRun L /\ isTrimToken T.

(** [Trimmed s out]: [out] is [s] without the matches of
    [(?:\r?\n)*{{trim}}(?:\r?\n)*], taken from left to right: a match is the
    token with the run of line breaks before it and the whole run of line
    breaks behind it; a character at which no match begins is kept. *)
Inductive Trimmed : string -> string -> Prop :=
| trimmed_end : Trimmed EmptyString EmptyString
| trimmed_match (L T R rest out : string) :
    isNewlineRun L -> isTrimToken T -> isNewlineRun R ->
    fst (skipNewlines rest) = 0%nat ->
    Trimmed rest out ->
    Trimmed (L +:+ T +:+ R +:+ rest) out
| trimmed_keep (c : ascii) (s out : string) :
    ~ trimMatchAt (String c s) ->
    Trimmed s out ->
    Trimmed (String c s) (String c out).

(** Modelled from the spec: the tree of the input [foo\n\n{{trim}}\n\nbar]:
    the text before the macro, the macro [trim] and the text behind it. *)
Definition trimInput : string :=
  "foo" +:+ String LF (String LF ("{{trim}}" +:+ String LF (String LF "bar"))).

Definition trimNode : CstNode :=
  mkCstNode "macro"
    [("Macro.Start", [inl (token 1 "{{" 5 6)]);
     ("Macro.identifier", [inl (token 2 "trim" 7 10)]);
     ("Macro.End", [inl (token 3 "}}" 11 12)])]
    (located 5 12).

Definition trimDocument : CstNode :=
  mkCstNode "document"
    [("plaintext",
      [inl (token 0 ("foo" +:+ String LF (String LF "")) 0 4);
       inl (token 4 (String LF (String LF "bar")) 13 17)]);
     ("macro", [inr trimNode])]
    None.

Definition trimParser (text : string) : ParseResult :=
  mkParseResult (Some trimDocument) [] [].

(** ** Input without macros *)

(** The legacy markers the pre-processors rewrite, and the escaped braces the
    post-processors unescape. *)
Definition legacyMarkers : list string :=
  ["<USER>"; "<BOT>"; "<CHAR>"; "<GROUP>"; "<CHARIFNOTGROUP>"].

Definition escapedBraces : list string := ["\{"; "\}"].

(** No [{{], no legacy marker in any case and no escaped brace occurs. *)
Definition plainInput (input : string) : bool :=
  negb (occursCI "{{" input) &&
  forallb (fun marker => negb (occursCI marker input)) (legacyMarkers ++ escapedBraces).

(** The elements are tokens with numeric offsets, none of them empty, one
    behind the other from [cursor] on. *)
Fixpoint tokensFrom (cursor : Z) (elements : list CstElement) : bool :=
  match elements with
  | [] => true
  | inl token :: rest =>
      match IToken.startOffset token, IToken.endOffset token with
      | Num s, Some (Num e) => (cursor <=? s) && (s <=? e) && tokensFrom (e + 1) rest
      | _, _ => false
      end
  | inr _ :: _ => false
  end.

(** A document of plaintext tokens only. *)
Definition textOnly (document : CstNode) : bool :=
  match childArray "macro" (children document) with
  | [] => tokensFrom 0 (childArray "plaintext" (children document))
  | _ :: _ => false
  end.

(** The parser gives no tree, or a tree of plaintext only. *)
Definition parsesAsText (parsed : ParseResult) : bool :=
  match cst parsed with
  | Some document => textOnly document
  | None => true
  end.

Definition plaintextItems (elements : list CstElement) : list DocumentItem.t :=
  fold_left collectPlaintext elements [].

(** Modelled from the spec: the input [Hello <USER>!] of the engine's test of
    the legacy markers; the pre-processors turn it into [Hello {{user}}!],
    whose tree this is. *)
Definition legacyInput : string := "Hello <USER>!".

Definition legacyUser : CstNode :=
  mkCstNode "macro"
    [("Macro.Start", [inl (token 1 "{{" 6 7)]);
     ("Macro.identifier", [inl (token 2 "user" 8 11)]);
     ("Macro.End", [inl (token 3 "}}" 12 13)])]
    (located 6 13).

Definition legacyDocument : CstNode :=
  mkCstNode "document"
    [("plaintext", [inl (token 0 "Hello " 0 5); inl (token 4 "!" 14 14)]);
     ("macro", [inr legacyUser])]
    None.

Definition legacyParser (text : string) : ParseResult :=
  mkParseResult (Some legacyDocument) [] [].

(** Modelled from the spec: the input [a\{b], one plaintext token. *)
Definition escapedInput : string := "a\{b".

Definition escapedDocument : CstNode :=
  mkCstNode "document" [("plaintext", [inl (token 0 "a\{b" 0 3)])] None.

Definition escapedParser (text : string) : ParseResult :=
  mkParseResult (Some escapedDocument) [] [].

(** The input [plain text], one plaintext token. *)
Definition plainDocument : CstNode :=
  mkCstNode "document" [("plaintext", [inl (token 0 "plain text" 0 9)])] None.

Definition plainParser (text : string) : ParseResult :=
  mkParseResult (Some plainDocument) [] [].

(** ** Invariants of the state *)

(** The computation keeps the invariant [Q] of the state. *)
Definition keeps {W A : Type} (Q : W -> Prop) (c : State W A) : Prop :=
  forall w, Q w -> Q (snd (c w)).

(** ** White space *)

(** A text of white space only. *)
Inductive Blank : string -> Prop :=
| blank_nil : Blank EmptyString
| blank_cons (ws rest : string) : In ws whiteSpaces -> Blank rest -> Blank (ws +:+ rest).

(** No white space ends the text. *)
Definition NoBlankEnd (p : string) : Prop :=
  forall a b, p = a +:+ b -> Blank b -> b = EmptyString.

(** The bytes the white space characters begin with. *)
Definition leadBytes : list ascii :=
  map (fun ws => match ws with String c _ => c | EmptyString => "000"%char end) whiteSpaces.

(** ** The last generation type *)

(** An event that changes the tracked type: a chat change, or a generation
    that is no dry run. *)
Definition tracked (event : StateMacros.EventType * StateMacros.EventArgs) : bool :=
  match fst event with
  | StateMacros.CHAT_CHANGED => true
  | StateMacros.GENERATION_STARTED => negb (StateMacros.isDryRun (snd event))
  | StateMacros.OTHER_EVENT _ => false
  end.

(** What the events leave as the last generation type: the type of the last
    generation that was no dry run, [normal] when it had none, unless the chat
    changed after it; empty without such a generation. *)
Definition lastTypeOf (events : list (StateMacros.EventType * StateMacros.EventArgs)) : string :=
  match filter tracked (rev events) with
  | (StateMacros.GENERATION_STARTED, args) :: _ => StateMacros.typeOrNormal (StateMacros.type args)
  | _ => ""
  end.

(** Emitting a list of events in order. *)
Definition emitAll (events : list (StateMacros.EventType * StateMacros.EventArgs))
    (m : StateMacros.Module_) : StateMacros.Module_ :=
  fold_left (fun m event => StateMacros.emit (fst event) (snd event) m) events m.

(** ** The parts of a macro text *)

(** The texts between the separators [::], read from left to right:
    [current] is the part read so far. *)
Fixpoint splitColons (rest current : string) : list string :=
  match rest with
  | EmptyString => [current]
  | String c rest1 =>
      let noSeparator := splitColons rest1 (current +:+ String c EmptyString) in
      if Ascii.eqb c colon then
        match rest1 with
        | String c' rest2 =>
            if Ascii.eqb c' colon then current :: splitColons rest2 EmptyString
            else noSeparator
        | EmptyString => noSeparator
        end
      else noSeparator
  end.

(** The parts of the texts [items], the first of which begins at [start]:
    each part ends behind its text, and the next begins two characters on. *)
Fixpoint layoutFrom (start : nat) (items : list string) : list MacroAutoCompleteContext.Part :=
  match items with
  | [] => []
  | item :: rest =>
      MacroAutoCompleteContext.mkPart item start (start + String.length item) ::
      layoutFrom (start + String.length item + 2) rest
  end.

(** The text holds the separator [::]. *)
Fixpoint hasSeparator (s : string) : bool :=
  match s with
  | String c rest =>
      match rest with
      | String c' _ => (Ascii.eqb c colon && Ascii.eqb c' colon) || hasSeparator rest
      | EmptyString => false
      end
  | EmptyString => false
  end.

Fixpoint endsWithColon (s : string) : bool :=
  match s with
  | String c EmptyString => Ascii.eqb c colon
  | String _ rest => endsWithColon rest
  | EmptyString => false
  end.

(** Texts that joining with [::] keeps apart: none holds a separator, and
    none but the last ends with a colon. *)
Fixpoint separable (items : list string) : bool :=
  match items with
  | [] => true
  | [item] => negb (hasSeparator item)
  | item :: rest => negb (hasSeparator item) && negb (endsWithColon item) && separable rest
  end.

(** The offset at which the [j]-th of the [items] begins in their join. *)
Fixpoint startOf (items : list string) (j : nat) : nat :=
  match j, items with
  | S j', item :: rest => String.length item + 2 + startOf rest j'
  | _, _ => 0
  end.

(** The index [parseMacroContext] computes from the parts. *)
Definition argIndexIn (parts : list MacroAutoCompleteContext.Part) (cursorOffset : Z) : Z :=
  let found := findPart parts 0 cursorOffset in
  if (found =? -1) &&
     match last parts with
     | Some lastPart => Z.of_nat (MacroAutoCompleteContext.end_ lastPart) <=? cursorOffset
     | None => false
     end
  then Z.of_nat (length parts) - 1
  else found.

(** ** Lists written with separators *)

(** The item with each comma escaped by a backslash. *)
Fixpoint escapeCommas (item : string) : string :=
  match item with
  | EmptyString => EmptyString
  | String c rest =>
      if Ascii.eqb c ","
      then String "\" (String "," (escapeCommas rest))
      else String c (escapeCommas rest)
  end.

(** The item with the placeholder in place of each comma. *)
Fixpoint hideCommas (item : string) : string :=
  match item with
  | EmptyString => EmptyString
  | String c rest =>
      if Ascii.eqb c "," then commaPlaceholder +:+ hideCommas rest
      else String c (hideCommas rest)
  end.

(** The character occurs in the text. *)
Fixpoint hasChar (c : ascii) (s : string) : bool :=
  match s with
  | EmptyString => false
  | String c' rest => Ascii.eqb c' c || hasChar c rest
  end.

(** ** The elements of a node *)

(** All child elements of a node, over all keys. *)
Definition elementsOf (n : CstNode) : list CstElement := concat (map snd (children n)).

(** The offsets [#getArgumentLocation] reads from an element: those of a
    token, or those of the location of a node; [NaN] where there is none. *)
Definition elementStart (element : CstElement) : jsnum :=
  match element with
  | inl token => IToken.startOffset token
  | inr node =>
      match location node with
      | Some loc => TokenRange.startOffset loc
      | None => NaN
      end
  end.

Definition elementEnd (element : CstElement) : jsnum :=
  match element with
  | inl token => numberOr (IToken.endOffset token)
  | inr node =>
      match location node with
      | Some loc => TokenRange.endOffset loc
      | None => NaN
      end
  end.

(** ** Characters of a text, ignoring case *)

(** The character occurs in the text, ignoring case. *)
Fixpoint hasCharCI (c : ascii) (s : string) : bool :=
  match s with
  | EmptyString => false
  | String c' rest => sameCharCI c c' || hasCharCI c rest
  end.

(** What the matcher puts in place of a match begins with an opening brace
    and holds nowhere the character [c]. *)
Definition bracedWithout (c : ascii) (matchAt : string -> option (nat * string)) : Prop :=
  forall t n replacement, matchAt t = Some (n, replacement) ->
    (exists rest, replacement = String "{" rest) /\ hasCharCI c replacement = false.

(** ** The layout of a document *)

(** The items have offsets that are numbers and lie one behind the other
    from [cursor] on, none reaching back before its start. *)
Fixpoint itemsLaidOut (cursor : Z) (items : list DocumentItem.t) : bool :=
  match items with
  | [] => true
  | item :: rest =>
      match DocumentItem.startOffset item, DocumentItem.endOffset item with
      | Num s, Num e => (cursor <=? s) && (s <=? e + 1) && itemsLaidOut (e + 1) rest
      | _, _ => false
      end
  end.

(** The spans of the macro items, in the order of the items. *)
Fixpoint macroSpansOf (items : list DocumentItem.t) : list (Z * Z) :=
  match items with
  | [] => []
  | item :: rest =>
      match DocumentItem.type item with
      | macro _ =>
          (toInteger (DocumentItem.startOffset item), toInteger (DocumentItem.endOffset item))
          :: macroSpansOf rest
      | plaintext _ => macroSpansOf rest
      end
  end.

(** The offset behind the last of the items; [cursor] when there is none. *)
Fixpoint behindItems (cursor : Z) (items : list DocumentItem.t) : Z :=
  match items with
  | [] => cursor
  | item :: rest => behindItems (toInteger (DocumentItem.endOffset item) + 1) rest
  end.

(** ** Escaped braces *)

Definition isBrace (c : ascii) : bool := Ascii.eqb c "{" || Ascii.eqb c "}".

(** The text in which a backslash is put before each brace. *)
Fixpoint escapeBraces (s : string) : string :=
  match s with
  | EmptyString => EmptyString
  | String c s' =>
      if isBrace c then String "\" (String c (escapeBraces s'))
      else String c (escapeBraces s')
  end.

(** ** Macros that are not resolved *)

(** The text of a macro node: the text its range covers. *)
Definition sourceOf (text : string) (macroNode : CstNode) : string :=
  slice text (TokenRange.startOffset (getMacroRange macroNode))
    (js_add (TokenRange.endOffset (getMacroRange macroNode)) 1).

(** A well-formed macro node that lies in [text] as it says: its range
    begins with the opening braces, which end where the inner text begins,
    and ends with the closing braces, which begin where the inner text ends;
    its name is one of [unknown], and the same holds of the macros nested in
    its arguments. *)
Inductive Delimited (text : string) (unknown : string -> Prop) : CstNode -> Prop :=
| Delimited_macro (macroNode : CstNode) (first last lo hi : Z) (layouts : list ArgumentLayout) :
    wellFormedMacro macroNode lo hi layouts ->
    getMacroRange macroNode = rangeOf (first, last) ->
    0 <= first -> first <= lo -> hi <= last ->
    slice text (Num first) (Num lo) = "{{" ->
    slice text (Num (hi + 1)) (Num (last + 1)) = "}}" ->
    unknown (macroName macroNode) ->
    Forall (fun argNode => Forall (Delimited text unknown) (nestedMacrosOf argNode))
      (argumentNodesOf macroNode) ->
    Delimited text unknown macroNode.

(** The names the engine does not resolve: the empty name, and a name that
    is neither a dynamic macro of the environment nor registered. *)
Definition unresolved {St : Type} (hasMacro : string -> bool) (env : MacroEnv St)
    (name : string) : Prop :=
  name = "" \/ (dynamicMacros (properties env) !! name = None /\ hasMacro name = false).

(** ** Post-processing of a macro result *)

(** A registry whose every execution returns the same result. *)
Definition returningRegistry (result : string)
    (call : MacroCall.t (MacroEnv unit)) (defOverride : option (MacroDefinition.t unit))
    : State (World unit) (Completion string) :=
  ret (Returns result).

(** An environment whose [postProcess] throws [error]. *)
Definition throwingPostEnv (error : Thrown) : MacroEnv unit :=
  mkObject false
    (mkEnv "" 0 (mkNames "User" "Character" "Character" "Character" "User") ∅
       (mkFunctions (Some (fun _ => ret (Throws error))))).

(** The call [{{user}}] in that environment. *)
Definition throwingPostCall (error : Thrown) : MacroCall.t (MacroEnv unit) :=
  MacroCall.mk "user" [] (freeze (spread (throwingPostEnv error))) "user" "{{user}}"
    (TokenRange.mk (Num 0) (Num 7)) (mkCstNode "macro" [] None).

(** The console call of the internal error for a [postProcess] that threw
    [error]. *)
Definition postProcessErrorFor {St : Type} (call : MacroCall.t (MacroEnv St)) (error : Thrown)
    : ConsoleCall :=
  console_error "[Macro] Error:"
    ("Macro " +:+ quote +:+ MacroCall.name call +:+ quote +:+ " postProcess function failed.")
    (MacroPayload (inferMacroName (Some (MacroCall.name call)) None None)
       (MacroCall.rawInner call) (Some error)).

(** ** The trim token, written out *)

(** The character is the letter, small or capital. *)
Definition eitherCase (small capital c : ascii) : Prop := c = small \/ c = capital.

(** The token [{{trim}}] with each of its letters small or capital. *)
Inductive TrimToken : string -> Prop :=
| trim_token (t r i m : ascii) :
    eitherCase "t" "T" t -> eitherCase "r" "R" r ->
    eitherCase "i" "I" i -> eitherCase "m" "M" m ->
    TrimToken (String "{" (String "{" (String t (String r (String i (String m "}}")))))).

(** A run of line breaks, each a line feed or a carriage return with a line
    feed. *)
Inductive LineBreaks : string -> Prop :=
| breaks_nil : LineBreaks EmptyString
| breaks_lf (s : string) : LineBreaks s -> LineBreaks (String "010" s)
| breaks_crlf (s : string) : LineBreaks s -> LineBreaks (String "013" (String "010" s)).

Definition beginsWithLineBreak (s : string) : Prop :=
  exists rest, s = String "010" rest \/ s = String "013" (String "010" rest).

(** A trim token, with or without line breaks before it, stands at the head
    of [s]. *)
Definition trimBeginsAt (s : string) : Prop :=
  exists L T rest, LineBreaks L /\ TrimToken T /\ s = L +:+ T +:+ rest.

(** [TrimRemoved s out]: [out] is [s] without its trim tokens and the line
    breaks around them. From left to right, where a trim token stands behind
    a run of line breaks, the run, the token and the whole run of line breaks
    behind the token are left out; any other character is kept. *)
Inductive TrimRemoved : string -> string -> Prop :=
| removed_end : TrimRemoved EmptyString EmptyString
| removed_token (L T R rest out : string) :
    LineBreaks L -> TrimToken T -> LineBreaks R -> ~ beginsWithLineBreak rest ->
    TrimRemoved rest out ->
    TrimRemoved (L +:+ T +:+ R +:+ rest) out
| removed_keep (c : ascii) (s out : string) :
    ~ trimBeginsAt (String c s) ->
    TrimRemoved s out ->
    TrimRemoved (String c s) (String c out).

(** No trim token occurs in [s]. *)
Definition noTrimToken (s : string) : Prop :=
  forall p T t, TrimToken T -> s <> p +:+ T +:+ t.

(** The input [a\r\n{{TrIm}}\n\r\nb{{trim}}]: two tokens, in different case,
    with line breaks of both kinds. *)
Definition mixedTrimText : string :=
  "a" +:+ String CR (String LF ("{{TrIm}}" +:+ String LF (String CR (String LF "b{{trim}}")))).

(** ** The order of the resolver calls, written out *)

(** Both offsets of the item are numbers. *)
Definition numericItem (item : DocumentItem.t) : Prop :=
  exists s e, DocumentItem.startOffset item = Num s /\ DocumentItem.endOffset item = Num e.

(** [a] stands before [b] in the source: it starts before [b], or where [b]
    starts and ends no later. *)
Definition inSourceOrder (a b : DocumentItem.t) : Prop :=
  exists sa ea sb eb,
    DocumentItem.startOffset a = Num sa /\ DocumentItem.endOffset a = Num ea /\
    DocumentItem.startOffset b = Num sb /\ DocumentItem.endOffset b = Num eb /\
    (sa < sb \/ (sa = sb /\ ea <= eb)).

(** The macro nodes at and below [macroNode], each behind the macros nested
    in its arguments: the arguments from first to last, and in each argument
    its nested macros from first to last. [fuel] bounds the depth. *)
Fixpoint insideOutFuel (fuel : nat) (macroNode : CstNode) : list CstNode :=
  match fuel with
  | O => []
  | S fuel' =>
      flat_map (fun argNode => flat_map (insideOutFuel fuel') (nestedMacrosOf argNode))
        (argumentNodesOf macroNode) ++ [macroNode]
  end.

Definition insideOutOrder (macroNode : CstNode) : list CstNode :=
  insideOutFuel (height macroNode) macroNode.

(** A macro node that is well formed, as are the macros nested in its
    arguments, at every depth: the nested macros of each argument lie in the
    argument in the order of the text, without overlap. *)
Inductive Ordered : CstNode -> Prop :=
| ordered_macro (macroNode : CstNode) (lo hi : Z) (layouts : list ArgumentLayout) :
    wellFormedMacro macroNode lo hi layouts ->
    Forall (fun argNode => Forall Ordered (nestedMacrosOf argNode))
      (argumentNodesOf macroNode) ->
    Ordered macroNode.

(** Modelled from the spec: the tree of the input
    [{{char}} {{unknown::{{user}}}}]: two macros at the top level, the second
    with the macro [user] in its argument. *)
Definition orderInput : string := "{{char}} {{unknown::{{user}}}}".

Definition orderChar : CstNode :=
  mkCstNode "macro"
    [("Macro.Start", [inl (token 0 "{{" 0 1)]);
     ("Macro.identifier", [inl (token 1 "char" 2 5)]);
     ("Macro.End", [inl (token 2 "}}" 6 7)])]
    (located 0 7).

Definition orderUser : CstNode :=
  mkCstNode "macro"
    [("Macro.Start", [inl (token 7 "{{" 20 21)]);
     ("Macro.identifier", [inl (token 8 "user" 22 25)]);
     ("Macro.End", [inl (token 9 "}}" 26 27)])]
    (located 20 27).

Definition orderArgument : CstNode :=
  mkCstNode "argument" [("macro", [inr orderUser])] (located 20 27).

Definition orderArguments : CstNode :=
  mkCstNode "arguments"
    [("Args.DoubleColon", [inl (token 6 "::" 18 19)]);
     ("argument", [inr orderArgument])]
    (located 18 27).

Definition orderUnknown : CstNode :=
  mkCstNode "macro"
    [("Macro.Start", [inl (token 4 "{{" 9 10)]);
     ("Macro.identifier", [inl (token 5 "unknown" 11 17)]);
     ("arguments", [inr orderArguments]);
     ("Macro.End", [inl (token 10 "}}" 28 29)])]
    (located 9 29).

Definition orderDocument : CstNode :=
  mkCstNode "document"
    [("plaintext", [inl (token 3 " " 8 8)]);
     ("macro", [inr orderChar; inr orderUnknown])]
    None.

Definition orderContext : EvaluationContext.t (MacroEnv unit) (World unit) :=
  EvaluationContext.mk orderInput (freeze (spread (testEnv orderInput)))
    (resolveMacro (hasMacro testRegistry) (executeMacro testRegistry)).

(** ** What the evaluation of an argument appends *)







Section Emitting.
Context {W : Type}.


End Emitting.





(** ** Code that acts on the store *)

(** What code does to the store, one step at a time: it makes an object, it
    changes the properties of an object that is not frozen, or it freezes an
    object. No step changes a frozen object. *)
Inductive storeStep : Shared.Store -> Shared.Store -> Prop :=
| step_allocate (h : Shared.Store) (o : Shared.JsObject) : storeStep h (h ++ [o])
| step_change (h : Shared.Store) (r : Shared.Ref) (o : Shared.JsObject)
    (properties : gmap string Shared.Value) :
    h !! r = Some o -> Shared.isFrozen o = false ->
    storeStep h (<[r := Shared.mkJsObject false properties]> h)
| step_freeze (h : Shared.Store) (r : Shared.Ref) (o : Shared.JsObject) :
    h !! r = Some o ->
    storeStep h (<[r := Shared.mkJsObject true (Shared.own o)]> h).

Inductive storeSteps : Shared.Store -> Shared.Store -> Prop :=
| steps_none (h : Shared.Store) : storeSteps h h
| steps_more (h1 h2 h3 : Shared.Store) : storeStep h1 h2 -> storeSteps h2 h3 -> storeSteps h1 h3.

(** The computation changes the store by such steps only. *)
Definition actsOnStore {A : Type} (c : State (World Shared.Store) A) : Prop :=
  forall w, storeSteps (store w) (store (snd (c w))).

Section SharedSpec.
Variable parseDocument : string -> ParseResult.
Variable resolveMacro : MacroCall.t Shared.Ref -> State (World Shared.Store) string.

(** What [evaluate] does behind the copy, on the copy [safeEnv]. *)
Definition evaluateOn (input : string) (safeEnv : Shared.Ref)
    : State (World Shared.Store) string :=
  let preProcessed := runPreProcessors input safeEnv in
  let parsed := parseDocument preProcessed in
  _ <- logMacroSyntaxWarning "lexing" input (lexingErrors parsed) ;;
  _ <- logMacroSyntaxWarning "parsing" input (parserErrors parsed) ;;
  match cst parsed with
  | None =>
      _ <- logMacroGeneralError
             "Macro parser produced an invalid CST. Returning original input." input ;;
      ret input
  | Some cst =>
      evaluated <-
        evaluateDocument (EvaluationContext.mk preProcessed safeEnv resolveMacro) cst ;;
      ret (runPostProcessors evaluated safeEnv)
  end.

End SharedSpec.

(** A resolver as a handler in a module may make it behave: it sets the
    property [user] of the object [env.names], then sets the property
    [content] of [env]; when that throws, the macro stays raw. *)
Definition meddlingResolver (call : MacroCall.t Shared.Ref)
    : State (World Shared.Store) string :=
  fun w =>
    let w1 :=
      match Shared.readProperty (MacroCall.env call) "names" w with
      | Shared.VObject names =>
          snd (Shared.assignProperty true names "user" (Shared.VString "Changed") w)
      | _ => w
      end in
    match Shared.assignProperty true (MacroCall.env call) "content"
            (Shared.VString "changed") w1 with
    | (Returns _, w2) => ("assigned", w2)
    | (Throws _, w2) => ("{{" +:+ MacroCall.rawInner call +:+ "}}", w2)
    end.

(** The caller's environment, at reference 0, with its object [names] at
    reference 1. *)
Definition callerEnv : Shared.JsObject :=
  Shared.mkJsObject false
    (<["content" := Shared.VString "Test"]> (<["names" := Shared.VObject 1%nat]> ∅)).

Definition callerNames : Shared.JsObject :=
  Shared.mkJsObject false (<["user" := Shared.VString "User"]> ∅).

Definition callerWorld : World Shared.Store := mkWorld [callerEnv; callerNames] [].

(** ** The legacy markers, written out *)

(** The letters of the alphabet, each small letter with its capital. *)
Definition letters : list (ascii * ascii) :=
  combine (list_ascii_of_string "abcdefghijklmnopqrstuvwxyz")
          (list_ascii_of_string "ABCDEFGHIJKLMNOPQRSTUVWXYZ").

(** [d] is the character [c], or the same letter in the other case. *)
Definition SameLetter (c d : ascii) : Prop :=
  c = d \/ In (c, d) letters \/ In (d, c) letters.

(** [text] is [pattern] but for the case of its letters. *)
Inductive Written : string -> string -> Prop :=
| written_end : Written EmptyString EmptyString
| written_char (c d : ascii) (pattern text : string) :
    SameLetter c d -> Written pattern text ->
    Written (String c pattern) (String d text).

(** The legacy markers, each with the macro that stands for it. *)
Definition legacyMacros : list (string * string) :=
  [("<USER>", "{{user}}"); ("<BOT>", "{{char}}"); ("<CHAR>", "{{char}}");
   ("<GROUP>", "{{group}}"); ("<CHARIFNOTGROUP>", "{{charIfNotGroup}}")].

(** ** Strings and slices *)

Lemma str_app_nil_r (s : string) : s +:+ "" = s.
Proof. induction s as [|c s IH]; [reflexivity|]. change (String c (s +:+ "") = String c s). by rewrite IH. Qed.

Lemma str_app_assoc (a b c : string) : (a +:+ b) +:+ c = a +:+ (b +:+ c).
Proof.
  induction a as [|x a IH]; [reflexivity|].
  change (String x ((a +:+ b) +:+ c) = String x (a +:+ (b +:+ c))). by rewrite IH.
Qed.

Lemma str_app_cons (c : ascii) (a b : string) : String c a +:+ b = String c (a +:+ b).
Proof. reflexivity. Qed.

Lemma str_length_app (a b : string) :
  String.length (a +:+ b) = (String.length a + String.length b)%nat.
Proof.
  induction a as [|x a IH]; [reflexivity|].
  change (S (String.length (a +:+ b)) = S (String.length a + String.length b)). by rewrite IH.
Qed.

Lemma substring_zero_length (n : nat) (s : string) : substring n 0 s = "".
Proof. revert n. induction s as [|c s IH]; intros [|n]; simpl; auto. Qed.

Lemma substring_split (s : string) (n m1 m2 : nat) :
  substring n m1 s +:+ substring (n + m1) m2 s = substring n (m1 + m2) s.
Proof.
  revert n m1 m2. induction s as [|c s IH]; intros n m1 m2.
  - destruct n, m1, m2; reflexivity.
  - destruct n as [|n].
    + destruct m1 as [|m1].
      * reflexivity.
      * change (String c (substring 0 m1 s +:+ substring (0 + m1) m2 s) =
                String c (substring 0 (m1 + m2) s)).
        by rewrite IH.
    + change (substring n m1 s +:+ substring (n + m1) m2 s = substring n (m1 + m2) s).
      apply IH.
Qed.

Lemma substring_all (s : string) : substring 0 (String.length s) s = s.
Proof. induction s as [|c s IH]; [reflexivity|]. simpl. by rewrite IH. Qed.

Lemma substring_beyond (s : string) (n m : nat) :
  (String.length s <= n)%nat -> substring n m s = "".
Proof.
  revert n m. induction s as [|c s IH]; intros n m Hn.
  - destruct n, m; reflexivity.
  - destruct n as [|n]; simpl in *; [lia|]. apply IH. lia.
Qed.

(** A slice between two offsets that are numbers, in order and not negative. *)
Lemma slice_nonneg (s : string) (a b : Z) :
  0 <= a -> a <= b ->
  slice s (Num a) (Num b) =
  substring (Z.to_nat (Z.min a (strlen s)))
            (Z.to_nat (Z.min b (strlen s)) - Z.to_nat (Z.min a (strlen s))) s.
Proof.
  intros Ha Hab. unfold slice, clampIndex, toInteger.
  destruct (Z.ltb_spec a 0); [lia|]. destruct (Z.ltb_spec b 0); [lia|].
  f_equal. unfold strlen. lia.
Qed.

Lemma slice_join (s : string) (a b c : Z) :
  0 <= a -> a <= b -> b <= c ->
  slice s (Num a) (Num b) +:+ slice s (Num b) (Num c) = slice s (Num a) (Num c).
Proof.
  intros Ha Hab Hbc. rewrite !slice_nonneg by lia.
  set (len := strlen s). assert (0 <= len) by (unfold len, strlen; lia).
  replace (Z.to_nat (Z.min b len)) with
    (Z.to_nat (Z.min a len) + (Z.to_nat (Z.min b len) - Z.to_nat (Z.min a len)))%nat at 2 by lia.
  rewrite substring_split. f_equal. lia.
Qed.

Lemma slice_same (s : string) (a : Z) : slice s (Num a) (Num a) = "".
Proof.
  unfold slice. rewrite Z.sub_diag. apply substring_zero_length.
Qed.

Lemma slice_whole (s : string) : slice s (Num 0) (Num (strlen s)) = s.
Proof.
  rewrite slice_nonneg by (unfold strlen; lia).
  unfold strlen. rewrite Z.min_id, Z.min_l by lia.
  rewrite Nat2Z.id. simpl. rewrite Nat.sub_0_r. apply substring_all.
Qed.

Lemma slice_past_end (s : string) (a b : Z) :
  strlen s <= a -> a <= b -> slice s (Num a) (Num b) = "".
Proof.
  intros Ha Hab. assert (0 <= strlen s) by (unfold strlen; lia).
  rewrite slice_nonneg by lia.
  rewrite !Z.min_r by lia. rewrite Nat.sub_diag. apply substring_zero_length.
Qed.

(** ** Sorting *)

Section SortFacts.
Context {A : Type} (compare : A -> A -> jsnum).

Lemma sortInsert_head (x : A) (l : list A) :
  HdRel (mayPrecede compare) x l -> sortInsert compare x l = x :: l.
Proof.
  intros H. destruct H as [|y l H]; [reflexivity|]. simpl. by rewrite H.
Qed.

(** A list in which every element may precede its successor is left as it is. *)
Lemma js_sort_sorted (l : list A) : Sorted (mayPrecede compare) l -> js_sort compare l = l.
Proof.
  induction 1 as [|x l Hs IH Hd]; [reflexivity|].
  simpl. rewrite IH. by apply sortInsert_head.
Qed.

Lemma sortInsert_perm (x : A) (l : list A) : Permutation (sortInsert compare x l) (x :: l).
Proof.
  induction l as [|y l IH]; simpl; [done|].
  destruct (comesAfter compare x y); [|done].
  rewrite IH. apply perm_swap.
Qed.

Lemma js_sort_perm (l : list A) : Permutation (js_sort compare l) l.
Proof.
  induction l as [|x l IH]; simpl; [done|].
  rewrite sortInsert_perm. by constructor.
Qed.

Lemma js_sort_In (x : A) (l : list A) : In x (js_sort compare l) <-> In x l.
Proof.
  split; apply Permutation_in; [apply js_sort_perm | symmetry; apply js_sort_perm].
Qed.

(** When of two elements one may always precede the other, the result is
    sorted. *)
Hypothesis asymmetric : forall x y, comesAfter compare x y = true -> (mayPrecede compare) y x.

Lemma sortInsert_Sorted (x : A) (l : list A) :
  Sorted (mayPrecede compare) l -> Sorted (mayPrecede compare) (sortInsert compare x l).
Proof.
  induction 1 as [|y l Hs IH Hd]; simpl.
  - repeat constructor.
  - destruct (comesAfter compare x y) eqn:Hxy.
    + constructor; [exact IH|].
      destruct Hd as [|z l Hyz]; simpl.
      * constructor. by apply asymmetric.
      * destruct (comesAfter compare x z); constructor; auto.
    + constructor; [by constructor|]. by constructor.
Qed.

Lemma js_sort_Sorted (l : list A) : Sorted (mayPrecede compare) (js_sort compare l).
Proof.
  induction l as [|x l IH]; simpl; [constructor|]. by apply sortInsert_Sorted.
Qed.

End SortFacts.

(** ** The syntax tree *)

Lemma height_element_le (m : CstNode) (els : list CstElement) (acc : nat) :
  In (inr m) els ->
  (height m <=
   fold_right (fun e acc' => match e with inl _ => acc' | inr m' => Nat.max (height m') acc' end)
     acc els)%nat.
Proof.
  induction els as [|e els IH]; intros Hin; [destruct Hin|].
  destruct Hin as [->|Hin]; simpl; [lia|].
  specialize (IH Hin). destruct e; lia.
Qed.

Lemma height_acc_le (els : list CstElement) (acc : nat) :
  (acc <=
   fold_right (fun e acc' => match e with inl _ => acc' | inr m' => Nat.max (height m') acc' end)
     acc els)%nat.
Proof. induction els as [|e els IH]; simpl; [lia|]. destruct e; lia. Qed.

Lemma height_child (n m : CstNode) (k : string) (els : list CstElement) :
  In (k, els) (children n) -> In (inr m) els -> (height m < height n)%nat.
Proof.
  destruct n as [nm cs loc]. simpl. intros Hk Hm.
  apply Nat.lt_succ_r.
  induction cs as [|[k' els'] cs IH]; [destruct Hk|].
  destruct Hk as [Heq|Hk]; simpl.
  - inversion Heq; subst. by apply height_element_le.
  - etransitivity; [apply (IH Hk)|]. apply height_acc_le.
Qed.

Lemma height_pos (n : CstNode) : (0 < height n)%nat.
Proof. destruct n. simpl. lia. Qed.

Lemma childArray_In (key : string) (cs : list (string * list CstElement)) (e : CstElement) :
  In e (childArray key cs) -> exists els, In (key, els) cs /\ In e els.
Proof.
  induction cs as [|[k els] cs IH]; simpl; [done|].
  destruct (String.eqb_spec k key) as [->|Hne]; intros Hin.
  - exists els. auto.
  - destruct (IH Hin) as (els' & H1 & H2). exists els'. auto.
Qed.

Lemma nodesOf_In (m : CstNode) (els : list CstElement) : In m (nodesOf els) <-> In (inr m) els.
Proof.
  induction els as [|[t|n] els IH]; simpl; [done| |].
  - rewrite IH. split; [auto|]. intros [H|H]; [done|auto].
  - rewrite IH. split; intros [H|H]; auto; [left; by f_equal | left; by inversion H].
Qed.

Lemma firstNode_In (n : CstNode) (els : list CstElement) : firstNode els = Some n -> In (inr n) els.
Proof. destruct els as [|[t|m] els]; simpl; [done..|]. intros [= ->]. by left. Qed.

Lemma firstToken_In (t : IToken.t) (els : list CstElement) : firstToken els = Some t -> In (inl t) els.
Proof. destruct els as [|[t'|m] els]; simpl; [done| |done]. intros [= ->]. by left. Qed.

(** The nested macros of an argument node: the macros [#evaluateArgumentNode]
    recurses into. *)
Lemma height_keyed_child (key : string) (n m : CstNode) :
  In m (nodesOf (childArray key (children n))) -> (height m < height n)%nat.
Proof.
  intros H. apply nodesOf_In in H. apply childArray_In in H as (els & H1 & H2).
  eapply height_child; eauto.
Qed.

Lemma height_argument (n a : CstNode) :
  In a (argumentNodesOf n) -> (height a < height n)%nat.
Proof.
  unfold argumentNodesOf. destruct (firstNode _) as [argumentsNode|] eqn:Hf; [|done].
  intros Ha. apply height_keyed_child in Ha.
  apply firstNode_In, childArray_In in Hf as (els & H1 & H2).
  pose proof (height_child _ _ _ _ H1 H2). lia.
Qed.

(** ** The recursion of the walker *)

Section WalkerFacts.
Context {Env W : Type}.
Implicit Types (f g : CstNode -> State W string) (context : EvaluationContext.t Env W).

Lemma evaluateNested_ext f g (text : string) (entries : list (CstNode * TokenRange.t))
    (result : string) (cursor : jsnum) (w : W) :
  (forall e, In e entries -> forall w', f (fst e) w' = g (fst e) w') ->
  evaluateNested f text entries result cursor w = evaluateNested g text entries result cursor w.
Proof.
  revert result cursor w. induction entries as [|e entries IH]; intros result cursor w H; [done|].
  simpl. destruct (js_lt _ _).
  - apply IH. intros; apply H. by right.
  - unfold bind. rewrite (H e) by (by left). destruct (g (fst e) w).
    apply IH. intros; apply H. by right.
Qed.

Lemma evaluateArgumentNode_ext f g (argNode : CstNode) context (w : W) :
  (forall m, In m (nodesOf (childArray "macro" (children argNode))) ->
             forall w', f m w' = g m w') ->
  evaluateArgumentNode f argNode context w = evaluateArgumentNode g argNode context w.
Proof.
  intros H. unfold evaluateArgumentNode.
  destruct (getArgumentLocation argNode); [|done].
  destruct (nodesOf _) as [|m ms] eqn:Hn; [done|].
  unfold bind. rewrite (evaluateNested_ext f g); [done|].
  intros e He w'. apply js_sort_In, in_map_iff in He as (m' & <- & Hm'). by apply H.
Qed.

Lemma evaluateArguments_ext (F G : CstNode -> State W string) (argumentNodes : list CstNode) (w : W) :
  (forall a, In a argumentNodes -> forall w', F a w' = G a w') ->
  evaluateArguments F argumentNodes w = evaluateArguments G argumentNodes w.
Proof.
  revert w. induction argumentNodes as [|a rest IH]; intros w H; [done|].
  simpl. unfold bind. rewrite (H a) by (by left). destruct (G a w).
  rewrite IH; [done|]. intros; apply H. by right.
Qed.

Lemma height_nestedIn (m n : CstNode) : nestedIn m n -> (height m < height n)%nat.
Proof.
  intros (a & Ha & Hm). apply height_argument in Ha. apply height_keyed_child in Hm. lia.
Qed.

Lemma evaluateMacroNodeWith_ext f g (macroNode : CstNode) context (w : W) :
  (forall m, nestedIn m macroNode -> forall w', f m w' = g m w') ->
  evaluateMacroNodeWith f macroNode context w = evaluateMacroNodeWith g macroNode context w.
Proof.
  intros H. unfold evaluateMacroNodeWith, bind.
  rewrite (evaluateArguments_ext _
             (fun argNode => evaluateArgumentNode g argNode context)); [done|].
  intros a Ha w'. apply evaluateArgumentNode_ext. intros m Hm. apply H. by exists a.
Qed.

Lemma evaluateMacroNodeFuel_agree (fuel1 fuel2 : nat) (macroNode : CstNode) context (w : W) :
  (height macroNode <= fuel1)%nat -> (height macroNode <= fuel2)%nat ->
  evaluateMacroNodeFuel fuel1 macroNode context w = evaluateMacroNodeFuel fuel2 macroNode context w.
Proof.
  revert fuel2 macroNode w. induction fuel1 as [|fuel1 IH]; intros fuel2 n w H1 H2.
  - pose proof (height_pos n). lia.
  - destruct fuel2 as [|fuel2]; [pose proof (height_pos n); lia|].
    simpl. apply evaluateMacroNodeWith_ext. intros m Hm w'.
    apply height_nestedIn in Hm. apply IH; lia.
Qed.

(** The height of a node is fuel enough: [evaluateMacroNode] satisfies the
    recursive equation of [#evaluateMacroNode]. *)
Lemma evaluateMacroNode_unfold (macroNode : CstNode) context (w : W) :
  evaluateMacroNode macroNode context w =
  evaluateMacroNodeWith (fun node => evaluateMacroNode node context) macroNode context w.
Proof.
  unfold evaluateMacroNode at 1.
  destruct (height macroNode) as [|h] eqn:Hh; [pose proof (height_pos macroNode); lia|].
  simpl. apply evaluateMacroNodeWith_ext. intros m Hm w'.
  apply height_nestedIn in Hm. unfold evaluateMacroNode. apply evaluateMacroNodeFuel_agree; lia.
Qed.

Lemma evaluateMacroNodeFuel_enough (fuel : nat) (macroNode : CstNode) context (w : W) :
  (height macroNode <= fuel)%nat ->
  evaluateMacroNodeFuel fuel macroNode context w = evaluateMacroNode macroNode context w.
Proof. intros. unfold evaluateMacroNode. by apply evaluateMacroNodeFuel_agree. Qed.

End WalkerFacts.

(** ** The order of evaluation *)

Lemma compareItems_asymmetric (x y : DocumentItem.t) :
  comesAfter compareItems x y = true -> mayPrecede compareItems y x.
Proof.
  unfold mayPrecede, comesAfter, compareItems.
  destruct x as [tx sx ex], y as [ty sy ey]; simpl.
  destruct sx, sy, ex, ey; simpl; try done;
    repeat (match goal with |- context [Z.eqb ?a ?b] => destruct (Z.eqb_spec a b) end);
    simpl; try done; try lia;
    intros H; apply Z.ltb_lt in H; apply Z.ltb_ge; lia.
Qed.

Lemma mayPrecede_sourceOrder (x y : DocumentItem.t) :
  mayPrecede compareItems x y -> sourceOrder x y.
Proof.
  unfold mayPrecede, comesAfter, compareItems, sourceOrder.
  intros H sa ea sb eb H1 H2 H3 H4. rewrite H1, H2, H3, H4 in H. simpl in H.
  destruct (Z.eqb_spec sa sb); simpl in H; apply Z.ltb_ge in H; lia.
Qed.

Lemma Sorted_weaken {A : Type} (R S : A -> A -> Prop) (l : list A) :
  (forall x y, R x y -> S x y) -> Sorted R l -> Sorted S l.
Proof.
  intros HRS. induction 1 as [|x l Hs IH Hd]; constructor; [done|].
  destruct Hd; constructor; auto.
Qed.

(** The document items are in source order. *)
Lemma collectDocumentItems_sorted (cst : CstNode) :
  Sorted sourceOrder (collectDocumentItems cst).
Proof.
  apply (Sorted_weaken (mayPrecede compareItems)); [apply mayPrecede_sourceOrder|].
  apply js_sort_Sorted, compareItems_asymmetric.
Qed.

Section OrderFacts.
Context {Env W : Type}.
Variable context : EvaluationContext.t Env W.

Let rcontext := recordingContext context.

Lemma insideOut_atOrBelow (m : CstNode) (calls : list (MacroCall.t Env)) :
  insideOut m calls -> Forall (atOrBelow m) calls.
Proof.
  intros (inner & c & -> & Hc & Hin). apply Forall_app. split.
  - eapply Forall_impl; [exact Hin|]. intros; unfold atOrBelow; by right.
  - constructor; [|constructor]. by left.
Qed.

Lemma evaluateNested_tracks (f' : CstNode -> State (W * list (MacroCall.t Env)) string)
    (f : CstNode -> State W string) (text : string)
    (entries : list (CstNode * TokenRange.t)) (result : string) (cursor : jsnum) :
  (forall e, In e entries -> tracks (insideOut (fst e)) (f' (fst e)) (f (fst e))) ->
  forall w tr, exists calls,
    evaluateNested f' text entries result cursor (w, tr) =
    (fst (evaluateNested f text entries result cursor w),
     (snd (evaluateNested f text entries result cursor w), tr ++ calls)) /\
    Forall (fun c => exists e, In e entries /\ atOrBelow (fst e) c) calls.
Proof.
  revert result cursor. induction entries as [|e entries IH]; intros result cursor H w tr.
  - exists []. simpl. by rewrite app_nil_r.
  - simpl. destruct (js_lt _ _).
    + destruct (IH result cursor (fun e' He' => H e' (or_intror He')) w tr) as (calls & E & F).
      exists calls. split; [done|].
      eapply Forall_impl; [exact F|]. intros c (e' & ? & ?). exists e'. split; [by right|done].
    + unfold bind. destruct (H e (or_introl eq_refl) w tr) as (calls1 & E1 & S1).
      rewrite E1. destruct (f (fst e) w) as [v w1]. simpl.
      destruct (IH ((result +:+ slice text cursor (TokenRange.startOffset (snd e))) +:+ v)
                  (js_add (TokenRange.endOffset (snd e)) 1)
                  (fun e' He' => H e' (or_intror He')) w1 (tr ++ calls1)) as (calls2 & E2 & F2).
      exists (calls1 ++ calls2). rewrite E2, app_assoc. split; [done|].
      apply Forall_app. split.
      * apply insideOut_atOrBelow in S1. eapply Forall_impl; [exact S1|].
        intros c Hc. exists e. split; [by left|done].
      * eapply Forall_impl; [exact F2|]. intros c (e' & ? & ?). exists e'. split; [by right|done].
Qed.

Lemma evaluateArgumentNode_tracks (f' : CstNode -> State (W * list (MacroCall.t Env)) string)
    (f : CstNode -> State W string) (argNode : CstNode) :
  (forall m, In m (nodesOf (childArray "macro" (children argNode))) ->
             tracks (insideOut m) (f' m) (f m)) ->
  tracks
    (Forall (fun c => exists m,
       In m (nodesOf (childArray "macro" (children argNode))) /\ atOrBelow m c))
    (evaluateArgumentNode f' argNode rcontext) (evaluateArgumentNode f argNode context).
Proof.
  intros H w tr. unfold evaluateArgumentNode.
  destruct (getArgumentLocation argNode) as [loc|]; [|exists []; simpl; by rewrite app_nil_r].
  destruct (nodesOf _) as [|m0 ms] eqn:Hn; [exists []; simpl; by rewrite app_nil_r|].
  rewrite <- Hn in *. clear Hn m0 ms. unfold bind. simpl EvaluationContext.text.
  set (entries := js_sort compareByStart _).
  destruct (evaluateNested_tracks f' f (EvaluationContext.text context) entries ""
              (TokenRange.startOffset loc)) with (w := w) (tr := tr) as (calls & E & F).
  { intros e He. apply js_sort_In, in_map_iff in He as (m & <- & Hm). by apply H. }
  rewrite E. destruct (evaluateNested f _ entries _ _ w) as [[result cursor] w1]. simpl.
  exists calls. split; [by destruct (js_le _ _)|].
  eapply Forall_impl; [exact F|]. intros c (e & He & Hc).
  apply js_sort_In, in_map_iff in He as (m & <- & Hm). by exists m.
Qed.

Lemma evaluateArguments_tracks (F' : CstNode -> State (W * list (MacroCall.t Env)) string)
    (F : CstNode -> State W string) (P : CstNode -> MacroCall.t Env -> Prop)
    (argumentNodes : list CstNode) :
  (forall a, In a argumentNodes -> tracks (Forall (P a)) (F' a) (F a)) ->
  tracks (Forall (fun c => exists a, In a argumentNodes /\ P a c))
    (evaluateArguments F' argumentNodes) (evaluateArguments F argumentNodes).
Proof.
  induction argumentNodes as [|a rest IH]; intros H w tr.
  - exists []. simpl. by rewrite app_nil_r.
  - simpl. unfold bind.
    destruct (H a (or_introl eq_refl) w tr) as (calls1 & E1 & F1). rewrite E1.
    destruct (F a w) as [v w1]. simpl.
    destruct (IH (fun a' Ha' => H a' (or_intror Ha')) w1 (tr ++ calls1)) as (calls2 & E2 & F2).
    rewrite E2. destruct (evaluateArguments F rest w1) as [[args evaluated] w2]. simpl.
    exists (calls1 ++ calls2). rewrite app_assoc. split; [done|].
    apply Forall_app. split.
    + eapply Forall_impl; [exact F1|]. intros c Hc. exists a. split; [by left|done].
    + eapply Forall_impl; [exact F2|]. intros c (a' & ? & ?). exists a'. split; [by right|done].
Qed.

Lemma evaluateMacroNodeWith_tracks (f' : CstNode -> State (W * list (MacroCall.t Env)) string)
    (f : CstNode -> State W string) (macroNode : CstNode) :
  (forall m, nestedIn m macroNode -> tracks (insideOut m) (f' m) (f m)) ->
  tracks (insideOut macroNode)
    (evaluateMacroNodeWith f' macroNode rcontext) (evaluateMacroNodeWith f macroNode context).
Proof.
  intros H w tr. unfold evaluateMacroNodeWith, bind.
  destruct (evaluateArguments_tracks
              (fun argNode => evaluateArgumentNode f' argNode rcontext)
              (fun argNode => evaluateArgumentNode f argNode context)
              (fun a c => exists m,
                 In m (nodesOf (childArray "macro" (children a))) /\ atOrBelow m c)
              (argumentNodesOf macroNode)) with (w := w) (tr := tr) as (calls & E & F).
  { intros a Ha. apply evaluateArgumentNode_tracks. intros m Hm. apply H. by exists a. }
  rewrite E. destruct (evaluateArguments _ _ w) as [[args evaluated] w1]. simpl.
  unfold recording. simpl.
  destruct (EvaluationContext.resolveMacro context _ w1) as [value w2] eqn:Hr. simpl.
  eexists. rewrite <- app_assoc. split; [reflexivity|].
  eexists calls, _. split; [reflexivity|]. split; [reflexivity|].
  eapply Forall_impl; [exact F|]. intros c (a & Ha & m & Hm & Hc).
  assert (nestedIn m macroNode) by (by exists a).
  destruct Hc as [<-|Hc]; [by apply below_nested | by eapply below_deeper].
Qed.

(** Whatever the resolver, the calls it receives while a macro node is
    evaluated are inside-out, and recording them changes nothing else. *)
Lemma evaluateMacroNode_tracks (macroNode : CstNode) :
  tracks (insideOut macroNode)
    (evaluateMacroNode macroNode rcontext) (evaluateMacroNode macroNode context).
Proof.
  remember (height macroNode) as h eqn:Hh. revert macroNode Hh.
  induction h as [h IH] using lt_wf_ind. intros n Hh w tr.
  rewrite !evaluateMacroNode_unfold.
  apply evaluateMacroNodeWith_tracks. intros m Hm.
  apply (IH (height m)); [|done]. apply height_nestedIn in Hm. lia.
Qed.

(** The calls recorded over a list of items: one inside-out group for each
    macro item, in the order of the items. *)
Lemma walkItems_tracks (items : list DocumentItem.t) (result : string) (cursor : jsnum) :
  tracks (fun calls => exists groups,
            Forall2 insideOut (macroNodesOf items) groups /\ calls = concat groups)
    (walkItems rcontext items result cursor) (walkItems context items result cursor).
Proof.
  revert result cursor. induction items as [|item rest IH]; intros result cursor w tr.
  - exists []. simpl. rewrite app_nil_r. split; [done|]. exists []. by split; [constructor|].
  - simpl. destruct (DocumentItem.type item) as [token|node].
    + apply IH.
    + unfold bind. destruct (evaluateMacroNode_tracks node w tr) as (calls1 & E1 & S1).
      rewrite E1. destruct (evaluateMacroNode node context w) as [value w1]. simpl.
      match goal with
      | |- context [walkItems context rest ?r ?c w1] =>
          destruct (IH r c w1 (tr ++ calls1)) as (calls2 & E2 & groups & G & ->)
      end.
      rewrite E2. exists (calls1 ++ concat groups). rewrite app_assoc. split; [done|].
      exists (calls1 :: groups). split; [by constructor|done].
Qed.

End OrderFacts.


(** ** Flattening *)

Lemma flattenIncompleteMacro_unfold (macroNode : CstNode) (excludeToken : option IToken.t)
    (items : list DocumentItem.t) :
  flattenIncompleteMacro macroNode excludeToken items =
  fold_left (fun items kv =>
               fold_left (flattenElement flattenIncompleteMacro excludeToken) (snd kv) items)
    (children macroNode) items.
Proof. destruct macroNode. reflexivity. Qed.

(** Membership in the result of a loop that pushes items. *)
Lemma fold_left_In {A E : Type} (step : list A -> E -> list A) (Q : E -> A -> Prop)
    (els : list E) (items : list A) (x : A) :
  (forall items e, In e els -> In x (step items e) <-> In x items \/ Q e x) ->
  In x (fold_left step els items) <-> In x items \/ exists e, In e els /\ Q e x.
Proof.
  revert items. induction els as [|e els IH]; intros items H; simpl.
  - split; [auto|]. intros [?|(? & [] & _)]. done.
  - rewrite IH by (intros; apply H; by right). rewrite H by (by left).
    split.
    + intros [[?|?]|(e' & ? & ?)]; eauto 6.
    + intros [?|(e' & [<-|?] & ?)]; eauto 6.
Qed.

Lemma Flattened_elementItems (n : CstNode) (exclude : option IToken.t) (x : DocumentItem.t) :
  Flattened n exclude x <->
  exists kv, In kv (children n) /\ exists e, In e (snd kv) /\ elementItems exclude e x.
Proof.
  split.
  - intros H. destruct H as [n ex k els tok H1 H2 H3 | n ex k els m H1 H2 H3
                            | n ex k els m item H1 H2 H3 H4 | n ex k els m item H1 H2 H3 H4].
    + exists (k, els). split; [done|]. exists (inl tok). by split.
    + exists (k, els). split; [done|]. exists (inr m). split; [done|]. simpl. auto.
    + exists (k, els). split; [done|]. exists (inr m). split; [done|]. simpl. auto.
    + exists (k, els). split; [done|]. exists (inr m). split; [done|]. simpl. auto.
  - intros ([k els] & Hkv & e & He & Hx). simpl in He. destruct e as [tok|m]; simpl in Hx.
    + destruct Hx as [Hs ->]. by eapply flattened_token.
    + destruct Hx as [[Hc ->]|[[Hi Hf]|[Hw Hf]]].
      * by eapply flattened_complete.
      * by eapply flattened_incomplete.
      * by eapply flattened_wrapper.
Qed.

Lemma flattenElement_spec
    (flatten : CstNode -> option IToken.t -> list DocumentItem.t -> list DocumentItem.t)
    (exclude : option IToken.t) (items : list DocumentItem.t) (e : CstElement)
    (x : DocumentItem.t) :
  (forall m ex items1, e = inr m ->
     In x (flatten m ex items1) <-> In x items1 \/ Flattened m ex x) ->
  In x (flattenElement flatten exclude items e) <-> In x items \/ elementItems exclude e x.
Proof.
  intros Hrec. destruct e as [tok|m]; simpl.
  - destruct (sameToken tok exclude).
    + split; [auto|]. intros [?|[? _]]; done.
    + rewrite in_app_iff. simpl. split.
      * intros [?|[<-|[]]]; auto.
      * intros [?|[_ ->]]; auto.
  - unfold completeMacro, incompleteMacro, wrapperNode, startTokenOf, endTokenOf.
    destruct (firstToken (childArray "Macro.Start" (children m))) as [st|] eqn:Hst;
      destruct (firstToken (childArray "Macro.End" (children m))) as [en|] eqn:Hen.
    + destruct (isRecoveryToken (Some en)) eqn:Hrecov; simpl.
      * rewrite (Hrec m (Some en) items eq_refl). intuition (subst; auto; congruence).
      * rewrite in_app_iff. simpl. intuition (subst; auto; congruence).
    + rewrite (Hrec m exclude items eq_refl). intuition (subst; auto; congruence).
    + rewrite (Hrec m exclude items eq_refl). intuition (subst; auto; congruence).
    + rewrite (Hrec m exclude items eq_refl). intuition (subst; auto; congruence).
Qed.

(** [#flattenIncompleteMacro] pushes exactly the items of [Flattened]. *)
Lemma flattenIncompleteMacro_spec (macroNode : CstNode) (excludeToken : option IToken.t)
    (items : list DocumentItem.t) (item : DocumentItem.t) :
  In item (flattenIncompleteMacro macroNode excludeToken items) <->
  In item items \/ Flattened macroNode excludeToken item.
Proof.
  remember (height macroNode) as h eqn:Hh. revert macroNode Hh excludeToken items.
  induction h as [h IH] using lt_wf_ind. intros n Hh ex items.
  rewrite flattenIncompleteMacro_unfold, Flattened_elementItems.
  apply (fold_left_In _ (fun kv x => exists e, In e (snd kv) /\ elementItems ex e x)).
  intros items1 [k els] Hkv. simpl.
  apply (fold_left_In _ (elementItems ex)). intros items2 e He.
  apply flattenElement_spec. intros m ex1 items3 ->.
  apply (IH (height m)); [|done]. subst h. by eapply height_child.
Qed.

Lemma collectPlaintext_spec (items : list DocumentItem.t) (e : CstElement) (x : DocumentItem.t) :
  In x (collectPlaintext items e) <->
  In x items \/
  exists tok off, e = inl tok /\ IToken.endOffset tok = Some off /\
    x = DocumentItem.mk (plaintext tok) (IToken.startOffset tok) off.
Proof.
  destruct e as [tok|m]; simpl.
  - destruct (IToken.endOffset tok) as [off|] eqn:Hoff.
    + rewrite in_app_iff. simpl. split.
      * intros [?|[<-|[]]]; [by left|]. right. by exists tok, off.
      * intros [?|(tok' & off' & [= <-] & Hoff' & ->)]; [by left|].
        rewrite Hoff in Hoff'. injection Hoff' as <-. right. by left.
    + split; [auto|]. intros [?|(tok' & off' & [= <-] & Hoff' & _)]; [done|congruence].
  - split; [auto|]. intros [?|(tok' & off' & ? & _)]; done.
Qed.

Lemma collectMacro_spec (items : list DocumentItem.t) (e : CstElement) (x : DocumentItem.t) :
  In x (collectMacro items e) <->
  In x items \/
  exists m, e = inr m /\
    ((isRecoveryToken (endTokenOf m) = false /\ x = macroItem m) \/
     (isRecoveryToken (endTokenOf m) = true /\ Flattened m (endTokenOf m) x)).
Proof.
  destruct e as [tok|m]; simpl.
  - split; [auto|]. intros [?|(m & ? & _)]; done.
  - fold (endTokenOf m). destruct (isRecoveryToken (endTokenOf m)) eqn:Hr.
    + rewrite flattenIncompleteMacro_spec. split.
      * intros [?|?]; [by left|]. right. exists m. auto.
      * intros [?|(m' & [= <-] & [[? _]|[_ ?]])]; [by left|congruence|by right].
    + rewrite in_app_iff. simpl. split.
      * intros [?|[<-|[]]]; [by left|]. right. exists m. auto.
      * intros [?|(m' & [= <-] & [[_ ->]|[? _]])]; [by left|right; by left|congruence].
Qed.

(** The items of a document: the top-level plaintext tokens, the complete
    top-level macros, and what the incomplete top-level macros flatten to. *)
Lemma collectDocumentItems_spec (cst : CstNode) (x : DocumentItem.t) :
  In x (collectDocumentItems cst) <->
  (exists tok off, In (inl tok) (childArray "plaintext" (children cst)) /\
     IToken.endOffset tok = Some off /\
     x = DocumentItem.mk (plaintext tok) (IToken.startOffset tok) off) \/
  (exists m, In (inr m) (childArray "macro" (children cst)) /\
     ((isRecoveryToken (endTokenOf m) = false /\ x = macroItem m) \/
      (isRecoveryToken (endTokenOf m) = true /\ Flattened m (endTokenOf m) x))).
Proof.
  unfold collectDocumentItems. rewrite js_sort_In. unfold collectUnsorted.
  rewrite (fold_left_In collectMacro (fun e x => exists m, e = inr m /\
     ((isRecoveryToken (endTokenOf m) = false /\ x = macroItem m) \/
      (isRecoveryToken (endTokenOf m) = true /\ Flattened m (endTokenOf m) x))))
    by (intros; apply collectMacro_spec).
  rewrite (fold_left_In collectPlaintext (fun e x => exists tok off, e = inl tok /\
     IToken.endOffset tok = Some off /\
     x = DocumentItem.mk (plaintext tok) (IToken.startOffset tok) off))
    by (intros; apply collectPlaintext_spec).
  simpl. split.
  - intros [[[]|(e & He & tok & off & -> & ? & ?)]|(e & He & m & -> & ?)].
    + left. by exists tok, off.
    + right. by exists m.
  - intros [(tok & off & ? & ? & ?)|(m & ? & ?)].
    + left. right. exists (inl tok). split; [done|]. by exists tok, off.
    + right. exists (inr m). split; [done|]. by exists m.
Qed.

Lemma Flattened_macro_complete (n : CstNode) (exclude : option IToken.t)
    (x : DocumentItem.t) (node : CstNode) :
  Flattened n exclude x -> DocumentItem.type x = macro node -> completeMacro node.
Proof.
  induction 1 as [n ex k els tok H1 H2 H3 | n ex k els m H1 H2 H3
                 | n ex k els m item H1 H2 H3 H4 IH | n ex k els m item H1 H2 H3 H4 IH];
    simpl; intros Ht; auto; [done|]. by injection Ht as <-.
Qed.

(** C1: a macro whose closing delimiter is missing carries a close token
    inserted in recovery, and the walker flattens it: every item of
    [Flattened] (a plaintext item for each of its tokens, a macro item for
    each complete macro inside it, in turn through nested incomplete macros)
    is a document item, and no document item is a macro item for a node whose
    close token was inserted in recovery, so the node itself is none. In
    particular the input [Test {{ hehe {{user}}] with [User] as the user name
    evaluates to [Test {{ hehe User]. *)
Theorem incomplete_macro_flattened :
  (forall (cst macroNode : CstNode),
     In macroNode (nodesOf (childArray "macro" (children cst))) ->
     isRecoveryToken (endTokenOf macroNode) = true ->
     (forall item, Flattened macroNode (endTokenOf macroNode) item ->
                   In item (collectDocumentItems cst)) /\
     (forall item node, In item (collectDocumentItems cst) ->
                        DocumentItem.type item = macro node ->
                        isRecoveryToken (endTokenOf node) = false /\ node <> macroNode)) /\
  fst (engineEvaluate coreRegistry danglingParser danglingInput (testEnv danglingInput) emptyWorld)
  = "Test {{ hehe User".
Proof.
  split; [|by vm_compute].
  intros cst macroNode Hin Hrecov. apply nodesOf_In in Hin. split.
  - intros item Hf. apply collectDocumentItems_spec. right. exists macroNode. auto.
  - intros item node Hitem Htype.
    assert (isRecoveryToken (endTokenOf node) = false) as Hc.
    { apply collectDocumentItems_spec in Hitem
        as [(tok & off & _ & _ & ->)|(m & _ & [[Hr ->]|[_ Hf]])]; simpl in Htype.
      - done.
      - by injection Htype as <-.
      - by eapply Flattened_macro_complete. }
    split; [done|]. intros ->. congruence.
Qed.

(** The incomplete macro of the example is flattened to its two tokens and
    the complete macro [user]. *)
Lemma incomplete_macro_flattened_witness :
  In danglingHehe (nodesOf (childArray "macro" (children danglingDocument))) /\
  isRecoveryToken (endTokenOf danglingHehe) = true /\
  In (macroItem danglingUser) (collectDocumentItems danglingDocument) /\
  (forall item node, In item (collectDocumentItems danglingDocument) ->
                     DocumentItem.type item = macro node ->
                     isRecoveryToken (endTokenOf node) = false /\ node <> danglingHehe).
Proof.
  pose proof (proj1 incomplete_macro_flattened danglingDocument danglingHehe) as H.
  assert (In danglingHehe (nodesOf (childArray "macro" (children danglingDocument)))) as H1
    by (simpl; by left).
  assert (isRecoveryToken (endTokenOf danglingHehe) = true) as H2 by reflexivity.
  destruct (H H1 H2) as [Ha Hb].
  split; [exact H1|]. split; [exact H2|]. split; [|exact Hb].
  apply Ha.
  apply (flattened_wrapper danglingHehe _ "arguments" [inr danglingArguments] danglingArguments);
    [simpl; auto | by left | by left |].
  apply (flattened_wrapper danglingArguments _ "argument" [inr danglingArgument] danglingArgument);
    [by left | by left | by left |].
  apply (flattened_complete danglingArgument _ "macro" [inr danglingUser] danglingUser);
    [by left | by left |].
  by split_and!.
Defined.

(** ** Resolution of a macro call *)

Section ResolveFacts.
Context {St : Type}.
Variable hasMacro : string -> bool.
Variable executeMacro :
  MacroCall.t (MacroEnv St) -> option (MacroDefinition.t St) ->
  State (World St) (Completion string).

(** A call is dispatched to the registry when its name is not empty and is a
    dynamic macro or registered. *)
Lemma resolveMacro_dispatch (call : MacroCall.t (MacroEnv St)) (w : World St) :
  MacroCall.name call <> "" ->
  (defOverrideOf call <> None \/ hasMacro (MacroCall.name call) = true) ->
  resolveMacro hasMacro executeMacro call w =
  match executeMacro call (defOverrideOf call) w with
  | (Returns result, w1) =>
      match callPostProcess (MacroCall.env call) result w1 with
      | (Returns value, w2) => (value, w2)
      | (Throws error, w2) =>
          (result,
           logged w2
             (console_error "[Macro] Error:"
                ("Macro " +:+ quote +:+ MacroCall.name call +:+ quote +:+
                 " postProcess function failed.")
                (MacroPayload (inferMacroName (Some (MacroCall.name call)) None None)
                   (MacroCall.rawInner call) (Some error))))
      end
  | (Throws error, w1) =>
      (rawOf call,
       logged w1 (if isRuntimeError error then runtimeWarningFor call error
                  else internalErrorFor call error))
  end.
Proof.
  intros Hname Hfound. unfold resolveMacro, defOverrideOf in *.
  destruct (String.eqb_spec (MacroCall.name call) ""); [done|].
  destruct (dynamicMacros _ !! _) as [impl|] eqn:Hdyn.
  - unfold bind. destruct (executeMacro _ _ w) as [[result|error] w1].
    + destruct (callPostProcess _ _ w1) as [[value|error] w2]; reflexivity.
    + destruct (isRuntimeError error); reflexivity.
  - destruct Hfound as [?|Hreg]; [done|]. rewrite Hreg. simpl.
    unfold bind. destruct (executeMacro _ _ w) as [[result|error] w1].
    + destruct (callPostProcess _ _ w1) as [[value|error] w2]; reflexivity.
    + destruct (isRuntimeError error); reflexivity.
Qed.

(** A call that is not dispatched is returned raw, and nothing is logged. *)
Lemma resolveMacro_raw (call : MacroCall.t (MacroEnv St)) (w : World St) :
  MacroCall.name call = "" \/
  (defOverrideOf call = None /\ hasMacro (MacroCall.name call) = false) ->
  resolveMacro hasMacro executeMacro call w = (rawOf call, w).
Proof.
  unfold resolveMacro, defOverrideOf. intros [->|[Hdyn Hreg]]; [done|].
  destruct (String.eqb_spec (MacroCall.name call) ""); [done|].
  destruct (dynamicMacros _ !! _); [done|]. by rewrite Hreg.
Qed.

(** C6, amended: [#resolveMacro] never propagates what is thrown while an
    invocation is executed. When the registry's execution throws, the call
    resolves to the raw invocation (the braces around [rawInner], which holds
    the nested values), and one entry is logged: a runtime warning when the
    error has the name [MacroRuntimeError] or the tag [isMacroRuntimeError],
    an internal error otherwise. When the execution returns and
    [env.functions.postProcess] throws, the call resolves to the result of
    the execution as it is, and one internal error is logged, whatever the
    name and the tag of the error. When neither throws, the call resolves to
    what [postProcess] returns, and nothing is logged. *)
Theorem resolveMacro_catches (call : MacroCall.t (MacroEnv St)) (w : World St) :
  MacroCall.name call <> "" ->
  (defOverrideOf call <> None \/ hasMacro (MacroCall.name call) = true) ->
  (forall error w1,
     executeMacro call (defOverrideOf call) w = (Throws error, w1) ->
     resolveMacro hasMacro executeMacro call w =
     ("{{" +:+ MacroCall.rawInner call +:+ "}}",
      mkWorld (store w1)
        (console w1 ++
         [match error with
          | ThrownObject name _ tagged =>
              if String.eqb name "MacroRuntimeError" || tagged
              then runtimeWarningFor call error
              else internalErrorFor call error
          | ThrownOther => internalErrorFor call error
          end]))) /\
  (forall result error w1 w2,
     executeMacro call (defOverrideOf call) w = (Returns result, w1) ->
     callPostProcess (MacroCall.env call) result w1 = (Throws error, w2) ->
     resolveMacro hasMacro executeMacro call w =
     (result, mkWorld (store w2) (console w2 ++ [postProcessErrorFor call error]))) /\
  (forall result value w1 w2,
     executeMacro call (defOverrideOf call) w = (Returns result, w1) ->
     callPostProcess (MacroCall.env call) result w1 = (Returns value, w2) ->
     resolveMacro hasMacro executeMacro call w = (value, w2)).
Proof.
  intros Hname Hfound. split_and!.
  - intros error w1 Hthrow. rewrite resolveMacro_dispatch by done. rewrite Hthrow.
    unfold rawOf, logged. by destruct error.
  - intros result error w1 w2 Hresult Hpost. rewrite resolveMacro_dispatch by done.
    by rewrite Hresult, Hpost.
  - intros result value w1 w2 Hresult Hpost. rewrite resolveMacro_dispatch by done.
    by rewrite Hresult, Hpost.
Qed.

End ResolveFacts.

(** A [postProcess] that throws a tagged runtime error while the call
    [{{user}}] is executed: the call does not stay raw, it resolves to the
    result of the execution, and the error is logged as an internal error,
    not as a runtime warning. *)
Lemma resolveMacro_claim_counterexample :
  let error := createMacroRuntimeError "post-processing failed" in
  let call := throwingPostCall error in
  isRuntimeError error = true /\
  resolveMacro (fun _ => true) (returningRegistry "User") call emptyWorld =
  ("User", mkWorld tt [postProcessErrorFor call error]) /\
  "User" <> "{{" +:+ MacroCall.rawInner call +:+ "}}" /\
  postProcessErrorFor call error <> runtimeWarningFor call error.
Proof. by split_and!. Qed.

(** An error of the execution that is not a runtime error is logged as an
    internal error, and the call stays raw; a tagged error of [postProcess]
    is logged as an internal error, and the call resolves to the result. *)
Lemma resolveMacro_catches_witness :
  resolveMacro (fun _ => true) (throwingRegistry (ThrownObject "TypeError" "boom" false))
    (sampleCall "noop" [] "noop") emptyWorld =
  ("{{noop}}",
   mkWorld tt
     [console_error "[Macro] Error:"
        ("Macro " +:+ quote +:+ "noop" +:+ quote +:+ " internal execution error.")
        (MacroPayload "noop" "noop" (Some (ThrownObject "TypeError" "boom" false)))]) /\
  resolveMacro (fun _ => true) (returningRegistry "User")
    (throwingPostCall (createMacroRuntimeError "late")) emptyWorld =
  ("User",
   mkWorld tt
     [console_error "[Macro] Error:"
        ("Macro " +:+ quote +:+ "user" +:+ quote +:+ " postProcess function failed.")
        (MacroPayload "user" "user" (Some (createMacroRuntimeError "late")))]).
Proof.
  split.
  - refine (proj1 (resolveMacro_catches (fun _ => true)
             (throwingRegistry (ThrownObject "TypeError" "boom" false))
             (sampleCall "noop" [] "noop") emptyWorld _ _)
             (ThrownObject "TypeError" "boom" false) emptyWorld _);
      [done|by right|reflexivity].
  - refine (proj1 (proj2 (resolveMacro_catches (fun _ => true) (returningRegistry "User")
             (throwingPostCall (createMacroRuntimeError "late")) emptyWorld _ _))
             "User" (createMacroRuntimeError "late") emptyWorld emptyWorld _ _);
      [done|by right|reflexivity|reflexivity].
Defined.

(** ** Dynamic macros *)

Section DynamicFacts.
Context {St : Type}.

Lemma executeMacro_override (registry1 registry2 : gmap string (MacroDefinition.t St))
    (call : MacroCall.t (MacroEnv St)) (def : MacroDefinition.t St) (w : World St) :
  executeMacro registry1 call (Some def) w = executeMacro registry2 call (Some def) w.
Proof. reflexivity. Qed.



End DynamicFacts.


(** ** Arity *)


Section ArityFacts.
Context {St : Type}.



End ArityFacts.


(** ** The evaluation of an argument *)

Section ArgumentFacts.
Context {Env W : Type}.
Implicit Types (f : CstNode -> State W string).

Lemma render_app f (text : string) (p1 p2 : list Piece) (result : string) (w : W) :
  render f text (p1 ++ p2) result w =
  (let (r, w') := render f text p1 result w in render f text p2 r w').
Proof.
  revert result w. induction p1 as [|[a b|node s e] p1 IH]; intros result w; simpl.
  - done.
  - apply IH.
  - unfold bind. destruct (f node w) as [v w1]. apply IH.
Qed.

(** The loop of [#evaluateArgumentNode] yields the string of the pieces. *)
Lemma evaluateNested_pieces f (text : string) (entries : list (CstNode * TokenRange.t))
    (result : string) (cursor : Z) (w : W) :
  Forall (fun entry => properRange (snd entry)) entries ->
  evaluateNested f text entries result (Num cursor) w =
  (let (r, w') := render f text (fst (piecesFrom entries cursor)) result w in
   ((r, Num (snd (piecesFrom entries cursor))), w')).
Proof.
  intros H. revert result cursor w.
  induction H as [|[node range] entries Hp _ IH]; intros result cursor w.
  - reflexivity.
  - destruct Hp as (s & e & Hr & Hse). simpl in Hr. subst range. simpl. destruct (s <? cursor); [apply IH|].
    destruct (piecesFrom entries (e + 1)) as [pieces final] eqn:Hp. simpl.
    unfold bind. destruct (f node w) as [v w1].
    rewrite IH, Hp. reflexivity.
Qed.


(** Pieces that follow each other take every offset at most once. *)
Lemma consecutive_takes_once (pieces : list Piece) (cursor i : Z) :
  consecutive cursor pieces ->
  (length (filter (fun p => takes i p = true) pieces) <= 1)%nat /\
  (i < cursor -> filter (fun p => takes i p = true) pieces = []).
Proof.
  revert cursor. induction pieces as [|[a b|node s e] pieces IH]; intros cursor; simpl.
  - intros _. split; [lia|done].
  - intros (Hc & Hab & Hrest). destruct (IH b Hrest) as [IH1 IH2].
    rewrite filter_cons. simpl.
    destruct (decide _) as [Ht|Ht].
    + apply andb_true_iff in Ht as [H1 H2].
      apply Z.leb_le in H1. apply Z.ltb_lt in H2.
      rewrite IH2 by lia. split; [simpl; lia|]. lia.
    + split; [done|]. intros. apply IH2. lia.
  - intros (Hc & Hse & Hrest). destruct (IH (e + 1) Hrest) as [IH1 IH2].
    rewrite filter_cons_False by (simpl; done).
    split; [done|]. intros. apply IH2. lia.
Qed.









End ArgumentFacts.



(** ** Substitution *)

Lemma spliceTo_nil (text : string) (cursor stop : Z) :
  spliceTo text cursor [] stop = slice text (Num cursor) (Num stop).
Proof. reflexivity. Qed.

Lemma spliceTo_cons (text : string) (cursor stop : Z) (span : Z * Z) (value : string)
    (rest : list ((Z * Z) * string)) :
  spliceTo text cursor ((span, value) :: rest) stop =
  slice text (Num cursor) (Num (fst span)) +:+ value +:+ spliceTo text (snd span + 1) rest stop.
Proof.
  unfold spliceTo. simpl. destruct (splice text (snd span + 1) rest) as [behind final].
  by rewrite !str_app_assoc.
Qed.

Lemma spansWithin_bound (cursor hi : Z) (spans : list (Z * Z)) :
  spansWithin cursor hi spans -> cursor <= hi + 1.
Proof.
  revert cursor. induction spans as [|span rest IH]; intros cursor; simpl; [done|].
  intros (H1 & H2 & H3). apply IH in H3. lia.
Qed.

Lemma spansWithin_app (cursor mid hi : Z) (spans1 spans2 : list (Z * Z)) :
  spansWithin cursor mid spans1 -> spansWithin (mid + 1) hi spans2 ->
  spansWithin cursor hi (spans1 ++ spans2).
Proof.
  revert cursor. induction spans1 as [|span rest IH]; intros cursor; simpl.
  - intros H1 H2. destruct spans2 as [|span2 rest2]; simpl in *; [lia|].
    destruct H2 as (? & ? & ?). split_and!; [lia|done|done].
  - intros (H1 & H2 & H3) H4. split_and!; [done..|]. by apply IH.
Qed.

Lemma spansWithin_weaken (cursor cursor' hi : Z) (spans : list (Z * Z)) :
  cursor' <= cursor -> spansWithin cursor hi spans -> spansWithin cursor' hi spans.
Proof. destruct spans; simpl; intros; [lia|]. destruct H0 as (? & ? & ?). split_and!; [lia|done..]. Qed.

(** Text in front of the first span can be added in front. *)
Lemma spliceTo_prefix (text : string) (c cursor stop : Z) (spans : list ((Z * Z) * string)) :
  0 <= c -> c <= cursor -> spansWithin cursor (stop - 1) (map fst spans) ->
  slice text (Num c) (Num cursor) +:+ spliceTo text cursor spans stop =
  spliceTo text c spans stop.
Proof.
  intros Hc Hle Hw. destruct spans as [|[span value] rest].
  - simpl in Hw. rewrite !spliceTo_nil. apply slice_join; lia.
  - simpl in Hw. destruct Hw as (H1 & H2 & H3).
    rewrite !spliceTo_cons, <- str_app_assoc. f_equal. apply slice_join; lia.
Qed.

(** Substitution in two parts that meet at [mid]. *)
Lemma spliceTo_app (text : string) (cursor mid stop : Z) (spans1 spans2 : list ((Z * Z) * string)) :
  0 <= cursor -> spansWithin cursor (mid - 1) (map fst spans1) ->
  spansWithin mid (stop - 1) (map fst spans2) ->
  spliceTo text cursor spans1 mid +:+ spliceTo text mid spans2 stop =
  spliceTo text cursor (spans1 ++ spans2) stop.
Proof.
  revert cursor. induction spans1 as [|[span value] rest IH]; intros cursor Hc H1 H2.
  - simpl in *. rewrite spliceTo_nil. apply spliceTo_prefix; [done|lia|done].
  - simpl in H1. destruct H1 as (Ha & Hb & Hrest). simpl.
    rewrite !spliceTo_cons, !str_app_assoc. do 2 f_equal. apply IH; [lia|done..].
Qed.

Lemma splice_final (text : string) (cursor hi : Z) (spans : list ((Z * Z) * string)) :
  spansWithin cursor hi (map fst spans) -> snd (splice text cursor spans) <= hi + 1.
Proof.
  revert cursor. induction spans as [|[span value] rest IH]; intros cursor; simpl; [done|].
  intros (H1 & H2 & H3). specialize (IH _ H3).
  by destruct (splice text (snd span + 1) rest).
Qed.

Lemma map_fst_combine {A B : Type} (l : list A) (l' : list B) :
  length l = length l' -> map fst (combine l l') = l.
Proof.
  revert l'. induction l as [|x l IH]; intros [|y l'] Hlen; simpl in *; try done.
  f_equal. apply IH. lia.
Qed.

Lemma map_pair_combine {A B : Type} (g : A -> B) (l : list A) :
  map (fun x => (x, g x)) l = combine l (map g l).
Proof. induction l as [|x l IH]; simpl; [done|]. by rewrite IH. Qed.

Section SubstituteFacts.
Context {Env W : Type}.
Implicit Types (f : CstNode -> State W string).

Lemma forEach_length {A B : Type} (g : A -> State W B) (l : list A) (w : W) :
  length (fst (forEach g l w)) = length l.
Proof.
  revert w. induction l as [|x l IH]; intros w; simpl; [done|].
  unfold bind. destruct (g x w) as [y w1]. specialize (IH w1).
  destruct (forEach g l w1) as [ys w2]. simpl in *. by rewrite IH.
Qed.

(** Without overlap nothing is dropped: the loop over the nested macros
    evaluates each of them, in order, and splices the values in. *)
Lemma evaluateNested_within f (text : string) (nodes : list CstNode) (spans : list (Z * Z))
    (hi : Z) (result : string) (cursor : Z) (w : W) :
  length nodes = length spans -> spansWithin cursor hi spans ->
  evaluateNested f text (combine nodes (map rangeOf spans)) result (Num cursor) w =
  (let (values, w') := forEach f nodes w in
   let (replaced, final) := splice text cursor (combine spans values) in
   ((result +:+ replaced, Num final), w')).
Proof.
  revert spans result cursor w.
  induction nodes as [|node nodes IH]; intros [|span spans] result cursor w Hlen Hw;
    simpl in *; try done.
  - unfold ret. by rewrite str_app_nil_r.
  - destruct Hw as (H1 & H2 & H3).
    destruct (Z.ltb_spec (fst span) cursor); [lia|].
    unfold bind. destruct (f node w) as [v w1].
    rewrite (IH spans) by (done || lia).
    destruct (forEach f nodes w1) as [vs w2]. simpl.
    destruct (splice text (snd span + 1) (combine spans vs)) as [behind final].
    by rewrite !str_app_assoc.
Qed.

Lemma spansWithin_sorted {X : Type} (cursor hi : Z) (xs : list X) (spans : list (Z * Z)) :
  length xs = length spans -> spansWithin cursor hi spans ->
  Sorted (mayPrecede compareByStart) (combine xs (map rangeOf spans)) /\
  match combine xs (map rangeOf spans) with
  | [] => True
  | b :: _ => exists s, TokenRange.startOffset (snd b) = Num s /\ cursor <= s
  end.
Proof.
  revert cursor spans. induction xs as [|x xs IH]; intros cursor [|span spans] Hlen Hw;
    simpl in *; try done; try (by split; constructor).
  destruct Hw as (H1 & H2 & H3).
  destruct (IH (snd span + 1) spans) as [IHs IHh]; [lia|done|].
  split.
  - constructor; [done|].
    destruct (combine xs (map rangeOf spans)) as [|[y r] l]; constructor.
    destruct IHh as (s & Hs & Hle).
    unfold mayPrecede, comesAfter, compareByStart. simpl in *. rewrite Hs. simpl.
    apply Z.ltb_ge. lia.
  - exists (fst span). split; [done|lia].
Qed.

(** The value of an argument is its text with the value of each nested macro
    in place of the macro. *)
Lemma evaluateArgumentNode_layout f (context : EvaluationContext.t Env W)
    (argNode : CstNode) (layout : ArgumentLayout) (w : W) :
  argumentLayout argNode layout ->
  evaluateArgumentNode f argNode context w =
  (let (values, w') := forEach f (nestedMacrosOf argNode) w in
   (argumentValue (EvaluationContext.text context) layout values, w')).
Proof.
  destruct layout as [span nested|]; simpl.
  - intros (Hloc & Hranges & Hw). unfold evaluateArgumentNode. rewrite Hloc.
    fold (nestedMacrosOf argNode).
    assert (length (nestedMacrosOf argNode) = length nested) as Hlen.
    { rewrite <- (length_map getMacroRange), Hranges. apply length_map. }
    destruct (nestedMacrosOf argNode) as [|m ms] eqn:Hn.
    + destruct nested; [|done]. reflexivity.
    + rewrite <- Hn in *. clear Hn m ms. unfold bind.
      rewrite map_pair_combine, Hranges.
      rewrite js_sort_sorted by (by apply (spansWithin_sorted (fst span) (snd span))).
      simpl TokenRange.startOffset.
      rewrite (evaluateNested_within f _ _ _ (snd span)) by done.
      pose proof (forEach_length f (nestedMacrosOf argNode) w) as Hvalues.
      destruct (forEach f (nestedMacrosOf argNode) w) as [values w1]. simpl in Hvalues.
      unfold substitute, spliceTo.
      pose proof (splice_final (EvaluationContext.text context) (fst span) (snd span)
                    (combine nested values)) as Hfinal.
      rewrite map_fst_combine in Hfinal by lia. specialize (Hfinal Hw).
      destruct (splice _ (fst span) (combine nested values)) as [replaced final].
      simpl in *. destruct (Z.leb_spec final (snd span)); [reflexivity|].
      assert (final = snd span + 1) as -> by lia.
      unfold ret. by rewrite slice_same, str_app_nil_r.
  - intros (Hloc & Hnested). unfold evaluateArgumentNode. by rewrite Hloc, Hnested.
Qed.


Lemma evaluateArguments_layout f (context : EvaluationContext.t Env W)
    (argumentNodes : list CstNode) (layouts : list ArgumentLayout) (w : W) :
  Forall2 argumentLayout argumentNodes layouts ->
  evaluateArguments (fun argNode => evaluateArgumentNode f argNode context) argumentNodes w =
  (let (values, w') := forEach (fun a => forEach f (nestedMacrosOf a)) argumentNodes w in
   ((argumentValues (EvaluationContext.text context) layouts values,
     entriesOf (locatedValues (EvaluationContext.text context) layouts values)), w')).
Proof.
  intros H. revert w. induction H as [|a layout args layouts Ha _ IH]; intros w; [done|].
  simpl. unfold bind. rewrite (evaluateArgumentNode_layout f context a layout) by done.
  destruct (forEach f (nestedMacrosOf a) w) as [vs w1]. rewrite IH.
  destruct (forEach _ args w1) as [values w2].
  destruct layout as [span nested|]; simpl in *.
  - destruct Ha as (-> & _). reflexivity.
  - destruct Ha as (-> & _). reflexivity.
Qed.

Lemma spliceArguments_within (text : string) (located : list ((Z * Z) * string))
    (rawInner : string) (cursor hi : Z) :
  spansWithin cursor hi (map fst located) ->
  spliceArguments text (entriesOf located) rawInner (Num cursor) =
  (rawInner +:+ fst (splice text cursor located), Num (snd (splice text cursor located))).
Proof.
  revert rawInner cursor. induction located as [|[span value] rest IH]; intros rawInner cursor.
  - simpl. intros _. by rewrite str_app_nil_r.
  - simpl. intros (H1 & H2 & H3). rewrite IH by done.
    destruct (splice text (snd span + 1) rest) as [behind final]. simpl.
    unfold js_gt. simpl. destruct (Z.ltb_spec cursor (fst span)).
    + by rewrite !str_app_assoc.
    + assert (cursor = fst span) as -> by lia.
      by rewrite slice_same, !str_app_assoc.
Qed.

Lemma entriesOf_sorted (located : list ((Z * Z) * string)) (cursor hi : Z) :
  spansWithin cursor hi (map fst located) ->
  js_sort compareByStart (entriesOf located) = entriesOf located.
Proof.
  intros Hw. apply js_sort_sorted.
  assert (entriesOf located = combine (map snd located) (map rangeOf (map fst located))) as ->.
  { clear Hw. unfold entriesOf.
    induction located as [|[span v] rest IH]; simpl; [done|]. by rewrite IH. }
  apply (spansWithin_sorted cursor hi); [by rewrite !length_map|done].
Qed.

(** The inner text that [#evaluateMacroNode] rebuilds is the text between the
    braces with the value of each located argument in its place. *)
Lemma buildRawInner_within (text : string) (located : list ((Z * Z) * string)) (lo hi : Z) :
  lo <= hi -> spansWithin lo hi (map fst located) ->
  buildRawInner text (Num lo) (Num hi) (js_sort compareByStart (entriesOf located)) =
  substitute text lo hi located.
Proof.
  intros Hle Hw. rewrite (entriesOf_sorted located lo hi) by done.
  unfold buildRawInner. simpl. destruct (Z.leb_spec lo hi); [|lia].
  rewrite (spliceArguments_within text located "" lo hi) by done.
  pose proof (splice_final text lo hi located Hw) as Hfinal.
  unfold substitute, spliceTo. destruct (splice text lo located) as [replaced final]. simpl in *.
  destruct (Z.leb_spec final hi); [reflexivity|].
  assert (final = hi + 1) as -> by lia. by rewrite slice_same, str_app_nil_r.
Qed.

Lemma locatedValues_spans (text : string) (layouts : list ArgumentLayout)
    (values : list (list string)) :
  length values = length layouts ->
  map fst (locatedValues text layouts values) = locatedSpans layouts.
Proof.
  revert values. induction layouts as [|[span nested|] layouts IH]; intros [|vs values] Hlen;
    simpl in *; try done.
  - f_equal. apply IH. lia.
  - apply IH. lia.
Qed.

Lemma nestedSpans_within (layouts : list ArgumentLayout) (values : list (list string))
    (cursor hi : Z) :
  Forall2 layoutValues layouts values -> spansWithin cursor hi (locatedSpans layouts) ->
  spansWithin cursor hi (map fst (nestedSpans layouts values)).
Proof.
  intros H. revert cursor. induction H as [|layout vs layouts values Hl _ IH]; intros cursor Hw.
  - done.
  - simpl. rewrite map_app. destruct layout as [span nested|]; simpl in *.
    + destruct Hl as [Hn Hlen]. destruct Hw as (H1 & H2 & H3).
      rewrite map_fst_combine by lia.
      apply (spansWithin_app cursor (snd span)); [|by apply IH].
      by apply (spansWithin_weaken (fst span)).
    + by apply IH.
Qed.

(** Substituting the values of the arguments, themselves the results of
    substituting the nested values, substitutes the nested values. *)
Lemma spliceTo_nested (text : string) (layouts : list ArgumentLayout)
    (values : list (list string)) (cursor hi : Z) :
  0 <= cursor -> Forall2 layoutValues layouts values ->
  spansWithin cursor hi (locatedSpans layouts) ->
  spliceTo text cursor (locatedValues text layouts values) (hi + 1) =
  spliceTo text cursor (nestedSpans layouts values) (hi + 1).
Proof.
  intros Hc H. revert cursor Hc.
  induction H as [|layout vs layouts values Hl Hrest IH]; intros cursor Hc Hw; [done|].
  destruct layout as [span nested|]; simpl in *.
  - destruct Hl as [Hn Hlen]. destruct Hw as (H1 & H2 & H3).
    rewrite spliceTo_cons. rewrite IH by (done || lia).
    unfold substitute. rewrite <- str_app_assoc.
    rewrite spliceTo_prefix; [|done|done|].
    + apply spliceTo_app; [done| |].
      * rewrite map_fst_combine by lia. replace (snd span + 1 - 1) with (snd span) by lia.
        by apply (spansWithin_weaken (fst span)).
      * replace (hi + 1 - 1) with hi by lia. by apply nestedSpans_within.
    + rewrite map_fst_combine by lia. by replace (snd span + 1 - 1) with (snd span) by lia.
  - by apply IH.
Qed.


Lemma forEach_Forall2 {A B : Type} (g : A -> State W B) (P : A -> B -> Prop)
    (l : list A) (w : W) :
  (forall x w', P x (fst (g x w'))) -> Forall2 P l (fst (forEach g l w)).
Proof.
  intros H. revert w. induction l as [|x l IH]; intros w; simpl; [constructor|].
  unfold bind. pose proof (H x w) as Hx. destruct (g x w) as [y w1]. specialize (IH w1).
  destruct (forEach g l w1) as [ys w2]. simpl in *. by constructor.
Qed.

Lemma layoutValues_of f (argumentNodes : list CstNode) (layouts : list ArgumentLayout)
    (w : W) :
  Forall2 argumentLayout argumentNodes layouts ->
  Forall2 layoutValues layouts
    (fst (forEach (fun a => forEach f (nestedMacrosOf a)) argumentNodes w)).
Proof.
  intros H.
  pose proof (forEach_Forall2 (fun a => forEach f (nestedMacrosOf a))
                (fun a vs => length vs = length (nestedMacrosOf a)) argumentNodes w
                (fun a w' => forEach_length f (nestedMacrosOf a) w')) as Hlen.
  revert Hlen. generalize (fst (forEach (fun a => forEach f (nestedMacrosOf a)) argumentNodes w)).
  induction H as [|a layout args layouts Ha _ IH]; intros values Hlen.
  - inversion Hlen. constructor.
  - inversion Hlen as [|? vs ? values' Hvs Hrest]; subst. constructor; [|by apply IH].
    destruct layout as [span nested|]; simpl in *; [|done].
    destruct Ha as (_ & Hranges & Hw). split; [done|].
    rewrite Hvs, <- (length_map getMacroRange), Hranges. apply length_map.
Qed.

(** The evaluation of a well-formed macro node: every nested macro of its
    arguments is evaluated, in source order, and then the resolver is called
    with the values of the arguments and, as [rawInner], the text between the
    braces in which each nested macro is replaced by its value. *)
Lemma evaluateMacroNode_substitutes (context : EvaluationContext.t Env W)
    (macroNode : CstNode) (lo hi : Z) (layouts : list ArgumentLayout) (w : W) :
  wellFormedMacro macroNode lo hi layouts ->
  evaluateMacroNode macroNode context w =
  (let (values, w1) :=
     forEach (fun a => forEach (fun m => evaluateMacroNode m context) (nestedMacrosOf a))
       (argumentNodesOf macroNode) w in
   EvaluationContext.resolveMacro context
     (MacroCall.mk (macroName macroNode)
        (argumentValues (EvaluationContext.text context) layouts values)
        (EvaluationContext.env context)
        (substitute (EvaluationContext.text context) lo hi (nestedSpans layouts values))
        (slice (EvaluationContext.text context)
           (TokenRange.startOffset (getMacroRange macroNode))
           (js_add (TokenRange.endOffset (getMacroRange macroNode)) 1))
        (getMacroRange macroNode) macroNode) w1).
Proof.
  intros (Hstart & Hend & Hlo & Hle & Hargs & Hw).
  rewrite evaluateMacroNode_unfold. unfold evaluateMacroNodeWith, bind.
  rewrite (evaluateArguments_layout _ context _ layouts) by done.
  pose proof (layoutValues_of (fun m => evaluateMacroNode m context) _ _ w Hargs) as Hvalues.
  destruct (forEach _ (argumentNodesOf macroNode) w) as [values w1]. simpl in Hvalues.
  assert (length values = length layouts) as Hlen
    by (symmetry; by eapply Forall2_length).
  rewrite Hstart, Hend.
  rewrite buildRawInner_within by (done || by rewrite locatedValues_spans).
  unfold substitute. rewrite spliceTo_nested by done.
  by destruct (EvaluationContext.resolveMacro context _ w1).
Qed.

End SubstituteFacts.

(** ** Unknown macros *)

(** C2: a call whose name is not empty, is no key of [env.dynamicMacros] and
    is not registered resolves to the braces around its [rawInner], and the
    state, the console in it, is left as it was: nothing is logged. For a
    well-formed macro node with such a name the result is the invocation
    verbatim, except that in the text between the braces the span of each
    nested macro is replaced by the value the macro evaluates to; the text
    between the spans, separators and white space, is kept; and the state is
    the state behind the evaluation of the nested macros. *)
Theorem unknown_macro_verbatim {St : Type} (hasMacro : string -> bool)
    (executeMacro : MacroCall.t (MacroEnv St) -> option (MacroDefinition.t St) ->
                    State (World St) (Completion string))
    (text : string) (env : MacroEnv St) (macroNode : CstNode) (lo hi : Z)
    (layouts : list ArgumentLayout) (w : World St) :
  wellFormedMacro macroNode lo hi layouts ->
  macroName macroNode <> "" ->
  dynamicMacros (properties env) !! macroName macroNode = None ->
  hasMacro (macroName macroNode) = false ->
  let context := EvaluationContext.mk text env (resolveMacro hasMacro executeMacro) in
  (forall call w',
     MacroCall.name call = macroName macroNode -> MacroCall.env call = env ->
     resolveMacro hasMacro executeMacro call w' =
     ("{{" +:+ MacroCall.rawInner call +:+ "}}", w')) /\
  evaluateMacroNode macroNode context w =
  (let (values, w1) :=
     forEach (fun a => forEach (fun m => evaluateMacroNode m context) (nestedMacrosOf a))
       (argumentNodesOf macroNode) w in
   ("{{" +:+ substitute text lo hi (nestedSpans layouts values) +:+ "}}", w1)).
Proof.
  intros Hwf Hname Hdyn Hreg context.
  assert (forall call w',
            MacroCall.name call = macroName macroNode -> MacroCall.env call = env ->
            resolveMacro hasMacro executeMacro call w' =
            ("{{" +:+ MacroCall.rawInner call +:+ "}}", w')) as Hraw.
  { intros call w' Hn He. apply resolveMacro_raw. right.
    unfold defOverrideOf. rewrite Hn, He, Hdyn. by split. }
  split; [exact Hraw|].
  rewrite (evaluateMacroNode_substitutes context macroNode lo hi layouts) by done.
  destruct (forEach _ (argumentNodesOf macroNode) w) as [values w1].
  simpl. by rewrite Hraw.
Qed.

(** The unknown macro of the example keeps its text, with the value of the
    nested [newline] in place of the macro. *)
Lemma unknown_macro_verbatim_witness :
  wellFormedMacro unknownNode 8 38 [Located (17, 38) [(20, 30)]] /\
  macroName unknownNode <> "" /\
  dynamicMacros (properties (EvaluationContext.env unknownContext)) !! macroName unknownNode
    = None /\
  hasMacro testRegistry (macroName unknownNode) = false /\
  evaluateMacroNode unknownNode unknownContext emptyWorld =
  ("{{unknown::my " +:+ String LF " example}}", emptyWorld).
Proof.
  assert (wellFormedMacro unknownNode 8 38 [Located (17, 38) [(20, 30)]]) as H1.
  { unfold wellFormedMacro. split_and!; try reflexivity; try lia.
    - repeat constructor; simpl; lia.
    - simpl. lia. }
  assert (macroName unknownNode <> "") as H2 by done.
  assert (dynamicMacros (properties (EvaluationContext.env unknownContext))
            !! macroName unknownNode = None) as H3 by reflexivity.
  assert (hasMacro testRegistry (macroName unknownNode) = false) as H4 by reflexivity.
  split_and!; [exact H1|exact H2|exact H3|exact H4|].
  destruct (unknown_macro_verbatim (hasMacro testRegistry) (executeMacro testRegistry)
              unknownInput (EvaluationContext.env unknownContext) unknownNode 8 38
              [Located (17, 38) [(20, 30)]] emptyWorld H1 H2 H3 H4) as [_ Heval].
  eapply eq_trans; [exact Heval|]. by vm_compute.
Defined.

(** The whole document of the example evaluates as the engine's test says. *)
Example unknown_macro_document :
  fst (engineEvaluate testRegistry
         (fun _ => mkParseResult (Some unknownDocument) [] [])
         unknownInput (testEnv unknownInput) emptyWorld) =
  "Test: {{unknown::my " +:+ String LF " example}}".
Proof. by vm_compute. Qed.

(** ** Replacement of matches *)

Lemma replaceMatches_skip (matchAt : string -> option (nat * string)) (m rest : string) :
  replaceMatches matchAt (m +:+ rest) (String.length m) = replaceMatches matchAt rest 0.
Proof.
  induction m as [|c m IH]; [by destruct rest|]. simpl. exact IH.
Qed.

(** Where the expression matches nowhere, nothing is replaced. *)
Lemma replaceAll_no_match (matchAt : string -> option (nat * string)) (s : string) :
  (forall p t, s = p +:+ t -> matchAt t = None) -> replaceAll matchAt s = s.
Proof.
  unfold replaceAll. induction s as [|c s IH]; intros H; [done|].
  simpl. rewrite (H "" (String c s) eq_refl). f_equal. apply IH.
  intros p t ->. by apply (H (String c p)).
Qed.

Lemma stripPrefixCI_split (pattern s rest : string) :
  stripPrefixCI pattern s = Some rest ->
  exists T, s = T +:+ rest /\ String.length T = String.length pattern /\
            stripPrefixCI pattern T = Some "".
Proof.
  revert s. induction pattern as [|p pattern IH]; intros s; simpl.
  - intros [= ->]. by exists "".
  - destruct s as [|c s]; [done|]. destruct (sameCharCI p c) eqn:Hc; [|done].
    intros H. destruct (IH s H) as (T & -> & Hlen & HT).
    exists (String c T). simpl. rewrite Hc. split_and!; [done|by f_equal|done].
Qed.

Lemma stripPrefixCI_app (pattern T rest : string) :
  stripPrefixCI pattern T = Some "" -> stripPrefixCI pattern (T +:+ rest) = Some rest.
Proof.
  revert T. induction pattern as [|p pattern IH]; intros T; simpl.
  - by intros [= ->].
  - destruct T as [|c T]; [done|]. simpl. destruct (sameCharCI p c); [|done]. apply IH.
Qed.

Lemma occursCI_false (pattern s p t : string) :
  occursCI pattern s = false -> s = p +:+ t -> stripPrefixCI pattern t = None.
Proof.
  revert s. induction p as [|c p IH]; intros s Hocc ->.
  - simpl. destruct t; simpl in Hocc; by destruct (stripPrefixCI pattern _).
  - simpl in Hocc. destruct (stripPrefixCI pattern (String c (p +:+ t))); [done|].
    by apply (IH (p +:+ t)).
Qed.

Lemma occursCI_suffix (pattern p t : string) :
  occursCI pattern (p +:+ t) = false -> occursCI pattern t = false.
Proof.
  induction p as [|c p IH]; [done|]. simpl.
  destruct (stripPrefixCI pattern (String c (p +:+ t))); [done|]. exact IH.
Qed.

Lemma stripPrefixCI_shorter (pattern pattern' s : string) :
  stripPrefixCI (pattern +:+ pattern') s <> None -> stripPrefixCI pattern s <> None.
Proof.
  revert s. induction pattern as [|p pattern IH]; intros s; simpl; [done|].
  destruct s as [|c s]; [done|]. destruct (sameCharCI p c); [apply IH|done].
Qed.

(** A literal that does not occur is not replaced. *)
Lemma replaceAll_literal_absent (pattern replacement s : string) :
  occursCI pattern s = false -> replaceAll (matchLiteralCI pattern replacement) s = s.
Proof.
  intros Hocc. apply replaceAll_no_match. intros p t Hs.
  unfold matchLiteralCI. by rewrite (occursCI_false pattern s p t).
Qed.

Lemma replaceAll_time_absent (s : string) :
  occursCI "{{" s = false -> replaceAll matchLegacyTime s = s.
Proof.
  intros Hocc. apply replaceAll_no_match. intros p t Hs.
  unfold matchLegacyTime.
  destruct (stripPrefixCI "{{time_" t) eqn:Ht; [|done].
  exfalso. apply (stripPrefixCI_shorter "{{" "time_" t); [|by apply (occursCI_false "{{" s p t)].
  change ("{{" +:+ "time_") with "{{time_". by rewrite Ht.
Qed.

Lemma replaceAll_escape_absent (s : string) :
  occursCI "\{" s = false -> occursCI "\}" s = false ->
  replaceAll matchEscapedBrace s = s.
Proof.
  intros H1 H2. apply replaceAll_no_match. intros p t Hs.
  pose proof (occursCI_false _ s p t H1 Hs) as Ha.
  pose proof (occursCI_false _ s p t H2 Hs) as Hb.
  unfold matchEscapedBrace. destruct t as [|c [|c' t]]; [done|by destruct c as [[] [] [] [] [] [] [] []]|].
  destruct (Ascii.eqb_spec c "\"); [subst|by destruct c as [[] [] [] [] [] [] [] []]].
  destruct (Ascii.eqb_spec c' "{"); [subst; simpl in Ha; done|].
  destruct (Ascii.eqb_spec c' "}"); [subst; simpl in Hb; done|]. done.
Qed.

(** ** The trim token *)

Lemma string_pair_ind (P : string -> Prop) :
  P "" -> (forall c, P (String c "")) ->
  (forall c c' s, P s -> P (String c' s) -> P (String c (String c' s))) ->
  forall s, P s.
Proof.
  intros H0 H1 H2 s.
  assert (P s /\ forall c, P (String c s)) as [H _]; [|exact H].
  induction s as [|c s [IH1 IH2]]; [by split|]. split; [apply IH2|].
  intros c'. by apply H2.
Qed.

Lemma skipNewlines_LF (s : string) :
  skipNewlines (String LF s) = (S (fst (skipNewlines s)), snd (skipNewlines s)).
Proof. simpl. by destruct (skipNewlines s). Qed.

Lemma skipNewlines_CRLF (s : string) :
  skipNewlines (String CR (String LF s)) = (S (S (fst (skipNewlines s))), snd (skipNewlines s)).
Proof. simpl. by destruct (skipNewlines s). Qed.

Lemma skipNewlines_CR (c : ascii) (s : string) :
  c <> LF -> skipNewlines (String CR (String c s)) = (0%nat, String CR (String c s)).
Proof. intros Hc. simpl. by destruct (Ascii.eqb_spec c LF). Qed.

Lemma skipNewlines_other (c : ascii) (s : string) :
  c <> LF -> c <> CR -> skipNewlines (String c s) = (0%nat, String c s).
Proof.
  intros Hc Hc'. simpl.
  destruct (Ascii.eqb_spec c LF); [done|]. by destruct (Ascii.eqb_spec c CR).
Qed.

(** [skipNewlines] splits its argument into a run of line breaks and a rest
    that begins with no line break. *)
Lemma skipNewlines_split (s : string) :
  exists L, s = L +:+ snd (skipNewlines s) /\
            String.length L = fst (skipNewlines s) /\
            isNewlineRun L /\
            fst (skipNewlines (snd (skipNewlines s))) = 0%nat.
Proof.
  unfold isNewlineRun. induction s as [|c|c c' s IH1 IH2] using string_pair_ind.
  - by exists "".
  - destruct (Ascii.eqb_spec c LF) as [->|Hc]; [by exists (String LF "")|].
    exists "". destruct (Ascii.eqb_spec c CR) as [->|Hc']; [done|].
    by repeat (rewrite (skipNewlines_other c "" Hc Hc'); cbn [fst snd]).
  - destruct (Ascii.eqb_spec c LF) as [->|Hc].
    + destruct IH2 as (L & HL & Hlen & Hrun & Hrest).
      exists (String LF L). rewrite !skipNewlines_LF. cbn [fst snd].
      split_and!; [|cbn [String.length]; by f_equal|done|done].
      change (String LF L +:+ ?r) with (String LF (L +:+ r)). by rewrite <- HL.
    + destruct (Ascii.eqb_spec c CR) as [->|Hc'].
      * destruct (Ascii.eqb_spec c' LF) as [->|Hc''].
        -- destruct IH1 as (L & HL & Hlen & Hrun & Hrest).
           exists (String CR (String LF L)). rewrite !skipNewlines_CRLF. cbn [fst snd].
           split_and!; [|cbn [String.length]; by do 2 f_equal|done|done].
           change (String CR (String LF L) +:+ ?r) with (String CR (String LF (L +:+ r))).
           by rewrite <- HL.
        -- exists "". by repeat (rewrite (skipNewlines_CR c' s Hc''); cbn [fst snd]).
      * exists "". by repeat (rewrite (skipNewlines_other c _ Hc Hc'); cbn [fst snd]).
Qed.

(** A run of line breaks is read in one way: what stands behind it does not
    change how it is read. *)
Lemma skipNewlines_app_run (L x : string) :
  isNewlineRun L ->
  skipNewlines (L +:+ x) = ((String.length L + fst (skipNewlines x))%nat, snd (skipNewlines x)).
Proof.
  unfold isNewlineRun. induction L as [|c|c c' L IH1 IH2] using string_pair_ind.
  - intros _. change ("" +:+ x) with x. by destruct (skipNewlines x).
  - destruct (Ascii.eqb_spec c LF) as [->|Hc].
    + intros _. change (String LF "" +:+ x) with (String LF x).
      by rewrite skipNewlines_LF.
    + destruct (Ascii.eqb_spec c CR) as [->|Hc']; [done|].
      by rewrite (skipNewlines_other c "" Hc Hc').
  - destruct (Ascii.eqb_spec c LF) as [->|Hc].
    + rewrite skipNewlines_LF. cbn [snd]. intros Hrun.
      change (String LF (String c' L) +:+ x) with (String LF (String c' L +:+ x)).
      by rewrite skipNewlines_LF, (IH2 Hrun).
    + destruct (Ascii.eqb_spec c CR) as [->|Hc'].
      * destruct (Ascii.eqb_spec c' LF) as [->|Hc''].
        -- rewrite skipNewlines_CRLF. cbn [snd]. intros Hrun.
           change (String CR (String LF L) +:+ x) with (String CR (String LF (L +:+ x))).
           by rewrite skipNewlines_CRLF, (IH1 Hrun).
        -- by rewrite (skipNewlines_CR c' L Hc'').
      * by rewrite (skipNewlines_other c _ Hc Hc').
Qed.

Lemma sameCharCI_brace (c : ascii) : sameCharCI "{" c = true -> c = "{"%char.
Proof.
  destruct c as [[] [] [] [] [] [] [] []]; vm_compute; congruence.
Qed.

(** The token begins with a brace, which is no line break. *)
Lemma skipNewlines_token (T x : string) :
  isTrimToken T -> skipNewlines (T +:+ x) = (0%nat, T +:+ x).
Proof.
  unfold isTrimToken. destruct T as [|c T]; [done|]. simpl.
  destruct (sameCharCI "{" c) eqn:Hc; [|done]. by rewrite (sameCharCI_brace c Hc).
Qed.

Lemma trimToken_length (T : string) : isTrimToken T -> String.length T = 8%nat.
Proof.
  intros HT. destruct (stripPrefixCI_split _ _ _ HT) as (T' & -> & Hlen & _).
  by rewrite str_app_nil_r.
Qed.

(** The expression at a match: the token behind a run of line breaks is
    removed with that run and with the whole run behind it. *)
Lemma matchTrim_match (L T R rest : string) :
  isNewlineRun L -> isTrimToken T -> isNewlineRun R ->
  fst (skipNewlines rest) = 0%nat ->
  matchTrim (L +:+ T +:+ R +:+ rest) = Some (String.length (L +:+ T +:+ R), "").
Proof.
  intros HL HT HR Hrest. unfold matchTrim.
  rewrite (skipNewlines_app_run L _ HL), (skipNewlines_token T _ HT). cbv beta iota; cbn [fst snd].
  rewrite (stripPrefixCI_app _ T _ HT), (skipNewlines_app_run R _ HR), Hrest. cbv beta iota; cbn [fst snd].
  rewrite !str_length_app, (trimToken_length T HT). do 2 f_equal. lia.
Qed.

Lemma matchTrim_at (s : string) : trimMatchAt s -> matchTrim s <> None.
Proof.
  intros (L & T & rest & -> & HL & HT). unfold matchTrim.
  rewrite (skipNewlines_app_run L _ HL), (skipNewlines_token T _ HT). cbv beta iota; cbn [fst snd].
  rewrite (stripPrefixCI_app _ T _ HT). by destruct (skipNewlines rest).
Qed.

Lemma matchTrim_Some (s : string) (n : nat) (r : string) :
  matchTrim s = Some (n, r) ->
  r = "" /\
  exists L T R rest, s = L +:+ T +:+ R +:+ rest /\ n = String.length (L +:+ T +:+ R) /\
    isNewlineRun L /\ isTrimToken T /\ isNewlineRun R /\ fst (skipNewlines rest) = 0%nat.
Proof.
  unfold matchTrim. intros H.
  destruct (skipNewlines_split s) as (L & HsL & HlenL & HL & _).
  destruct (skipNewlines s) as [before atToken]. cbn [fst snd] in *.
  destruct (stripPrefixCI "{{trim}}" atToken) as [afterToken|] eqn:HT; [|done].
  destruct (stripPrefixCI_split _ _ _ HT) as (T & -> & HlenT & HT').
  destruct (skipNewlines_split afterToken) as (R & HsR & HlenR & HR & Hrest).
  destruct (skipNewlines afterToken) as [after rest]. cbn [fst snd] in *.
  injection H as <- <-. split; [done|].
  exists L, T, R, rest. split_and!; try done.
  - by rewrite HsL, HsR.
  - rewrite !str_length_app, HlenL, HlenT, HlenR. cbn [String.length]. lia.
Qed.

Lemma matchTrim_None (s : string) : ~ trimMatchAt s -> matchTrim s = None.
Proof.
  intros Hno. destruct (matchTrim s) as [[n r]|] eqn:H; [|done].
  destruct (matchTrim_Some s n r H) as (_ & L & T & R & rest & -> & _ & HL & HT & _).
  exfalso. apply Hno. by exists L, T, (R +:+ rest).
Qed.

(** Replacing the matches of the expression, step by step. *)
Lemma replaceAll_trim_match (L T R rest : string) :
  isNewlineRun L -> isTrimToken T -> isNewlineRun R ->
  fst (skipNewlines rest) = 0%nat ->
  replaceAll matchTrim (L +:+ T +:+ R +:+ rest) = replaceAll matchTrim rest.
Proof.
  intros HL HT HR Hrest. unfold replaceAll.
  pose proof (matchTrim_match L T R rest HL HT HR Hrest) as Hm.
  assert (L +:+ T +:+ R +:+ rest = (L +:+ T +:+ R) +:+ rest) as Hassoc
    by (by rewrite !str_app_assoc).
  assert (0 < String.length (L +:+ T +:+ R))%nat as Hpos
    by (rewrite !str_length_app, (trimToken_length T HT); lia).
  rewrite Hassoc in Hm |- *.
  destruct (L +:+ T +:+ R) as [|c m]; [simpl in Hpos; lia|].
  change (String c m +:+ rest) with (String c (m +:+ rest)) in Hm |- *.
  cbn [replaceMatches]. rewrite Hm. simpl String.length. simpl Nat.pred.
  by rewrite replaceMatches_skip.
Qed.

Lemma replaceAll_trim_keep (c : ascii) (s : string) :
  ~ trimMatchAt (String c s) ->
  replaceAll matchTrim (String c s) = String c (replaceAll matchTrim s).
Proof.
  intros Hno. unfold replaceAll. cbn [replaceMatches]. by rewrite (matchTrim_None _ Hno).
Qed.

Lemma replaceAll_Trimmed_length (n : nat) (s : string) :
  (String.length s <= n)%nat -> Trimmed s (replaceAll matchTrim s).
Proof.
  revert s. induction n as [|n IH]; intros s Hn.
  - destruct s; [constructor|simpl in Hn; lia].
  - destruct s as [|c s]; [constructor|].
    destruct (matchTrim (String c s)) as [[k r]|] eqn:Hm.
    + destruct (matchTrim_Some _ _ _ Hm) as (_ & L & T & R & rest & Hs & _ & HL & HT & HR & Hrest).
      rewrite Hs, (replaceAll_trim_match L T R rest HL HT HR Hrest).
      apply trimmed_match; try done. apply IH.
      apply (f_equal String.length) in Hs. rewrite !str_length_app in Hs.
      rewrite (trimToken_length T HT) in Hs. simpl in Hs, Hn. lia.
    + assert (~ trimMatchAt (String c s)) as Hno
        by (intros Hat; by apply (matchTrim_at _ Hat)).
      rewrite (replaceAll_trim_keep c s Hno). apply trimmed_keep; [done|].
      apply IH. simpl in Hn. lia.
Qed.

Lemma replaceAll_Trimmed (s : string) : Trimmed s (replaceAll matchTrim s).
Proof. by apply (replaceAll_Trimmed_length (String.length s)). Qed.

Lemma Trimmed_replaceAll (s out : string) : Trimmed s out -> replaceAll matchTrim s = out.
Proof.
  induction 1 as [|L T R rest out HL HT HR Hrest _ IH|c s out Hno _ IH]; [done| |].
  - by rewrite (replaceAll_trim_match L T R rest HL HT HR Hrest).
  - by rewrite (replaceAll_trim_keep c s Hno), IH.
Qed.

(** Where no [{{] occurs there is no trim token. *)
Lemma replaceAll_trim_absent (s : string) :
  occursCI "{{" s = false -> replaceAll matchTrim s = s.
Proof.
  intros Hocc. apply replaceAll_no_match. intros p t Hs.
  destruct (matchTrim t) as [[n r]|] eqn:Hm; [|done]. exfalso.
  destruct (matchTrim_Some _ _ _ Hm) as (_ & L & T & R & rest & -> & _ & _ & HT & _).
  assert (stripPrefixCI "{{" (T +:+ R +:+ rest) = None) as Hnone.
  { apply (occursCI_false "{{" s (p +:+ L)); [done|]. by rewrite Hs, str_app_assoc. }
  apply (stripPrefixCI_shorter "{{" "trim}}" (T +:+ R +:+ rest)); [|done].
  change ("{{" +:+ "trim}}") with "{{trim}}".
  by rewrite (stripPrefixCI_app _ T _ HT).
Qed.

(** Where the token does not occur, nothing is removed. *)
Lemma replaceAll_trim_none (s : string) :
  occursCI "{{trim}}" s = false -> replaceAll matchTrim s = s.
Proof.
  intros Hocc. apply replaceAll_no_match. intros p t Hs.
  destruct (matchTrim t) as [[n r]|] eqn:Hm; [|done]. exfalso.
  destruct (matchTrim_Some _ _ _ Hm) as (_ & L & T & R & rest & -> & _ & _ & HT & _).
  assert (stripPrefixCI "{{trim}}" (T +:+ R +:+ rest) = None) as Hnone.
  { apply (occursCI_false "{{trim}}" s (p +:+ L)); [done|]. by rewrite Hs, str_app_assoc. }
  by rewrite (stripPrefixCI_app _ T _ HT) in Hnone.
Qed.

Lemma stripPrefixCI_within (pattern a b : string) :
  (String.length pattern <= String.length a)%nat ->
  stripPrefixCI pattern a = None -> stripPrefixCI pattern (a +:+ b) = None.
Proof.
  revert a. induction pattern as [|p pattern IH]; intros a Hlen H; [done|].
  destruct a as [|c a]; [simpl in Hlen; lia|].
  change (String c a +:+ b) with (String c (a +:+ b)). simpl in H |- *.
  destruct (sameCharCI p c); [|done]. apply IH; [simpl in Hlen; lia|done].
Qed.

(** Behind a text that begins with no line break, the token is not reached
    by a run of line breaks. *)
Lemma skipNewlines_blocked (r T x : string) :
  r <> "" -> fst (skipNewlines r) = 0%nat -> isTrimToken T ->
  skipNewlines (r +:+ T +:+ x) = (0%nat, r +:+ T +:+ x).
Proof.
  intros Hr Hfst HT. destruct r as [|c r]; [done|].
  change (String c r +:+ T +:+ x) with (String c (r +:+ T +:+ x)).
  destruct (Ascii.eqb_spec c LF) as [->|Hc].
  { by rewrite skipNewlines_LF in Hfst. }
  destruct (Ascii.eqb_spec c CR) as [->|Hc']; [|by apply skipNewlines_other].
  destruct r as [|c' r].
  - change ("" +:+ T +:+ x) with (T +:+ x).
    destruct T as [|t T]; [done|]. unfold isTrimToken in HT. simpl in HT.
    destruct (sameCharCI "{" t) eqn:Ht; [|done]. rewrite (sameCharCI_brace t Ht).
    change (String "{" T +:+ x) with (String "{" (T +:+ x)). by apply skipNewlines_CR.
  - change (String c' r +:+ T +:+ x) with (String c' (r +:+ T +:+ x)).
    destruct (Ascii.eqb_spec c' LF) as [->|Hc''].
    + by rewrite skipNewlines_CRLF in Hfst.
    + by apply skipNewlines_CR.
Qed.

Lemma matchTrim_before (pre T post : string) :
  isTrimToken T -> firstTrimToken pre T ->
  snd (skipNewlines pre) <> "" ->
  matchTrim (pre +:+ T +:+ post) = None.
Proof.
  intros HT Hfirst Hrun.
  destruct (skipNewlines_split pre) as (L & Hpre & _ & HL & Hrest).
  set (r := snd (skipNewlines pre)) in *.
  unfold matchTrim. rewrite Hpre, str_app_assoc, (skipNewlines_app_run L _ HL).
  rewrite (skipNewlines_blocked r T post Hrun Hrest HT). cbv beta iota; cbn [fst snd].
  rewrite <- str_app_assoc, stripPrefixCI_within; [done| |by apply (Hfirst L r)].
  rewrite str_length_app, (trimToken_length T HT). simpl. lia.
Qed.

(** The first token of a text: the text before it is kept up to the run of
    line breaks at its end, and the removal goes on behind the run of line
    breaks that follows the token. *)
Lemma replaceAll_trim_first (pre T post : string) :
  isTrimToken T -> firstTrimToken pre T ->
  replaceAll matchTrim (pre +:+ T +:+ post) =
  dropTrailingRun pre +:+ replaceAll matchTrim (snd (skipNewlines post)).
Proof.
  intros HT. induction pre as [|c pre IH]; intros Hfirst.
  - destruct (skipNewlines_split post) as (R & Hpost & _ & HR & Hrest).
    rewrite Hpost at 1. by apply (replaceAll_trim_match "" T R).
  - cbn [dropTrailingRun]. destruct (String.eqb_spec (snd (skipNewlines (String c pre))) "")
      as [Hrun|Hrun].
    + destruct (skipNewlines_split post) as (R & Hpost & _ & HR & Hrest).
      rewrite Hpost at 1. by apply (replaceAll_trim_match (String c pre) T R).
    + change (String c pre +:+ T +:+ post) with (String c (pre +:+ T +:+ post)).
      unfold replaceAll. cbn [replaceMatches].
      change (String c (pre +:+ T +:+ post)) with (String c pre +:+ T +:+ post).
      rewrite (matchTrim_before (String c pre) T post HT Hfirst Hrun).
      change (String c (dropTrailingRun pre) +:+ ?x) with (String c (dropTrailingRun pre +:+ x)).
      f_equal. apply IH. intros p t -> Ht. by apply (Hfirst (String c p) t).
Qed.

(** ** The trim token written out, and the matcher *)

Lemma sameCharCI_close (c : ascii) : sameCharCI "}" c = true -> c = "}"%char.
Proof. destruct c as [[] [] [] [] [] [] [] []]; vm_compute; congruence. Qed.

Lemma sameCharCI_t (c : ascii) : sameCharCI "t" c = true -> eitherCase "t" "T" c.
Proof.
  unfold eitherCase. destruct c as [[] [] [] [] [] [] [] []]; vm_compute; intros; try discriminate; auto.
Qed.

Lemma sameCharCI_r (c : ascii) : sameCharCI "r" c = true -> eitherCase "r" "R" c.
Proof.
  unfold eitherCase. destruct c as [[] [] [] [] [] [] [] []]; vm_compute; intros; try discriminate; auto.
Qed.

Lemma sameCharCI_i (c : ascii) : sameCharCI "i" c = true -> eitherCase "i" "I" c.
Proof.
  unfold eitherCase. destruct c as [[] [] [] [] [] [] [] []]; vm_compute; intros; try discriminate; auto.
Qed.

Lemma sameCharCI_m (c : ascii) : sameCharCI "m" c = true -> eitherCase "m" "M" c.
Proof.
  unfold eitherCase. destruct c as [[] [] [] [] [] [] [] []]; vm_compute; intros; try discriminate; auto.
Qed.

(** The matcher's token is the token [{{trim}}] with each letter small or
    capital, and nothing else. *)
Lemma isTrimToken_iff (T : string) : isTrimToken T <-> TrimToken T.
Proof.
  split.
  - unfold isTrimToken.
    destruct T as [|c1 [|c2 [|c3 [|c4 [|c5 [|c6 [|c7 [|c8 T]]]]]]]]; cbn [stripPrefixCI];
      repeat (match goal with
              | |- (if ?b then _ else _) = _ -> _ => destruct b eqn:?; [|done]
              end); try done.
    intros [= ->].
    repeat match goal with
           | H : sameCharCI "{" _ = true |- _ => apply sameCharCI_brace in H; subst
           | H : sameCharCI "}" _ = true |- _ => apply sameCharCI_close in H; subst
           | H : sameCharCI "t" _ = true |- _ => apply sameCharCI_t in H
           | H : sameCharCI "r" _ = true |- _ => apply sameCharCI_r in H
           | H : sameCharCI "i" _ = true |- _ => apply sameCharCI_i in H
           | H : sameCharCI "m" _ = true |- _ => apply sameCharCI_m in H
           end.
    by constructor.
  - intros [t r i m [-> | ->] [-> | ->] [-> | ->] [-> | ->]]; reflexivity.
Qed.

Lemma isNewlineRun_iff (L : string) : isNewlineRun L <-> LineBreaks L.
Proof.
  split.
  - unfold isNewlineRun. induction L as [|c|c c' L IH1 IH2] using string_pair_ind.
    + constructor.
    + destruct (Ascii.eqb_spec c LF) as [->|Hc]; [intros _; repeat constructor|].
      destruct (Ascii.eqb_spec c CR) as [->|Hc']; [done|].
      by rewrite (skipNewlines_other c "" Hc Hc').
    + destruct (Ascii.eqb_spec c LF) as [->|Hc].
      * rewrite skipNewlines_LF. cbn [snd]. intros H. constructor. by apply IH2.
      * destruct (Ascii.eqb_spec c CR) as [->|Hc'].
        -- destruct (Ascii.eqb_spec c' LF) as [->|Hc''].
           ++ rewrite skipNewlines_CRLF. cbn [snd]. intros H. constructor. by apply IH1.
           ++ by rewrite (skipNewlines_CR c' L Hc'').
        -- by rewrite (skipNewlines_other c _ Hc Hc').
  - unfold isNewlineRun. induction 1 as [|s _ IH|s _ IH]; [done| |].
    + change "010"%char with LF. by rewrite skipNewlines_LF.
    + change "010"%char with LF. change "013"%char with CR. by rewrite skipNewlines_CRLF.
Qed.

Lemma beginsWithLineBreak_iff (s : string) :
  fst (skipNewlines s) = 0%nat <-> ~ beginsWithLineBreak s.
Proof.
  split.
  - intros H (rest & [-> | ->]).
    + change "010"%char with LF in H. by rewrite skipNewlines_LF in H.
    + change "010"%char with LF in H. change "013"%char with CR in H.
      by rewrite skipNewlines_CRLF in H.
  - intros H. destruct s as [|c s]; [done|].
    destruct (Ascii.eqb_spec c LF) as [->|Hc]; [exfalso; apply H; exists s; by left|].
    destruct (Ascii.eqb_spec c CR) as [->|Hc']; [|by rewrite skipNewlines_other].
    destruct s as [|c' s]; [done|].
    destruct (Ascii.eqb_spec c' LF) as [->|Hc'']; [exfalso; apply H; exists s; by right|].
    by rewrite skipNewlines_CR.
Qed.

Lemma trimMatchAt_iff (s : string) : trimMatchAt s <-> trimBeginsAt s.
Proof.
  split.
  - intros (L & T & rest & -> & HL & HT). exists L, T, rest.
    split_and!; [by apply isNewlineRun_iff|by apply isTrimToken_iff|done].
  - intros (L & T & rest & HL & HT & ->). exists L, T, rest.
    split_and!; [done|by apply isNewlineRun_iff|by apply isTrimToken_iff].
Qed.

Lemma Trimmed_iff (s out : string) : Trimmed s out <-> TrimRemoved s out.
Proof.
  split.
  - induction 1 as [|L T R rest out HL HT HR Hrest _ IH|c s out Hno _ IH].
    + constructor.
    + apply removed_token; [by apply isNewlineRun_iff|by apply isTrimToken_iff|
                            by apply isNewlineRun_iff|by apply beginsWithLineBreak_iff|done].
    + apply removed_keep; [|done]. intros H. by apply Hno, trimMatchAt_iff.
  - induction 1 as [|L T R rest out HL HT HR Hrest _ IH|c s out Hno _ IH].
    + constructor.
    + apply trimmed_match; [by apply isNewlineRun_iff|by apply isTrimToken_iff|
                            by apply isNewlineRun_iff|by apply beginsWithLineBreak_iff|done].
    + apply trimmed_keep; [|done]. intros H. by apply Hno, trimMatchAt_iff.
Qed.

Lemma noTrimToken_occurs (s : string) : noTrimToken s -> occursCI "{{trim}}" s = false.
Proof.
  intros Hno. destruct (occursCI "{{trim}}" s) eqn:Hocc; [|done]. exfalso.
  induction s as [|c s IH]; [done|].
  cbn [occursCI] in Hocc.
  destruct (stripPrefixCI "{{trim}}" (String c s)) as [rest|] eqn:Hstrip.
  - destruct (stripPrefixCI_split _ _ _ Hstrip) as (T & HT & _ & Hmatch).
    apply (Hno "" T rest); [by apply isTrimToken_iff|done].
  - apply IH; [|done]. intros p T t HT ->. by apply (Hno (String c p) T t).
Qed.

(** C7. Post-processing follows the walk: the text the walker gives has its
    escaped braces unescaped first and the trim tokens removed after that.
    The removal leaves out, from left to right, every token [{{trim}}], its
    letters small or capital, together with the run of line breaks (line
    feeds, or carriage returns with a line feed) before it and the whole run
    of line breaks behind it, and keeps every other character. A text in
    which no such token occurs is left as it is. The token is in the walker's
    text because the registered handler of [trim] returns the token itself.
    The input [foo\n\n{{trim}}\n\nbar] evaluates to [foobar]. *)
Theorem trim_post_processing {St : Type} (hasMacro : string -> bool)
    (execute : MacroCall.t (MacroEnv St) -> option (MacroDefinition.t St) ->
               State (World St) (Completion string))
    (parseDocument : string -> ParseResult)
    (input : string) (env : MacroEnv St) (w : World St) (document : CstNode) :
  input <> "" ->
  let safeEnv := freeze (spread env) in
  let preProcessed := runPreProcessors input safeEnv in
  let parsed := parseDocument preProcessed in
  cst parsed = Some document ->
  (let w1 := snd (logMacroSyntaxWarning "parsing" input (parserErrors parsed)
                    (snd (logMacroSyntaxWarning "lexing" input (lexingErrors parsed) w))) in
   let (evaluated, w2) :=
     evaluateDocument
       (EvaluationContext.mk preProcessed safeEnv (resolveMacro hasMacro execute))
       document w1 in
   evaluate hasMacro execute parseDocument input env w =
   (replaceAll matchTrim (replaceAll matchEscapedBrace evaluated), w2)) /\
  (forall s out, TrimRemoved s out <-> replaceAll matchTrim s = out) /\
  (forall s, noTrimToken s -> replaceAll matchTrim s = s) /\
  (coreRegistry !! "trim" = Some (trimMacro (St := St)) /\
   forall (handlerContext : HandlerContext St) w',
     MacroDefinition.handler trimMacro handlerContext w' =
     (Returns (JsString "{{trim}}"), w')) /\
  fst (engineEvaluate testRegistry trimParser trimInput (testEnv trimInput) emptyWorld) =
  "foobar".
Proof.
  intros Hinput safeEnv preProcessed parsed Hcst. split_and!.
  - unfold evaluate. destruct (String.eqb_spec input ""); [done|].
    fold safeEnv. fold preProcessed. fold parsed. rewrite Hcst.
    unfold bind, ret.
    destruct (logMacroSyntaxWarning "lexing" input (lexingErrors parsed) w) as [u wa].
    cbn [snd].
    destruct (logMacroSyntaxWarning "parsing" input (parserErrors parsed) wa) as [u' wb].
    cbn [snd]. by destruct (evaluateDocument _ document wb).
  - intros s out. rewrite <- Trimmed_iff.
    split; [apply Trimmed_replaceAll|intros <-; apply replaceAll_Trimmed].
  - intros s Hno. by apply replaceAll_trim_none, noTrimToken_occurs.
  - reflexivity.
  - done.
  - by vm_compute.
Qed.

(** The example of the specification, and a text with two tokens in
    different case and line breaks of both kinds: the first token goes with
    the line break before it and the two behind it, the second has none. *)
Lemma trim_post_processing_witness :
  (let (evaluated, w2) :=
     evaluateDocument
       (EvaluationContext.mk trimInput (freeze (spread (testEnv trimInput)))
          (resolveMacro (hasMacro testRegistry) (executeMacro testRegistry)))
       trimDocument emptyWorld in
   engineEvaluate testRegistry trimParser trimInput (testEnv trimInput) emptyWorld =
   (replaceAll matchTrim (replaceAll matchEscapedBrace evaluated), w2)) /\
  evaluateDocument
    (EvaluationContext.mk trimInput (freeze (spread (testEnv trimInput)))
       (resolveMacro (hasMacro testRegistry) (executeMacro testRegistry)))
    trimDocument emptyWorld = (trimInput, emptyWorld) /\
  TrimRemoved mixedTrimText "ab" /\
  replaceAll matchTrim mixedTrimText = "ab".
Proof.
  pose proof (trim_post_processing (hasMacro testRegistry) (executeMacro testRegistry)
                trimParser trimInput (testEnv trimInput) emptyWorld trimDocument
                ltac:(by vm_compute) eq_refl) as (Hevaluate & Hremoved & _).
  assert (TrimRemoved mixedTrimText "ab") as Hmixed.
  { unfold mixedTrimText. change ("a" +:+ ?x) with (String "a" x).
    apply removed_keep.
    - intros (L & T & rest & HL & HT & Heq).
      destruct HL as [| |]; [destruct HT; done|done|done].
    - apply (removed_token (String CR (String LF "")) "{{TrIm}}"
               (String LF (String CR (String LF ""))) "b{{trim}}" "b").
      + repeat constructor.
      + constructor; unfold eitherCase; auto.
      + repeat constructor.
      + intros (rest & [?|?]); done.
      + apply removed_keep.
        * intros (L & T & rest & HL & HT & Heq).
          destruct HL as [| |]; [destruct HT; done|done|done].
        * apply (removed_token "" "{{trim}}" "" "" "").
          -- constructor.
          -- constructor; unfold eitherCase; auto.
          -- constructor.
          -- intros (rest & [?|?]); done.
          -- constructor. }
  split_and!; [exact Hevaluate|by vm_compute|exact Hmixed|by apply Hremoved].
Defined.

(** Two tokens, in different case, with line breaks of both kinds. *)
Example trim_removal_sample :
  replaceAll matchTrim
    ("a" +:+ String LF ("{{TRIM}}" +:+ String CR (String LF (String LF
       ("b" +:+ String CR ("{{trim}}" +:+ String LF "c")))))) =
  "ab" +:+ String CR "c".
Proof. reflexivity. Qed.

(** ** Documents of plaintext *)

Lemma slice_beyond (s : string) (b : Z) : strlen s <= b -> slice s (Num 0) (Num b) = s.
Proof.
  intros Hb. assert (0 <= strlen s) by (unfold strlen; lia).
  rewrite <- (slice_join s 0 (strlen s) b) by lia.
  by rewrite slice_whole, slice_past_end, str_app_nil_r by lia.
Qed.

Lemma collectPlaintext_fold (elements : list CstElement) (items : list DocumentItem.t) :
  fold_left collectPlaintext elements items = items ++ plaintextItems elements.
Proof.
  unfold plaintextItems. revert items.
  induction elements as [|element elements IH]; intros items; simpl.
  - by rewrite app_nil_r.
  - rewrite (IH (collectPlaintext items element)), (IH (collectPlaintext [] element)).
    rewrite app_assoc. f_equal.
    destruct element as [tok|node]; simpl; [|by rewrite app_nil_r].
    destruct (IToken.endOffset tok); by rewrite ?app_nil_r.
Qed.

Lemma tokensFrom_cons (cursor : Z) (element : CstElement) (rest : list CstElement) :
  tokensFrom cursor (element :: rest) = true ->
  exists tok s e, element = inl tok /\ IToken.startOffset tok = Num s /\
    IToken.endOffset tok = Some (Num e) /\ cursor <= s /\ s <= e /\
    tokensFrom (e + 1) rest = true /\
    plaintextItems (element :: rest) =
    DocumentItem.mk (plaintext tok) (Num s) (Num e) :: plaintextItems rest.
Proof.
  simpl. destruct element as [tok|node]; [|done].
  destruct (IToken.startOffset tok) as [s|] eqn:Hs; [|done].
  destruct (IToken.endOffset tok) as [[e|]|] eqn:He; try done.
  rewrite !andb_true_iff, !Z.leb_le. intros [[Hc Hse] Hrest].
  exists tok, s, e. split_and!; try done.
  unfold plaintextItems at 1. simpl. by rewrite He, collectPlaintext_fold, Hs.
Qed.

Lemma plaintextItems_from (cursor : Z) (elements : list CstElement) :
  tokensFrom cursor elements = true ->
  Forall (fun item => exists s, DocumentItem.startOffset item = Num s /\ cursor <= s)
    (plaintextItems elements).
Proof.
  revert cursor. induction elements as [|element rest IH]; intros cursor H; [constructor|].
  destruct (tokensFrom_cons _ _ _ H) as (tok & s & e & _ & _ & _ & Hc & Hse & Hrest & ->).
  constructor; [by exists s|].
  eapply Forall_impl; [exact (IH _ Hrest)|].
  intros item (s' & Hs' & Hle). exists s'. split; [done|lia].
Qed.

Lemma plaintextItems_sorted (cursor : Z) (elements : list CstElement) :
  tokensFrom cursor elements = true ->
  Sorted (mayPrecede compareItems) (plaintextItems elements).
Proof.
  revert cursor. induction elements as [|element rest IH]; intros cursor H; [constructor|].
  destruct (tokensFrom_cons _ _ _ H) as (tok & s & e & _ & _ & _ & Hc & Hse & Hrest & ->).
  constructor; [exact (IH _ Hrest)|].
  pose proof (plaintextItems_from _ _ Hrest) as Hfrom.
  destruct Hfrom as [|item items (s' & Hs' & Hle) _]; constructor.
  unfold mayPrecede, comesAfter, compareItems. simpl. rewrite Hs'. simpl.
  destruct (Z.eqb_spec s s'); [lia|]. simpl. apply Z.ltb_ge. lia.
Qed.

Section PlainWalk.
Context {Env W : Type}.
Variable context : EvaluationContext.t Env W.

(** The walk over plaintext tokens copies the text from the cursor up to the
    end of the last token. *)
Lemma walkItems_plain (elements : list CstElement) (cursor : Z) :
  tokensFrom cursor elements = true -> 0 <= cursor ->
  exists final, cursor <= final /\
    forall result w,
      walkItems context (plaintextItems elements) result (Num cursor) w =
      ((result +:+ slice (EvaluationContext.text context) (Num cursor) (Num final),
        Num final), w).
Proof.
  revert cursor. induction elements as [|element rest IH]; intros cursor H Hcursor.
  - exists cursor. split; [lia|]. intros result w. simpl.
    by rewrite slice_same, str_app_nil_r.
  - destruct (tokensFrom_cons _ _ _ H) as (tok & s & e & _ & _ & _ & Hc & Hse & Hrest & ->).
    destruct (IH (e + 1) Hrest) as (final & Hfinal & Hwalk); [lia|].
    exists final. split; [lia|]. intros result w.
    cbn [walkItems DocumentItem.startOffset DocumentItem.endOffset DocumentItem.type js_add].
    rewrite Hwalk. do 2 f_equal.
    assert ((if js_gt (Num s) (Num cursor)
             then result +:+ slice (EvaluationContext.text context) (Num cursor) (Num s)
             else result) =
            result +:+ slice (EvaluationContext.text context) (Num cursor) (Num s)) as ->.
    { unfold js_gt, js_lt. destruct (Z.ltb_spec cursor s); [done|].
      assert (s = cursor) as -> by lia. by rewrite slice_same, str_app_nil_r. }
    rewrite !str_app_assoc. f_equal.
    rewrite (slice_join _ s (e + 1) final) by lia.
    by rewrite (slice_join _ cursor s final) by lia.
Qed.

(** The walker gives a document of plaintext back as the text. *)
Lemma evaluateDocument_textOnly (document : CstNode) (w : W) :
  textOnly document = true ->
  evaluateDocument context document w = (EvaluationContext.text context, w).
Proof.
  unfold textOnly, evaluateDocument, collectDocumentItems, collectUnsorted.
  destruct (childArray "macro" (children document)); [|done]. intros Htokens.
  cbn [fold_left]. fold (plaintextItems (childArray "plaintext" (children document))).
  rewrite (js_sort_sorted _ _ (plaintextItems_sorted _ _ Htokens)).
  destruct (walkItems_plain _ 0 Htokens) as (final & Hfinal & Hwalk); [lia|].
  destruct (plaintextItems _) as [|item items] eqn:Hitems; [done|].
  unfold bind, ret. rewrite Hwalk.
  change ("" +:+ ?x) with x.
  unfold js_lt, sliceFrom.
  assert (0 <= strlen (EvaluationContext.text context)) by (unfold strlen; lia).
  destruct (Z.ltb_spec final (strlen (EvaluationContext.text context))).
  - by rewrite slice_join, slice_whole by lia.
  - by rewrite slice_beyond by lia.
Qed.

End PlainWalk.

(** ** Input without anything to replace *)

Lemma plainInput_markers (input : string) :
  plainInput input = true ->
  occursCI "{{" input = false /\
  Forall (fun marker => occursCI marker input = false) (legacyMarkers ++ escapedBraces).
Proof.
  unfold plainInput. rewrite andb_true_iff, forallb_forall, negb_true_iff.
  intros [H1 H2]. split; [done|]. apply List.Forall_forall. intros marker Hin.
  by apply negb_true_iff, H2.
Qed.

Lemma runPreProcessors_plain {E : Type} (input : string) (env : E) :
  plainInput input = true -> runPreProcessors input env = input.
Proof.
  intros H. destruct (plainInput_markers _ H) as [Hopen Hmarkers].
  repeat match goal with
  | H : Forall _ (_ ++ _) |- _ => unfold legacyMarkers, escapedBraces in H; simpl in H
  | H : Forall _ (_ :: _) |- _ => inversion_clear H
  end.
  unfold runPreProcessors.
  rewrite replaceAll_time_absent by done.
  by repeat rewrite (replaceAll_literal_absent _ _ input) by done.
Qed.

Lemma runPostProcessors_plain {E : Type} (input : string) (env : E) :
  plainInput input = true -> runPostProcessors input env = input.
Proof.
  intros H. destruct (plainInput_markers _ H) as [Hopen Hmarkers].
  repeat match goal with
  | H : Forall _ (_ ++ _) |- _ => unfold legacyMarkers, escapedBraces in H; simpl in H
  | H : Forall _ (_ :: _) |- _ => inversion_clear H
  end.
  unfold runPostProcessors.
  rewrite replaceAll_escape_absent by done.
  by rewrite replaceAll_trim_absent.
Qed.

(** C8, against the claim as it stands: the input [Hello <USER>!] holds no
    [{{] and evaluates to [Hello User!]; the input [a\{b] holds no [{{] and
    evaluates to [a{b]. *)
Lemma plain_input_counterexample :
  occursCI "{{" legacyInput = false /\
  fst (engineEvaluate testRegistry legacyParser legacyInput (testEnv legacyInput) emptyWorld)
  = "Hello User!" /\
  "Hello User!" <> legacyInput /\
  occursCI "{{" escapedInput = false /\
  fst (engineEvaluate testRegistry escapedParser escapedInput (testEnv escapedInput) emptyWorld)
  = "a{b" /\
  "a{b" <> escapedInput.
Proof. split_and!; by vm_compute. Qed.

(** C8, amended: an input in which neither [{{] nor a legacy marker
    ([<USER>], [<BOT>], [<CHAR>], [<GROUP>], [<CHARIFNOTGROUP>], in any case)
    nor an escaped brace occurs, and for which the parser gives no tree or a
    tree of plaintext tokens only, is returned unchanged. *)
Theorem plain_input_unchanged {St : Type} (hasMacro : string -> bool)
    (execute : MacroCall.t (MacroEnv St) -> option (MacroDefinition.t St) ->
               State (World St) (Completion string))
    (parseDocument : string -> ParseResult)
    (input : string) (env : MacroEnv St) (w : World St) :
  plainInput input = true ->
  parsesAsText (parseDocument input) = true ->
  fst (evaluate hasMacro execute parseDocument input env w) = input.
Proof.
  intros Hplain Hparse. unfold evaluate.
  destruct (String.eqb_spec input "") as [->|Hne]; [done|].
  rewrite (runPreProcessors_plain input _ Hplain).
  unfold bind, ret.
  destruct (logMacroSyntaxWarning "lexing" input _ w) as [u wa].
  destruct (logMacroSyntaxWarning "parsing" input _ wa) as [u' wb].
  unfold parsesAsText in Hparse.
  destruct (cst (parseDocument input)) as [document|].
  - rewrite (evaluateDocument_textOnly _ document wb Hparse).
    cbn [EvaluationContext.text fst]. by apply runPostProcessors_plain.
  - by destruct (logMacroGeneralError _ input wb).
Qed.

Lemma plain_input_unchanged_witness :
  fst (engineEvaluate testRegistry plainParser "plain text" (testEnv "plain text") emptyWorld)
  = "plain text".
Proof.
  apply (plain_input_unchanged (hasMacro testRegistry) (executeMacro testRegistry)
           plainParser "plain text" (testEnv "plain text") emptyWorld);
    reflexivity.
Defined.

(** ** What the walker and the engine do to the state *)

Lemma keeps_ret {W A : Type} (Q : W -> Prop) (a : A) : keeps Q (ret a).
Proof. by intros w. Qed.

Lemma keeps_bind {W A B : Type} (Q : W -> Prop) (c : State W A) (k : A -> State W B) :
  keeps Q c -> (forall a, keeps Q (k a)) -> keeps Q (bind c k).
Proof.
  intros Hc Hk w Hw. unfold bind. specialize (Hc w Hw).
  destruct (c w) as [a w']. by apply Hk.
Qed.

Section Frame.
Context {Env W : Type}.
Variable context : EvaluationContext.t Env W.
Variable Q : W -> Prop.

(** The resolver keeps the invariant at the calls that carry the environment
    of the context; nothing is asked of it at other calls. *)
Hypothesis resolver_keeps :
  forall call, MacroCall.env call = EvaluationContext.env context ->
               keeps Q (EvaluationContext.resolveMacro context call).

Lemma evaluateNested_keeps (f : CstNode -> State W string) (text : string)
    (entries : list (CstNode * TokenRange.t)) (result : string) (cursor : jsnum) :
  (forall m, keeps Q (f m)) -> keeps Q (evaluateNested f text entries result cursor).
Proof.
  intros Hf. revert result cursor.
  induction entries as [|entry rest IH]; intros result cursor; [apply keeps_ret|].
  simpl. destruct (js_lt _ _); [apply IH|].
  apply keeps_bind; [apply Hf|]. intros value. apply IH.
Qed.

Lemma evaluateArgumentNode_keeps (f : CstNode -> State W string) (argNode : CstNode) :
  (forall m, keeps Q (f m)) -> keeps Q (evaluateArgumentNode f argNode context).
Proof.
  intros Hf. unfold evaluateArgumentNode.
  destruct (getArgumentLocation argNode); [|apply keeps_ret].
  destruct (nodesOf _); [apply keeps_ret|].
  apply keeps_bind; [by apply evaluateNested_keeps|].
  intros [result cursor]. destruct (js_le _ _); apply keeps_ret.
Qed.

Lemma evaluateArguments_keeps (F : CstNode -> State W string) (argumentNodes : list CstNode) :
  (forall a, keeps Q (F a)) -> keeps Q (evaluateArguments F argumentNodes).
Proof.
  intros HF. induction argumentNodes as [|a rest IH]; [apply keeps_ret|].
  simpl. apply keeps_bind; [apply HF|]. intros value.
  apply keeps_bind; [apply IH|]. intros [args evaluated]. apply keeps_ret.
Qed.

Lemma evaluateMacroNodeWith_keeps (f : CstNode -> State W string) (macroNode : CstNode) :
  (forall m, keeps Q (f m)) -> keeps Q (evaluateMacroNodeWith f macroNode context).
Proof.
  intros Hf. unfold evaluateMacroNodeWith.
  apply keeps_bind.
  - apply evaluateArguments_keeps. intros a. by apply evaluateArgumentNode_keeps.
  - intros [args evaluated]. apply keeps_bind; [by apply resolver_keeps|].
    intros value. apply keeps_ret.
Qed.

Lemma evaluateMacroNode_keeps (macroNode : CstNode) :
  keeps Q (evaluateMacroNode macroNode context).
Proof.
  unfold evaluateMacroNode. generalize (height macroNode) as fuel. intros fuel.
  revert macroNode. induction fuel as [|fuel IH]; intros macroNode; [apply keeps_ret|].
  simpl. by apply evaluateMacroNodeWith_keeps.
Qed.

Lemma walkItems_keeps (items : list DocumentItem.t) (result : string) (cursor : jsnum) :
  keeps Q (walkItems context items result cursor).
Proof.
  revert result cursor. induction items as [|item rest IH]; intros result cursor;
    [apply keeps_ret|].
  simpl. destruct (DocumentItem.type item); [apply IH|].
  apply keeps_bind; [apply evaluateMacroNode_keeps|]. intros value. apply IH.
Qed.

Lemma evaluateDocument_keeps (document : CstNode) :
  keeps Q (evaluateDocument context document).
Proof.
  unfold evaluateDocument. destruct (collectDocumentItems document); [apply keeps_ret|].
  apply keeps_bind; [apply walkItems_keeps|].
  intros [result cursor]. destruct (js_lt _ _); apply keeps_ret.
Qed.

End Frame.

(** Every call the walker hands to the resolver carries the environment of
    the context. *)
Lemma evaluateDocument_env {Env W : Type} (context : EvaluationContext.t Env W)
    (document : CstNode) (w : W) :
  Forall (fun call => MacroCall.env call = EvaluationContext.env context)
    (snd (snd (evaluateDocument (recordingContext context) document (w, [])))).
Proof.
  apply (evaluateDocument_keeps (recordingContext context)
           (fun wt => Forall (fun call => MacroCall.env call = EvaluationContext.env context)
                        (snd wt))); [|constructor].
  intros call Hcall [w' tr] Htr. simpl. unfold recording. simpl.
  destruct (EvaluationContext.resolveMacro context call w'). simpl.
  apply Forall_app. split; [done|]. by constructor.
Qed.

Section EngineFrame.
Context {St : Type}.
Variable hasMacro : string -> bool.
Variable execute : MacroCall.t (MacroEnv St) -> option (MacroDefinition.t St) ->
                   State (World St) (Completion string).
Variable parseDocument : string -> ParseResult.
Variable Q : World St -> Prop.

Hypothesis console_keeps : forall entry, keeps Q (consoleLog entry).

Lemma resolveMacro_keeps (call : MacroCall.t (MacroEnv St)) :
  (forall def, keeps Q (execute call def)) ->
  (forall result, keeps Q (callPostProcess (MacroCall.env call) result)) ->
  keeps Q (resolveMacro hasMacro execute call).
Proof.
  intros Hexecute Hpost. unfold resolveMacro.
  destruct (String.eqb _ _); [apply keeps_ret|].
  match goal with |- keeps Q (if ?b then _ else _) => destruct b end; [apply keeps_ret|].
  apply keeps_bind; [apply Hexecute|]. intros [result|error].
  - apply keeps_bind; [apply Hpost|]. intros [value|error]; [apply keeps_ret|].
    apply keeps_bind; [apply console_keeps|]. intros _. apply keeps_ret.
  - apply keeps_bind; [|intros _; apply keeps_ret].
    destruct (isRuntimeError error); apply console_keeps.
Qed.

Lemma logMacroSyntaxWarning_keeps (phase input : string) (errors : list string) :
  keeps Q (logMacroSyntaxWarning phase input errors).
Proof. destruct errors; [apply keeps_ret|apply console_keeps]. Qed.

(** The engine changes the state by logging, by executing macros with calls
    that carry the frozen copy, and by that copy's [postProcess]. *)
Lemma evaluate_keeps (input : string) (env : MacroEnv St) :
  (forall call def, MacroCall.env call = freeze (spread env) -> keeps Q (execute call def)) ->
  (forall result, keeps Q (callPostProcess (freeze (spread env)) result)) ->
  keeps Q (evaluate hasMacro execute parseDocument input env).
Proof.
  intros Hexecute Hpost. unfold evaluate.
  destruct (String.eqb input ""); [apply keeps_ret|].
  apply keeps_bind; [apply logMacroSyntaxWarning_keeps|]. intros _.
  apply keeps_bind; [apply logMacroSyntaxWarning_keeps|]. intros _.
  destruct (cst _) as [document|].
  - apply keeps_bind; [|intros evaluated; apply keeps_ret].
    apply evaluateDocument_keeps. simpl. intros call Hcall.
    apply resolveMacro_keeps; [intros def; by apply Hexecute|].
    intros result. destruct call as [? ? callEnv ? ? ? ?].
    simpl in Hcall |- *. subst callEnv. apply Hpost.
  - apply keeps_bind; [apply console_keeps|]. intros _. apply keeps_ret.
Qed.

End EngineFrame.

(** ** The copy of the environment *)

(** No step changes a frozen object. *)
Lemma storeStep_frozen (h h' : Shared.Store) (r : Shared.Ref) (o : Shared.JsObject) :
  storeStep h h' -> h !! r = Some o -> Shared.isFrozen o = true -> h' !! r = Some o.
Proof.
  intros [h0 o'|h0 r' o' properties Hr' Hfree|h0 r' o' Hr'] Hr Hfrozen.
  - by apply lookup_app_l_Some.
  - destruct (decide (r' = r)) as [->|Hne]; [|by rewrite list_lookup_insert_ne].
    rewrite Hr in Hr'. injection Hr' as <-. congruence.
  - destruct (decide (r' = r)) as [->|Hne]; [|by rewrite list_lookup_insert_ne].
    rewrite Hr in Hr'. injection Hr' as <-.
    rewrite list_lookup_insert_eq by (by eapply lookup_lt_Some).
    destruct o as [frozen properties]. simpl in *. by subst.
Qed.

Lemma storeSteps_frozen (h h' : Shared.Store) (r : Shared.Ref) (o : Shared.JsObject) :
  storeSteps h h' -> h !! r = Some o -> Shared.isFrozen o = true -> h' !! r = Some o.
Proof.
  induction 1 as [|h1 h2 h3 Hstep _ IH]; [done|]. intros Hr Hfrozen.
  apply IH; [|done]. by apply (storeStep_frozen h1).
Qed.

Lemma assignProperty_acts (strict : bool) (r : Shared.Ref) (key : string)
    (value : Shared.Value) :
  actsOnStore (Shared.assignProperty strict r key value).
Proof.
  intros w. unfold Shared.assignProperty.
  destruct (store w !! r) as [o|] eqn:Hr; [|constructor].
  destruct (Shared.isFrozen o) eqn:Hfrozen; [constructor|].
  cbn [snd store]. eapply steps_more; [|constructor]. by eapply step_change.
Qed.

(** An assignment to a property of a frozen object changes nothing. *)
Lemma assignProperty_frozen (strict : bool) (r : Shared.Ref) (key : string)
    (value : Shared.Value) (o : Shared.JsObject) (w : World Shared.Store) :
  store w !! r = Some o -> Shared.isFrozen o = true ->
  Shared.assignProperty strict r key value w =
  (if strict
   then Throws (ThrownObject "TypeError"
                  ("Cannot assign to read only property '" +:+ key +:+ "' of object") false)
   else Returns tt, w).
Proof. intros Hr Hfrozen. unfold Shared.assignProperty. by rewrite Hr, Hfrozen. Qed.

Section SharedFacts.
Variable parseDocument : string -> ParseResult.
Variable resolveMacro : MacroCall.t Shared.Ref -> State (World Shared.Store) string.

(** The copy is a new object behind the objects of the store, frozen, with
    the properties of the caller's environment. *)
Lemma evaluate_copies (input : string) (env : Shared.Ref) (original : Shared.JsObject)
    (w : World Shared.Store) :
  input <> "" -> store w !! env = Some original ->
  Shared.evaluate parseDocument resolveMacro input env w =
  evaluateOn parseDocument resolveMacro input (length (store w))
    (mkWorld (store w ++ [Shared.mkJsObject true (Shared.own original)]) (console w)).
Proof.
  intros Hinput Henv. unfold Shared.evaluate, evaluateOn.
  destruct (String.eqb_spec input ""); [done|].
  unfold bind at 1 2. unfold Shared.spreadObject, Shared.freezeObject.
  rewrite Henv. cbn [store console fst snd].
  rewrite lookup_app_r by lia. rewrite Nat.sub_diag. cbn [lookup list_lookup].
  cbn [Shared.own]. rewrite insert_app_r_alt by lia. rewrite Nat.sub_diag. reflexivity.
Qed.

Lemma evaluateOn_keeps (Q : World Shared.Store -> Prop) (input : string)
    (safeEnv : Shared.Ref) :
  (forall entry, keeps Q (consoleLog entry)) ->
  (forall call, MacroCall.env call = safeEnv -> keeps Q (resolveMacro call)) ->
  keeps Q (evaluateOn parseDocument resolveMacro input safeEnv).
Proof.
  intros Hconsole Hresolve. unfold evaluateOn.
  apply keeps_bind; [by apply logMacroSyntaxWarning_keeps|]. intros _.
  apply keeps_bind; [by apply logMacroSyntaxWarning_keeps|]. intros _.
  destruct (cst _) as [document|].
  - apply keeps_bind; [|intros evaluated; apply keeps_ret].
    by apply evaluateDocument_keeps.
  - apply keeps_bind; [apply Hconsole|]. intros _. apply keeps_ret.
Qed.

(** C10. For an evaluation of a non-empty input the engine makes, before
    anything else, a new object with the top-level properties of the caller's
    environment, and freezes it: a shallow copy, whose properties hold the
    same values and the same references as the caller's. The evaluation runs
    on the copy, and every call the walker hands to the resolver carries the
    copy. An assignment to a top-level property of the copy changes nothing:
    it throws a [TypeError] in strict code and is ignored in code that is
    not strict, and at the end of the evaluation the copy holds what it held
    at the beginning, whatever the code run by the resolver did to the
    store. The engine itself writes to no object but the copy it makes: when
    the code run by the resolver, called with the copy, leaves the caller's
    environment as it is, so does the evaluation. *)
Theorem frozen_env_copy (input : string) (env : Shared.Ref) (original : Shared.JsObject)
    (w : World Shared.Store) :
  input <> "" -> store w !! env = Some original ->
  let safeEnv : Shared.Ref := length (store w) in
  let copy := Shared.mkJsObject true (Shared.own original) in
  let copied := mkWorld (store w ++ [copy]) (console w) in
  let final := snd (Shared.evaluate parseDocument resolveMacro input env w) in
  (safeEnv <> env /\ store copied !! safeEnv = Some copy /\
   store copied !! env = Some original) /\
  Shared.evaluate parseDocument resolveMacro input env w =
    evaluateOn parseDocument resolveMacro input safeEnv copied /\
  (forall document w',
     Forall (fun call => MacroCall.env call = safeEnv)
       (snd (snd (evaluateDocument
                    (recordingContext
                       (EvaluationContext.mk (runPreProcessors input safeEnv) safeEnv
                          resolveMacro))
                    document (w', []))))) /\
  (forall strict key value w',
     store w' !! safeEnv = Some copy ->
     Shared.assignProperty strict safeEnv key value w' =
     (if strict
      then Throws (ThrownObject "TypeError"
                     ("Cannot assign to read only property '" +:+ key +:+ "' of object") false)
      else Returns tt, w')) /\
  ((forall call, actsOnStore (resolveMacro call)) -> store final !! safeEnv = Some copy) /\
  ((forall call, actsOnStore (resolveMacro call)) ->
   (forall call w',
      MacroCall.env call = safeEnv ->
      store w' !! safeEnv = Some copy -> store w' !! env = Some original ->
      store (snd (resolveMacro call w')) !! env = Some original) ->
   store final !! env = Some original).
Proof.
  intros Hinput Henv safeEnv copy copied final.
  assert (env < safeEnv)%nat as Hlt by (by eapply lookup_lt_Some).
  assert (store copied !! safeEnv = Some copy) as Hcopy.
  { unfold copied, safeEnv. cbn [store]. rewrite lookup_app_r by lia.
    by rewrite Nat.sub_diag. }
  assert (store copied !! env = Some original) as Hkept
    by (unfold copied; cbn [store]; by apply lookup_app_l_Some).
  assert (forall call, actsOnStore (resolveMacro call) ->
          keeps (fun w' => store w' !! safeEnv = Some copy) (resolveMacro call)) as Hfrozen.
  { intros call Hacts w' Hw'. by apply (storeSteps_frozen (store w')). }
  split_and!.
  - lia.
  - exact Hcopy.
  - exact Hkept.
  - by apply evaluate_copies.
  - intros document w'.
    apply (evaluateDocument_env
             (EvaluationContext.mk (runPreProcessors input safeEnv) safeEnv resolveMacro)).
  - intros strict key value w' Hw'. by apply (assignProperty_frozen strict safeEnv key value copy).
  - intros Hacts. unfold final. rewrite (evaluate_copies input env original w Hinput Henv).
    apply (evaluateOn_keeps (fun w' => store w' !! safeEnv = Some copy));
      [intros entry w' Hw'; exact Hw'| |exact Hcopy].
    intros call _. by apply Hfrozen.
  - intros Hacts Hleaves. unfold final.
    rewrite (evaluate_copies input env original w Hinput Henv).
    apply (evaluateOn_keeps
             (fun w' => store w' !! safeEnv = Some copy /\ store w' !! env = Some original));
      [intros entry w' Hw'; exact Hw'| |by split].
    intros call Hcall w' [Hw1 Hw2]. split; [by apply Hfrozen|by apply Hleaves].
Qed.

End SharedFacts.

Lemma storeSteps_trans (h1 h2 h3 : Shared.Store) :
  storeSteps h1 h2 -> storeSteps h2 h3 -> storeSteps h1 h3.
Proof.
  induction 1 as [|ha hb hc Hstep _ IH]; [done|]. intros H. eapply steps_more; [done|by apply IH].
Qed.

Lemma meddlingResolver_acts (call : MacroCall.t Shared.Ref) : actsOnStore (meddlingResolver call).
Proof.
  intros w. unfold meddlingResolver.
  set (w1 := match Shared.readProperty (MacroCall.env call) "names" w with
             | Shared.VObject names =>
                 snd (Shared.assignProperty true names "user" (Shared.VString "Changed") w)
             | _ => w
             end).
  assert (storeSteps (store w) (store w1)) as H1.
  { unfold w1. destruct (Shared.readProperty _ _ w); try constructor.
    apply assignProperty_acts. }
  pose proof (assignProperty_acts true (MacroCall.env call) "content"
                (Shared.VString "changed") w1) as H2.
  destruct (Shared.assignProperty true (MacroCall.env call) "content" _ w1) as [[u|e] w2];
    cbn [snd] in *; by apply (storeSteps_trans _ (store w1)).
Qed.

(** The caller's environment with the object [names], evaluated with a
    resolver that sets [env.names.user] and [env.content]. The copy is the
    object at reference 2. The assignment to [content] throws, the macro
    stays raw, and the copy and the caller's environment are as they were;
    the object [names], which the copy shares with the caller's environment,
    is changed. *)
Lemma frozen_env_copy_witness :
  "Hello {{user}}!" <> "" /\
  store callerWorld !! 0%nat = Some callerEnv /\
  Shared.evaluate legacyParser meddlingResolver "Hello {{user}}!" 0%nat callerWorld =
  ("Hello {{user}}!",
   mkWorld
     [callerEnv;
      Shared.mkJsObject false (<["user" := Shared.VString "Changed"]> ∅);
      Shared.mkJsObject true (Shared.own callerEnv)] []) /\
  store (snd (Shared.evaluate legacyParser meddlingResolver "Hello {{user}}!" 0%nat
                callerWorld)) !! 2%nat =
    Some (Shared.mkJsObject true (Shared.own callerEnv)) /\
  store (snd (Shared.evaluate legacyParser meddlingResolver "Hello {{user}}!" 0%nat
                callerWorld)) !! 0%nat = Some callerEnv.
Proof.
  assert ("Hello {{user}}!" <> "") as H1 by done.
  assert (store callerWorld !! 0%nat = Some callerEnv) as H2 by reflexivity.
  destruct (frozen_env_copy legacyParser meddlingResolver "Hello {{user}}!" 0%nat callerEnv
              callerWorld H1 H2) as (_ & _ & _ & _ & Hcopy & Henv).
  split_and!; [exact H1|exact H2|by vm_compute|apply Hcopy, meddlingResolver_acts|].
  apply Henv; [apply meddlingResolver_acts|].
  intros call w' Hcall Hw2 Hw0. unfold meddlingResolver, Shared.readProperty.
  rewrite Hcall. cbn [length store callerWorld] in *. rewrite Hw2.
  change (Shared.own (Shared.mkJsObject true (Shared.own callerEnv)) !! "names")
    with (Some (Shared.VObject 1%nat)).
  cbv beta iota.
  assert (forall w1 : World Shared.Store,
            store w1 !! 2%nat = Some (Shared.mkJsObject true (Shared.own callerEnv)) ->
            store w1 !! 0%nat = Some callerEnv ->
            store (snd (let (c, w2) :=
                          Shared.assignProperty true 2%nat "content"
                            (Shared.VString "changed") w1 in
                        match c with
                        | Returns _ => ("assigned", w2)
                        | Throws _ => ("{{" +:+ MacroCall.rawInner call +:+ "}}", w2)
                        end)) !! 0%nat = Some callerEnv) as Hlast.
  { intros w1 Hc He.
    by rewrite (assignProperty_frozen true 2%nat "content" _ _ w1 Hc eq_refl). }
  apply Hlast.
  - unfold Shared.assignProperty. destruct (store w' !! 1%nat) as [o|]; [|done].
    destruct (Shared.isFrozen o); [done|]. cbn [snd store].
    by rewrite list_lookup_insert_ne.
  - unfold Shared.assignProperty. destruct (store w' !! 1%nat) as [o|]; [|done].
    destruct (Shared.isFrozen o); [done|]. cbn [snd store].
    by rewrite list_lookup_insert_ne.
Defined.

(** ** The order of the resolver calls *)

Lemma flat_map_same {A B : Type} (f g : A -> list B) (l : list A) :
  (forall x, In x l -> f x = g x) -> flat_map f l = flat_map g l.
Proof.
  induction l as [|x l IH]; [done|]. intros H. simpl.
  rewrite (H x) by (by left). f_equal. apply IH. intros y Hy. apply H. by right.
Qed.

Lemma insideOutFuel_agree (fuel1 fuel2 : nat) (macroNode : CstNode) :
  (height macroNode <= fuel1)%nat -> (height macroNode <= fuel2)%nat ->
  insideOutFuel fuel1 macroNode = insideOutFuel fuel2 macroNode.
Proof.
  revert fuel2 macroNode. induction fuel1 as [|fuel1 IH]; intros fuel2 n H1 H2.
  - pose proof (height_pos n). lia.
  - destruct fuel2 as [|fuel2]; [pose proof (height_pos n); lia|].
    cbn [insideOutFuel]. f_equal. apply flat_map_same. intros a Ha.
    apply flat_map_same. intros m Hm.
    assert (nestedIn m n) as Hnested by (by exists a).
    apply height_nestedIn in Hnested. apply IH; lia.
Qed.

(** A macro node stands behind the macros nested in its arguments. *)
Lemma insideOutOrder_unfold (macroNode : CstNode) :
  insideOutOrder macroNode =
  flat_map (fun argNode => flat_map insideOutOrder (nestedMacrosOf argNode))
    (argumentNodesOf macroNode) ++ [macroNode].
Proof.
  unfold insideOutOrder at 1.
  destruct (height macroNode) as [|h] eqn:Hh; [pose proof (height_pos macroNode); lia|].
  cbn [insideOutFuel]. f_equal. apply flat_map_same. intros a Ha.
  apply flat_map_same. intros m Hm.
  assert (nestedIn m macroNode) as Hnested by (by exists a).
  apply height_nestedIn in Hnested. apply insideOutFuel_agree; lia.
Qed.

Section TraceFacts.
Context {Env W : Type}.
Variable context : EvaluationContext.t Env W.

Let rcontext := recordingContext context.

(** The nodes of the calls recorded so far. *)
Let seen (s : W * list (MacroCall.t Env)) : list CstNode := map MacroCall.cstNode (snd s).

Lemma forEach_trace {A B : Type} (g : A -> State (W * list (MacroCall.t Env)) B)
    (expected : A -> list CstNode) (l : list A) :
  Forall (fun x => forall s, seen (snd (g x s)) = seen s ++ expected x) l ->
  forall s, seen (snd (forEach g l s)) = seen s ++ flat_map expected l.
Proof.
  induction 1 as [|x l Hx _ IH]; intros s.
  - simpl. by rewrite app_nil_r.
  - cbn [forEach flat_map]. unfold bind, ret. specialize (Hx s).
    destruct (g x s) as [y s1]. specialize (IH s1).
    destruct (forEach g l s1) as [ys s2]. cbn [snd] in *.
    by rewrite IH, Hx, app_assoc.
Qed.

(** While an ordered macro node is evaluated the resolver is called once for
    each macro at and below the node, nested macros first. *)
Lemma evaluateMacroNode_trace (macroNode : CstNode) :
  Ordered macroNode ->
  forall s, seen (snd (evaluateMacroNode macroNode rcontext s)) =
            seen s ++ insideOutOrder macroNode.
Proof.
  remember (height macroNode) as h eqn:Hh. revert macroNode Hh.
  induction h as [h IH] using lt_wf_ind. intros macroNode -> HO s.
  destruct HO as [macroNode lo hi layouts Hwf Hnested].
  rewrite (evaluateMacroNode_substitutes rcontext macroNode lo hi layouts s Hwf).
  assert (seen (snd (forEach
                       (fun a => forEach (fun m => evaluateMacroNode m rcontext)
                                   (nestedMacrosOf a))
                       (argumentNodesOf macroNode) s)) =
          seen s ++ flat_map (fun a => flat_map insideOutOrder (nestedMacrosOf a))
                      (argumentNodesOf macroNode)) as Htrace.
  { apply forEach_trace. apply List.Forall_forall. intros a Ha s'.
    apply forEach_trace. apply List.Forall_forall. intros m Hm s''.
    apply (IH (height m)).
    - apply height_nestedIn. by exists a.
    - done.
    - rewrite List.Forall_forall in Hnested. specialize (Hnested a Ha).
      rewrite List.Forall_forall in Hnested. by apply Hnested. }
  rewrite insideOutOrder_unfold.
  destruct (forEach _ (argumentNodesOf macroNode) s) as [values s1].
  cbn [snd] in Htrace. rewrite app_assoc, <- Htrace.
  unfold rcontext, recordingContext, recording. cbn [EvaluationContext.resolveMacro].
  destruct (EvaluationContext.resolveMacro context _ (fst s1)) as [value w']. cbn [snd].
  unfold seen. cbn [snd]. by rewrite map_app.
Qed.

Lemma walkItems_trace (items : list DocumentItem.t) (result : string) (cursor : jsnum) :
  Forall Ordered (macroNodesOf items) ->
  forall s, seen (snd (walkItems rcontext items result cursor s)) =
            seen s ++ flat_map insideOutOrder (macroNodesOf items).
Proof.
  revert result cursor. induction items as [|item rest IH]; intros result cursor HO s.
  - simpl. by rewrite app_nil_r.
  - cbn [walkItems macroNodesOf] in *. destruct (DocumentItem.type item) as [token|node].
    + by apply IH.
    + inversion HO as [|? ? Hnode Hrest]; subst. unfold bind.
      pose proof (evaluateMacroNode_trace node Hnode s) as Hfirst.
      destruct (evaluateMacroNode node rcontext s) as [value s1]. cbn [snd] in Hfirst.
      rewrite IH by done. cbn [flat_map]. by rewrite Hfirst, app_assoc.
Qed.

End TraceFacts.

Lemma Sorted_numeric (items : list DocumentItem.t) :
  Forall numericItem items -> Sorted sourceOrder items -> Sorted inSourceOrder items.
Proof.
  intros Hnum. induction 1 as [|x l Hs IH Hd]; [constructor|].
  inversion Hnum as [|? ? Hx Hl]; subst. constructor; [by apply IH|].
  destruct Hd as [|y l Hxy]; constructor.
  inversion Hl as [|? ? Hy _]; subst.
  destruct Hx as (sa & ea & Hsa & Hea). destruct Hy as (sb & eb & Hsb & Heb).
  exists sa, ea, sb, eb. split_and!; try done. by apply Hxy.
Qed.

(** C4: during one document evaluation the top-level items are processed in
    ascending source order (by start offset, then end offset): the items are
    the collected items, sorted, and items whose offsets are numbers stand
    each before the next. The resolver is called for the macro nodes of the
    items in the order of the items, and for every macro node the call for
    the node itself comes only after every call for a macro nested below it.
    For macro nodes that are well formed at every depth the calls are exactly
    these: for each top-level macro in turn, one call for each macro at and
    below it, every macro behind the macros nested in its arguments, so that
    no nested macro is left out. The calls are observed through a resolver
    that records them, which changes neither the result nor the state. *)
Theorem evaluation_order {Env W : Type} (context : EvaluationContext.t Env W)
    (cst : CstNode) (w : W) :
  (Sorted sourceOrder (collectDocumentItems cst) /\
   Permutation (collectDocumentItems cst) (collectUnsorted cst) /\
   (Forall numericItem (collectDocumentItems cst) ->
    Sorted inSourceOrder (collectDocumentItems cst))) /\
  (exists groups,
     Forall2 insideOut (macroNodesOf (collectDocumentItems cst)) groups /\
     evaluateDocument (recordingContext context) cst (w, []) =
     (fst (evaluateDocument context cst w),
      (snd (evaluateDocument context cst w), concat groups))) /\
  (forall macroNode w' tr, exists calls,
     evaluateMacroNode macroNode (recordingContext context) (w', tr) =
     (fst (evaluateMacroNode macroNode context w'),
      (snd (evaluateMacroNode macroNode context w'), tr ++ calls)) /\
     insideOut macroNode calls) /\
  (Forall Ordered (macroNodesOf (collectDocumentItems cst)) ->
   map MacroCall.cstNode
     (snd (snd (evaluateDocument (recordingContext context) cst (w, [])))) =
   flat_map insideOutOrder (macroNodesOf (collectDocumentItems cst))) /\
  (forall macroNode w' tr, Ordered macroNode ->
     map MacroCall.cstNode
       (snd (snd (evaluateMacroNode macroNode (recordingContext context) (w', tr)))) =
     map MacroCall.cstNode tr ++
     flat_map (fun argNode => flat_map insideOutOrder (nestedMacrosOf argNode))
       (argumentNodesOf macroNode) ++ [macroNode]).
Proof.
  split_and!.
  - apply collectDocumentItems_sorted.
  - apply js_sort_perm.
  - intros Hnum. apply Sorted_numeric; [done|apply collectDocumentItems_sorted].
  - unfold evaluateDocument.
    destruct (collectDocumentItems cst) as [|item rest] eqn:Hitems.
    + exists []. split; [constructor|done].
    + rewrite <- Hitems. clear Hitems item rest. unfold bind.
      destruct (walkItems_tracks context (collectDocumentItems cst) "" (Num 0) w [])
        as (calls & E & groups & G & ->).
      rewrite E. simpl.
      destruct (walkItems context _ _ _ w) as [[result cursor] w1]. simpl.
      exists groups. split; [done|]. by destruct (js_lt _ _).
  - intros macroNode w' tr. apply evaluateMacroNode_tracks.
  - intros HO. unfold evaluateDocument.
    destruct (collectDocumentItems cst) as [|item rest] eqn:Hitems; [done|].
    rewrite <- Hitems in *. clear Hitems item rest. unfold bind.
    pose proof (walkItems_trace context (collectDocumentItems cst) "" (Num 0) HO (w, []))
      as Htrace.
    destruct (walkItems (recordingContext context) _ _ _ (w, [])) as [[result cursor] s1].
    cbn [snd] in Htrace. cbn [EvaluationContext.text recordingContext].
    by destruct (js_lt _ _).
  - intros macroNode w' tr HO.
    rewrite (evaluateMacroNode_trace context macroNode HO (w', tr)).
    by rewrite insideOutOrder_unfold.
Qed.

(** The document of the unknown macro with the macro [newline] nested in its
    argument: the resolver is called for [newline] first and for the unknown
    macro after that. And a document with two macros at the top level, the
    second with a nested macro: the resolver is called for the first macro,
    then for the macro nested in the second, then for the second. *)
Lemma evaluation_order_witness :
  Forall Ordered (macroNodesOf (collectDocumentItems unknownDocument)) /\
  Forall numericItem (collectDocumentItems unknownDocument) /\
  Sorted inSourceOrder (collectDocumentItems unknownDocument) /\
  map MacroCall.cstNode
    (snd (snd (evaluateDocument (recordingContext unknownContext) unknownDocument
                 (emptyWorld, [])))) =
  [unknownNewline; unknownNode] /\
  Forall Ordered (macroNodesOf (collectDocumentItems orderDocument)) /\
  map MacroCall.cstNode
    (snd (snd (evaluateDocument (recordingContext orderContext) orderDocument
                 (emptyWorld, [])))) =
  [orderChar; orderUser; orderUnknown].
Proof.
  assert (Ordered unknownNewline) as Hnewline.
  { apply (ordered_macro unknownNewline 22 28 []); [|constructor].
    unfold wellFormedMacro. split_and!; try reflexivity; try lia; [constructor|simpl; lia]. }
  assert (Forall Ordered (macroNodesOf (collectDocumentItems unknownDocument))) as HO.
  { repeat constructor.
    apply (ordered_macro unknownNode 8 38 [Located (17, 38) [(20, 30)]]).
    - unfold wellFormedMacro. split_and!; try reflexivity; try lia;
        [repeat constructor; simpl; lia|simpl; lia].
    - repeat constructor. exact Hnewline. }
  assert (Forall numericItem (collectDocumentItems unknownDocument)) as Hnum
    by (repeat constructor; by eexists _, _).
  assert (Ordered orderChar) as Hchar.
  { apply (ordered_macro orderChar 2 5 []); [|constructor].
    unfold wellFormedMacro. split_and!; try reflexivity; try lia; [constructor|simpl; lia]. }
  assert (Ordered orderUser) as Huser.
  { apply (ordered_macro orderUser 22 25 []); [|constructor].
    unfold wellFormedMacro. split_and!; try reflexivity; try lia; [constructor|simpl; lia]. }
  assert (Forall Ordered (macroNodesOf (collectDocumentItems orderDocument))) as HO2.
  { constructor; [exact Hchar|]. constructor; [|constructor].
    apply (ordered_macro orderUnknown 11 27 [Located (20, 27) [(20, 27)]]).
    - unfold wellFormedMacro. split_and!; try reflexivity; try lia;
        [repeat constructor; simpl; lia|simpl; lia].
    - repeat constructor. exact Huser. }
  destruct (evaluation_order unknownContext unknownDocument emptyWorld)
    as ((_ & _ & Hsorted) & _ & _ & Htrace & _).
  destruct (evaluation_order orderContext orderDocument emptyWorld)
    as (_ & _ & _ & Htrace2 & _).
  split_and!; [exact HO|exact Hnum|by apply Hsorted| |exact HO2|].
  - rewrite (Htrace HO). reflexivity.
  - rewrite (Htrace2 HO2). reflexivity.
Defined.

(** ** Prefixes *)

Lemma prefix_cons (a b : ascii) (p s : string) :
  String.prefix (String a p) (String b s) = Ascii.eqb a b && String.prefix p s.
Proof.
  simpl. destruct (ascii_dec a b) as [->|Hab].
  - by rewrite Ascii.eqb_refl.
  - by destruct (Ascii.eqb_spec a b).
Qed.

Lemma prefix_app (p s : string) : String.prefix p (p +:+ s) = true.
Proof.
  induction p as [|a p IH]; [by destruct s|].
  change (String a p +:+ s) with (String a (p +:+ s)).
  by rewrite prefix_cons, Ascii.eqb_refl.
Qed.

Lemma prefix_other (a b : ascii) (p s : string) :
  a <> b -> String.prefix (String a p) (String b s) = false.
Proof. intros H. rewrite prefix_cons. by destruct (Ascii.eqb_spec a b). Qed.

Lemma prefix_split (p s : string) : String.prefix p s = true -> exists x, s = p +:+ x.
Proof.
  revert s. induction p as [|a p IH]; intros s H; [by exists s|].
  destruct s as [|b s]; [done|]. rewrite prefix_cons in H.
  apply andb_true_iff in H as [Hab Hp]. apply Ascii.eqb_eq in Hab as ->.
  destruct (IH s Hp) as [x ->]. by exists x.
Qed.

Lemma prefix_of_app (p a x : string) :
  String.prefix p (a +:+ x) = true ->
  String.prefix p a = true \/ exists q, q <> "" /\ p = a +:+ q.
Proof.
  revert a. induction p as [|c p IH]; intros a H; [left; by destruct a|].
  destruct a as [|d a].
  - right. by exists (String c p).
  - change (String d a +:+ x) with (String d (a +:+ x)) in H. rewrite prefix_cons in H.
    apply andb_true_iff in H as [Hcd Hp]. apply Ascii.eqb_eq in Hcd as ->.
    destruct (IH a Hp) as [Hpre|(q & Hq & ->)].
    + left. by rewrite prefix_cons, Ascii.eqb_refl.
    + right. by exists q.
Qed.

(** ** White space and trimming *)

Lemma whiteSpaces_head (ws : string) :
  In ws whiteSpaces -> exists c t, ws = String c t /\ In c leadBytes.
Proof.
  intros H. unfold leadBytes. destruct ws as [|c t].
  - exfalso. revert H. by vm_compute; intuition discriminate.
  - exists c, t. split; [done|]. apply in_map_iff. by exists (String c t).
Qed.

Lemma whiteSpaces_prefix_free (a b : string) :
  In a whiteSpaces -> In b whiteSpaces -> String.prefix a b = true -> a = b.
Proof.
  assert (forallb (fun a => forallb (fun b => implb (String.prefix a b) (String.eqb a b))
                             whiteSpaces) whiteSpaces = true) as H by (by vm_compute).
  rewrite forallb_forall in H. intros Ha Hb Hp. specialize (H a Ha).
  rewrite forallb_forall in H. specialize (H b Hb). rewrite Hp in H.
  by apply String.eqb_eq.
Qed.

Lemma whiteSpaceAt_empty : whiteSpaceAt "" = 0%nat.
Proof. reflexivity. Qed.

(** A text that begins with a white space character: the length of the
    character is found. *)
Lemma whiteSpaceAt_app (ws rest : string) :
  In ws whiteSpaces -> whiteSpaceAt (ws +:+ rest) = String.length ws.
Proof.
  intros Hws. unfold whiteSpaceAt.
  destruct (find _ whiteSpaces) as [ws'|] eqn:Hfind.
  - apply find_some in Hfind as [Hin Hp].
    destruct (prefix_of_app _ _ _ Hp) as [Hpre|(q & Hq & ->)].
    + by rewrite (whiteSpaces_prefix_free ws' ws).
    + assert (ws = ws +:+ q) as Heq
        by (apply whiteSpaces_prefix_free; [done|done|apply prefix_app]).
      apply (f_equal String.length) in Heq. rewrite str_length_app in Heq.
      destruct q; [done|simpl in Heq; lia].
  - exfalso. apply (find_none _ _ Hfind) in Hws. by rewrite prefix_app in Hws.
Qed.

Lemma whiteSpaceAt_pos (s : string) (k : nat) :
  whiteSpaceAt s = S k ->
  exists ws rest, In ws whiteSpaces /\ s = ws +:+ rest /\ String.length ws = S k.
Proof.
  unfold whiteSpaceAt. destruct (find _ whiteSpaces) as [ws|] eqn:Hfind; [|done].
  apply find_some in Hfind as [Hin Hp]. intros Hlen.
  destruct (prefix_split _ _ Hp) as [rest ->]. by exists ws, rest.
Qed.

(** A byte no white space character begins with begins none. *)
Lemma whiteSpaceAt_other (c : ascii) (s : string) :
  ~ In c leadBytes -> whiteSpaceAt (String c s) = 0%nat.
Proof.
  intros Hc. destruct (whiteSpaceAt (String c s)) as [|k] eqn:H; [done|]. exfalso.
  destruct (whiteSpaceAt_pos _ _ H) as (ws & rest & Hin & Heq & _).
  destruct (whiteSpaces_head ws Hin) as (d & t & -> & Hd).
  injection Heq as -> _. done.
Qed.

Lemma trimStartFrom_skip (m rest : string) :
  trimStartFrom (m +:+ rest) (String.length m) = trimStartFrom rest 0.
Proof. induction m as [|c m IH]; [by destruct rest|exact IH]. Qed.

Lemma trimStart_ws (ws rest : string) :
  In ws whiteSpaces -> trimStart (ws +:+ rest) = trimStart rest.
Proof.
  intros Hws. destruct (whiteSpaces_head ws Hws) as (c & t & Heq & _).
  pose proof (whiteSpaceAt_app ws rest Hws) as Hat. subst ws.
  unfold trimStart. change (String c t +:+ rest) with (String c (t +:+ rest)) in *.
  cbn [trimStartFrom]. rewrite Hat. cbn [String.length]. apply trimStartFrom_skip.
Qed.

Lemma trimStart_none (s : string) : whiteSpaceAt s = 0%nat -> trimStart s = s.
Proof. intros H. destruct s as [|c s]; [done|]. unfold trimStart. cbn [trimStartFrom]. by rewrite H. Qed.

Lemma Blank_trimStart (l t : string) : Blank l -> trimStart (l +:+ t) = trimStart t.
Proof.
  induction 1 as [|ws rest Hws _ IH]; [done|].
  by rewrite str_app_assoc, trimStart_ws.
Qed.

Lemma Blank_app (a b : string) : Blank a -> Blank b -> Blank (a +:+ b).
Proof.
  induction 1 as [|ws rest Hws _ IH]; [done|]. intros Hb.
  rewrite str_app_assoc. constructor; [done|by apply IH].
Qed.

(** [trimStart] takes the white space at the beginning away, and only that. *)
Lemma trimStart_spec (s : string) :
  exists l, s = l +:+ trimStart s /\ Blank l /\ whiteSpaceAt (trimStart s) = 0%nat.
Proof.
  remember (String.length s) as n eqn:Hn. revert s Hn.
  induction n as [n IH] using lt_wf_ind. intros s ->.
  destruct (whiteSpaceAt s) as [|k] eqn:Hat.
  - exists "". rewrite trimStart_none by done. split_and!; [done|constructor|done].
  - destruct (whiteSpaceAt_pos _ _ Hat) as (ws & rest & Hws & -> & Hlen).
    rewrite trimStart_ws by done.
    destruct (IH (String.length rest)) with (s := rest) as (l & Hl & Hb & H0); [|done|].
    { rewrite str_length_app. lia. }
    exists (ws +:+ l). rewrite str_app_assoc, <- Hl. split_and!; [done|by constructor|done].
Qed.

Lemma trimStart_unique (l t : string) :
  Blank l -> whiteSpaceAt t = 0%nat -> trimStart (l +:+ t) = t.
Proof. intros Hl Ht. by rewrite Blank_trimStart, trimStart_none. Qed.

Lemma Blank_iff (s : string) : Blank s <-> trimStart s = "".
Proof.
  split.
  - intros H. rewrite <- (str_app_nil_r s). by rewrite Blank_trimStart.
  - intros H. destruct (trimStart_spec s) as (l & Hl & Hb & _).
    rewrite H, str_app_nil_r in Hl. by subst.
Qed.

Lemma trimStart_idempotent (s : string) : trimStart (trimStart s) = trimStart s.
Proof. destruct (trimStart_spec s) as (_ & _ & _ & H). by apply trimStart_none. Qed.

Lemma trimEnd_blank (s : string) : Blank s -> trimEnd s = "".
Proof.
  intros H. apply Blank_iff in H. destruct s as [|c s]; [done|].
  cbn [trimEnd]. by rewrite H.
Qed.

Lemma trimEnd_keep (c : ascii) (s : string) :
  ~ Blank (String c s) -> trimEnd (String c s) = String c (trimEnd s).
Proof.
  intros H. cbn [trimEnd]. destruct (String.eqb_spec (trimStart (String c s)) ""); [|done].
  exfalso. by apply H, Blank_iff.
Qed.

Lemma trimEnd_cons (c : ascii) (s : string) :
  whiteSpaceAt (String c s) = 0%nat -> trimEnd (String c s) = String c (trimEnd s).
Proof.
  intros H. apply trimEnd_keep. intros Hb. apply Blank_iff in Hb.
  by rewrite trimStart_none in Hb.
Qed.

(** [trimEnd] takes the white space at the end away, and only that. *)
Lemma trimEnd_spec (s : string) : exists r, s = trimEnd s +:+ r /\ Blank r.
Proof.
  induction s as [|c s (r & Hr & Hb)]; [exists ""; split; [done|constructor]|].
  cbn [trimEnd]. destruct (String.eqb_spec (trimStart (String c s)) "") as [He|He].
  - exists (String c s). split; [done|by apply Blank_iff].
  - exists r. split; [|done]. change (String c s = String c (trimEnd s +:+ r)). by rewrite <- Hr.
Qed.

Lemma trimEnd_NoBlankEnd (s : string) : NoBlankEnd (trimEnd s).
Proof.
  induction s as [|c s IH]; intros a b Hab Hb.
  - destruct a, b; done.
  - cbn [trimEnd] in Hab.
    destruct (String.eqb_spec (trimStart (String c s)) "") as [He|He].
    + destruct a, b; done.
    + destruct a as [|d a].
      * exfalso. apply He, Blank_iff. change ("" +:+ b) with b in Hab. subst b.
        destruct (trimEnd_spec s) as (r & Hr & Hbr).
        rewrite Hr. change (Blank (String c (trimEnd s) +:+ r)). by apply Blank_app.
      * injection Hab as -> Hab. by apply (IH a b).
Qed.

Lemma trimEnd_fixed (p : string) : NoBlankEnd p -> trimEnd p = p.
Proof.
  induction p as [|c p IH]; [done|]. intros H.
  rewrite trimEnd_keep.
  - f_equal. apply IH. intros a b -> Hb. by apply (H (String c a) b).
  - intros Hb. by specialize (H "" (String c p) eq_refl Hb).
Qed.

Lemma trimEnd_idempotent (s : string) : trimEnd (trimEnd s) = trimEnd s.
Proof. apply trimEnd_fixed, trimEnd_NoBlankEnd. Qed.

(** Trimming a trimmed text changes nothing. *)
Lemma js_trim_idempotent (s : string) : js_trim (js_trim s) = js_trim s.
Proof.
  unfold js_trim. destruct (trimStart_spec s) as (_ & _ & _ & H0).
  set (t := trimStart s) in *.
  assert (trimStart (trimEnd t) = trimEnd t) as ->; [|apply trimEnd_idempotent].
  apply trimStart_none. destruct (whiteSpaceAt (trimEnd t)) as [|k] eqn:Hat; [done|].
  exfalso. destruct (whiteSpaceAt_pos _ _ Hat) as (ws & rest & Hws & Heq & Hlen).
  destruct (trimEnd_spec t) as (r & Hr & _). rewrite Heq, str_app_assoc in Hr.
  rewrite Hr, whiteSpaceAt_app in H0 by done. lia.
Qed.

Lemma hasChar_app (c : ascii) (a b : string) :
  hasChar c (a +:+ b) = hasChar c a || hasChar c b.
Proof.
  induction a as [|x a IH]; [done|].
  change (String x a +:+ b) with (String x (a +:+ b)). simpl. by rewrite IH, orb_assoc.
Qed.

Lemma hasChar_trimStart (c : ascii) (s : string) :
  hasChar c s = false -> hasChar c (trimStart s) = false.
Proof.
  intros H. destruct (trimStart_spec s) as (l & Hl & _). rewrite Hl, hasChar_app in H.
  by apply orb_false_iff in H as [_ H].
Qed.

Lemma hasChar_trimEnd (c : ascii) (s : string) :
  hasChar c s = false -> hasChar c (trimEnd s) = false.
Proof.
  intros H. destruct (trimEnd_spec s) as (r & Hr & _). rewrite Hr, hasChar_app in H.
  by apply orb_false_iff in H as [H _].
Qed.

(** White space outside ASCII is trimmed as well: here a no-break space
    before the text and a thin space behind it. *)
Example js_trim_unicode :
  js_trim (bytes [194; 160; 32]%nat +:+ "a b" +:+ bytes [226; 128; 137; 10]%nat) = "a b".
Proof. reflexivity. Qed.

(** * Further properties *)

(** ** state-macros.js *)

Lemma emit_tracking (listeners : list (StateMacros.EventType * StateMacros.Listener))
    (event : StateMacros.EventType) (args : StateMacros.EventArgs)
    (value : string) (initialized : bool) :
  listeners = [(StateMacros.GENERATION_STARTED, StateMacros.onGenerationStarted);
               (StateMacros.CHAT_CHANGED, StateMacros.onChatChanged)] ->
  StateMacros.emit event args
    (StateMacros.mkModule (StateMacros.mkVars value initialized) (Some listeners)) =
  StateMacros.mkModule
    (StateMacros.mkVars
       (if tracked (event, args)
        then match event with
             | StateMacros.GENERATION_STARTED => StateMacros.typeOrNormal (StateMacros.type args)
             | _ => ""
             end
        else value)
       initialized)
    (Some listeners).
Proof.
  intros ->. unfold StateMacros.emit. simpl.
  destruct event; simpl; [|done|done].
  unfold tracked. simpl. unfold StateMacros.onGenerationStarted at 1.
  by destruct (StateMacros.isDryRun args).
Qed.

Lemma lastTypeOf_snoc (events : list (StateMacros.EventType * StateMacros.EventArgs))
    (event : StateMacros.EventType * StateMacros.EventArgs) :
  lastTypeOf (events ++ [event]) =
  if tracked event
  then match fst event with
       | StateMacros.GENERATION_STARTED =>
           StateMacros.typeOrNormal (StateMacros.type (snd event))
       | _ => ""
       end
  else lastTypeOf events.
Proof.
  unfold lastTypeOf. rewrite rev_app_distr. simpl.
  rewrite filter_cons. destruct (decide (tracked event)) as [H|H].
  - apply Is_true_true in H. rewrite H. destruct event as [[| |name] args]; done.
  - apply Is_true_false in H. by rewrite H.
Qed.

Lemma registerStateMacros_again (n : nat) (m : StateMacros.Module_) :
  Nat.iter (S n) StateMacros.registerStateMacros m = StateMacros.registerStateMacros m.
Proof.
  induction n as [|n IH]; [done|].
  change (Nat.iter (S (S n)) StateMacros.registerStateMacros m)
    with (StateMacros.registerStateMacros (Nat.iter (S n) StateMacros.registerStateMacros m)).
  rewrite IH.
  unfold StateMacros.registerStateMacros, StateMacros.ensureLastGenerationTypeTracking.
  destruct (StateMacros.lastGenerationTypeTrackingInitialized (StateMacros.vars m)) eqn:H;
    [by rewrite H|done].
Qed.

(** However often the state macros are registered, the tracking is set up
    once and the two listeners are attached once: the event source holds the
    listeners it had before, followed by the listener of [GENERATION_STARTED]
    and the listener of [CHAT_CHANGED], each one time. From then on the macro
    gives the type of the last generation that was no dry run, [normal] when
    the generation came without a type, and the empty string when there was
    no such generation or the chat has changed since. Without an event source
    no listener is attached, no event reaches the module, and the macro stays
    empty. *)
Theorem last_generation_type_tracked (n : nat)
    (before : list (StateMacros.EventType * StateMacros.Listener))
    (events : list (StateMacros.EventType * StateMacros.EventArgs)) :
  StateMacros.eventSource
    (Nat.iter (S n) StateMacros.registerStateMacros (StateMacros.loaded (Some before))) =
  Some (before ++ [(StateMacros.GENERATION_STARTED, StateMacros.onGenerationStarted);
                   (StateMacros.CHAT_CHANGED, StateMacros.onChatChanged)]) /\
  StateMacros.lastGenerationTypeTrackingInitialized
    (StateMacros.vars
       (Nat.iter (S n) StateMacros.registerStateMacros (StateMacros.loaded (Some before)))) =
  true /\
  StateMacros.lastGenerationType
    (emitAll events
       (Nat.iter (S n) StateMacros.registerStateMacros (StateMacros.loaded (Some [])))) =
  lastTypeOf events /\
  StateMacros.eventSource
    (Nat.iter (S n) StateMacros.registerStateMacros (StateMacros.loaded None)) = None /\
  StateMacros.lastGenerationType
    (emitAll events
       (Nat.iter (S n) StateMacros.registerStateMacros (StateMacros.loaded None))) = "".
Proof.
  rewrite !registerStateMacros_again. split_and!.
  - simpl. by rewrite <- app_assoc.
  - done.
  - set (listeners := [(StateMacros.GENERATION_STARTED, StateMacros.onGenerationStarted);
                       (StateMacros.CHAT_CHANGED, StateMacros.onChatChanged)]).
    assert (emitAll events (StateMacros.registerStateMacros (StateMacros.loaded (Some []))) =
            StateMacros.mkModule (StateMacros.mkVars (lastTypeOf events) true) (Some listeners))
      as ->; [|done].
    induction events as [|event events IH] using rev_ind; [done|].
    unfold emitAll in *. rewrite fold_left_app, IH. simpl.
    rewrite (emit_tracking listeners) by done.
    rewrite lastTypeOf_snoc. by destruct event.
  - done.
  - assert (emitAll events (StateMacros.registerStateMacros (StateMacros.loaded None)) =
            StateMacros.registerStateMacros (StateMacros.loaded None)) as ->; [|done].
    induction events as [|event events IH] using rev_ind; [done|].
    unfold emitAll in *. by rewrite fold_left_app, IH.
Qed.

(** ** [parseMacroContext] *)

Lemma splitColons_step (c : ascii) (rest current : string) :
  splitColons (String c rest) current =
  match rest with
  | String c' rest2 =>
      if Ascii.eqb c colon && Ascii.eqb c' colon
      then current :: splitColons rest2 ""
      else splitColons rest (current +:+ String c "")
  | EmptyString => [current +:+ String c ""]
  end.
Proof.
  cbn [splitColons]. destruct (Ascii.eqb c colon); destruct rest as [|c' rest2]; try done.
Qed.

Lemma scanParts_step (c : ascii) (rest : string) (parts : list MacroAutoCompleteContext.Part)
    (current : string) (partStart i : nat) :
  scanParts (String c rest) parts current partStart i =
  match rest with
  | String c' rest2 =>
      if Ascii.eqb c colon && Ascii.eqb c' colon
      then scanParts rest2 (parts ++ [MacroAutoCompleteContext.mkPart current partStart i])
             "" (i + 2) (i + 2)
      else scanParts rest parts (current +:+ String c "") partStart (i + 1)
  | EmptyString => parts ++ [MacroAutoCompleteContext.mkPart (current +:+ String c "") partStart (i + 1)]
  end.
Proof.
  cbn [scanParts]. destruct (Ascii.eqb c colon); destruct rest as [|c' rest2]; try done.
Qed.

(** The parts the loop collects are the texts between the separators, laid
    out one behind the other. *)
Lemma scanParts_layout (rest : string) (parts : list MacroAutoCompleteContext.Part)
    (current : string) (partStart : nat) :
  scanParts rest parts current partStart (partStart + String.length current) =
  parts ++ layoutFrom partStart (splitColons rest current).
Proof.
  revert parts current partStart.
  induction rest as [|c|c c' rest IH1 IH2] using string_pair_ind; intros parts current partStart.
  - done.
  - rewrite scanParts_step, splitColons_step. simpl. rewrite str_length_app. simpl.
    by rewrite Nat.add_assoc.
  - rewrite scanParts_step, splitColons_step.
    destruct (Ascii.eqb c colon && Ascii.eqb c' colon).
    + replace (partStart + String.length current + 2)%nat
        with (partStart + String.length current + 2 + String.length "")%nat at 2 by (simpl; lia).
      rewrite IH1. simpl. by rewrite <- app_assoc.
    + replace (partStart + String.length current + 1)%nat
        with (partStart + String.length (current +:+ String c ""))%nat
        by (rewrite str_length_app; simpl; lia).
      apply IH2.
Qed.

Lemma splitColons_nonempty (rest current : string) : splitColons rest current <> [].
Proof.
  revert current. induction rest as [|c|c c' rest IH1 IH2] using string_pair_ind; intros current;
    [done|by rewrite splitColons_step|].
  rewrite splitColons_step. by destruct (Ascii.eqb c colon && Ascii.eqb c' colon).
Qed.

(** Joining the parts with the separator gives the text back. *)
Lemma splitColons_join (rest current : string) :
  String.concat "::" (splitColons rest current) = current +:+ rest.
Proof.
  revert current. induction rest as [|c|c c' rest IH1 IH2] using string_pair_ind; intros current.
  - by rewrite str_app_nil_r.
  - by rewrite splitColons_step.
  - rewrite splitColons_step.
    destruct (Ascii.eqb_spec c colon) as [->|Hc]; cbn [andb].
    + destruct (Ascii.eqb_spec c' colon) as [->|Hc'].
      * pose proof (splitColons_nonempty rest "") as Hne.
        specialize (IH1 ""). destruct (splitColons rest "") as [|item items]; [done|].
        cbn [String.concat]. cbn [String.concat] in IH1. by rewrite IH1.
      * rewrite IH2. by rewrite str_app_assoc.
    + rewrite IH2. by rewrite str_app_assoc.
Qed.

Lemma hasSeparator_cons (a b : ascii) (s : string) :
  hasSeparator (String a (String b s)) =
  (Ascii.eqb a colon && Ascii.eqb b colon) || hasSeparator (String b s).
Proof. reflexivity. Qed.

Lemma endsWithColon_cons (a b : ascii) (s : string) :
  endsWithColon (String a (String b s)) = endsWithColon (String b s).
Proof. reflexivity. Qed.

Lemma hasSeparator_snoc (s : string) (c : ascii) :
  hasSeparator (s +:+ String c "") =
  hasSeparator s || (endsWithColon s && Ascii.eqb c colon).
Proof.
  induction s as [|a s IH]; [done|]. destruct s as [|b s].
  - simpl. by rewrite orb_false_r.
  - change (String a (String b s) +:+ String c "")
      with (String a (String b (s +:+ String c ""))).
    rewrite !hasSeparator_cons, endsWithColon_cons.
    change (String b (s +:+ String c "")) with (String b s +:+ String c "").
    rewrite IH. by rewrite orb_assoc.
Qed.

Lemma endsWithColon_snoc (s : string) (c : ascii) :
  endsWithColon (s +:+ String c "") = Ascii.eqb c colon.
Proof.
  induction s as [|a s IH]; [done|].
  change (String a s +:+ String c "") with (String a (s +:+ String c "")).
  cbn [endsWithColon]. rewrite IH. by destruct s.
Qed.

Lemma separable_cons (item next : string) (items : list string) :
  separable (item :: next :: items) =
  negb (hasSeparator item) && negb (endsWithColon item) && separable (next :: items).
Proof. reflexivity. Qed.

(** The parts hold no separator, and none but the last ends with a colon. *)
Lemma splitColons_separable (rest current : string) :
  hasSeparator current = false ->
  (endsWithColon current = true ->
   match rest with String c _ => Ascii.eqb c colon = false | EmptyString => True end) ->
  separable (splitColons rest current) = true.
Proof.
  revert current. induction rest as [|c|c c' rest IH1 IH2] using string_pair_ind;
    intros current Hsep Hend.
  - simpl. by rewrite Hsep.
  - rewrite splitColons_step. simpl. rewrite hasSeparator_snoc, Hsep. simpl.
    destruct (endsWithColon current); [by rewrite Hend|done].
  - rewrite splitColons_step.
    destruct (Ascii.eqb c colon) eqn:Hc; cbn [andb].
    + destruct (Ascii.eqb c' colon) eqn:Hc'.
      * pose proof (splitColons_nonempty rest "") as Hne.
        specialize (IH1 "" eq_refl (fun H => ltac:(done))).
        destruct (splitColons rest "") as [|item items]; [done|].
        rewrite separable_cons, Hsep, IH1. simpl.
        destruct (endsWithColon current); [|done]. specialize (Hend eq_refl). congruence.
      * apply IH2.
        -- rewrite hasSeparator_snoc, Hsep. simpl.
           destruct (endsWithColon current); [|done]. specialize (Hend eq_refl). congruence.
        -- intros _. done.
    + apply IH2.
      * rewrite hasSeparator_snoc, Hsep, Hc. by rewrite andb_false_r.
      * rewrite endsWithColon_snoc, Hc. done.
Qed.

Lemma splitColons_item (item tail current : string) :
  hasSeparator item = false ->
  (tail = "" \/ endsWithColon item = false) ->
  splitColons (item +:+ tail) current = splitColons tail (current +:+ item).
Proof.
  revert current. induction item as [|c item IH]; intros current Hsep Htail.
  - by rewrite str_app_nil_r.
  - change (String c item +:+ tail) with (String c (item +:+ tail)).
    rewrite splitColons_step.
    replace (current +:+ String c item) with ((current +:+ String c "") +:+ item)
      by (by rewrite str_app_assoc).
    destruct item as [|c' item].
    + change ("" +:+ tail) with tail. rewrite str_app_nil_r.
      destruct tail as [|t tail]; [done|].
      destruct Htail as [|Hend]; [done|]. simpl in Hend. by rewrite Hend.
    + change (String c' item +:+ tail) with (String c' (item +:+ tail)).
      cbn [hasSeparator] in Hsep. apply orb_false_iff in Hsep as [Hcc Hsep].
      rewrite Hcc. apply (IH _ Hsep).
      destruct Htail as [|Hend]; [by left|right]. exact Hend.
Qed.

(** Texts that are separable are the parts of their join. *)
Lemma splitColons_of_join (items : list string) :
  items <> [] -> separable items = true ->
  splitColons (String.concat "::" items) "" = items.
Proof.
  induction items as [|item items IH]; [done|]. intros _ Hsep.
  destruct items as [|next items].
  - cbn [String.concat]. simpl in Hsep. apply negb_true_iff in Hsep.
    rewrite <- (str_app_nil_r item) at 1. rewrite splitColons_item by (try done; by left).
    done.
  - rewrite separable_cons in Hsep. cbn [String.concat].
    apply andb_true_iff in Hsep as [Hitem Hrest].
    apply andb_true_iff in Hitem as [Hno Hend].
    apply negb_true_iff in Hno, Hend.
    rewrite splitColons_item by (try done; by right).
    change ("::" +:+ ?x) with (String colon (String colon x)).
    rewrite splitColons_step. simpl. f_equal. by apply IH.
Qed.

Lemma join_length (item next : string) (items : list string) :
  String.length (String.concat "::" (item :: next :: items)) =
  (String.length item + 2 + String.length (String.concat "::" (next :: items)))%nat.
Proof.
  change (String.concat "::" (item :: next :: items))
    with (item +:+ "::" +:+ String.concat "::" (next :: items)).
  rewrite !str_length_app. simpl. lia.
Qed.

Lemma findPart_before (items : list string) (start : nat) (idx cursor : Z) :
  cursor < Z.of_nat start -> findPart (layoutFrom start items) idx cursor = -1.
Proof.
  revert start idx. induction items as [|item items IH]; intros start idx H; [done|].
  simpl. destruct (Z.leb_spec (Z.of_nat start) cursor); [lia|]. simpl. apply IH. lia.
Qed.

(** The cursor within the [j]-th part, at either end or in between. *)
Lemma findPart_within (items : list string) (j o start : nat) (idx : Z) (item : string) :
  items !! j = Some item -> (o <= String.length item)%nat ->
  findPart (layoutFrom start items) idx (Z.of_nat (start + startOf items j + o)) =
  idx + Z.of_nat j - 1.
Proof.
  revert j start idx. induction items as [|first items IH]; intros j start idx Hj Ho; [done|].
  destruct j as [|j]; simpl in Hj.
  - injection Hj as ->. simpl.
    destruct (Z.leb_spec (Z.of_nat start) (Z.of_nat (start + 0 + o))); [|lia].
    destruct (Z.leb_spec (Z.of_nat (start + 0 + o)) (Z.of_nat (start + String.length item)));
      [simpl; lia|lia].
  - cbn [layoutFrom findPart MacroAutoCompleteContext.start MacroAutoCompleteContext.end_ startOf].
    destruct (Z.leb_spec (Z.of_nat (start + (String.length first + 2 + startOf items j) + o))
                (Z.of_nat (start + String.length first))); [lia|].
    rewrite andb_false_r.
    replace (start + (String.length first + 2 + startOf items j) + o)%nat
      with (start + String.length first + 2 + startOf items j + o)%nat by lia.
    rewrite (IH j _ _ Hj Ho). lia.
Qed.

(** The cursor between the two colons behind the [j]-th part, or one behind
    the end of the text. *)
Lemma findPart_gap (items : list string) (j start : nat) (idx : Z) (item : string) :
  items !! j = Some item ->
  findPart (layoutFrom start items) idx
    (Z.of_nat (start + startOf items j + String.length item + 1)) = -1.
Proof.
  revert j start idx. induction items as [|first items IH]; intros j start idx Hj; [done|].
  destruct j as [|j]; simpl in Hj.
  - injection Hj as ->.
    cbn [layoutFrom findPart MacroAutoCompleteContext.start MacroAutoCompleteContext.end_ startOf].
    destruct (Z.leb_spec (Z.of_nat (start + 0 + String.length item + 1))
                (Z.of_nat (start + String.length item))); [lia|].
    rewrite andb_false_r. apply findPart_before. lia.
  - cbn [layoutFrom findPart MacroAutoCompleteContext.start MacroAutoCompleteContext.end_ startOf].
    destruct (Z.leb_spec
                (Z.of_nat (start + (String.length first + 2 + startOf items j) +
                           String.length item + 1))
                (Z.of_nat (start + String.length first))); [lia|].
    rewrite andb_false_r.
    replace (start + (String.length first + 2 + startOf items j) + String.length item + 1)%nat
      with (start + String.length first + 2 + startOf items j + String.length item + 1)%nat
      by lia.
    apply (IH j _ _ Hj).
Qed.

Lemma layoutFrom_length (start : nat) (items : list string) :
  length (layoutFrom start items) = length items.
Proof. revert start. induction items as [|item items IH]; intros start; simpl; [done|by rewrite IH]. Qed.

Lemma layoutFrom_texts (start : nat) (items : list string) :
  map MacroAutoCompleteContext.text (layoutFrom start items) = items.
Proof. revert start. induction items as [|item items IH]; intros start; simpl; [done|by rewrite IH]. Qed.

Lemma layoutFrom_last (start : nat) (items : list string) :
  items <> [] ->
  exists part, last (layoutFrom start items) = Some part /\
    MacroAutoCompleteContext.end_ part = (start + String.length (String.concat "::" items))%nat.
Proof.
  revert start. induction items as [|item items IH]; intros start Hne; [done|].
  destruct items as [|next items].
  - eexists. split; [reflexivity|done].
  - destruct (IH (start + String.length item + 2)%nat) as (part & Hlast & Hend); [done|].
    exists part. split.
    + cbn [layoutFrom] in *. by rewrite last_cons, Hlast.
    + rewrite Hend, join_length. lia.
Qed.

Lemma findPart_beyond (items : list string) (start : nat) (idx cursor : Z) :
  Z.of_nat (start + String.length (String.concat "::" items)) < cursor ->
  findPart (layoutFrom start items) idx cursor = -1.
Proof.
  revert start idx. induction items as [|item items IH]; intros start idx H; [done|].
  cbn [layoutFrom findPart MacroAutoCompleteContext.start MacroAutoCompleteContext.end_].
  assert (Z.of_nat (start + String.length item) < cursor) as Hitem.
  { destruct items; [simpl in H; lia|]. rewrite join_length in H. lia. }
  destruct (Z.leb_spec cursor (Z.of_nat (start + String.length item))); [lia|].
  rewrite andb_false_r. destruct items as [|next items]; [done|]. apply IH.
  rewrite join_length in H. lia.
Qed.

Lemma startOf_S (first : string) (items : list string) (j : nat) :
  startOf (first :: items) (S j) = (String.length first + 2 + startOf items j)%nat.
Proof. reflexivity. Qed.

Lemma startOf_end (items : list string) (j : nat) (item : string) :
  items !! j = Some item ->
  (startOf items j + String.length item <= String.length (String.concat "::" items))%nat /\
  ((startOf items j + String.length item)%nat = String.length (String.concat "::" items) ->
   S j = length items).
Proof.
  revert j. induction items as [|first items IH]; intros j Hj; [done|].
  destruct j as [|j]; simpl in Hj.
  - injection Hj as ->. destruct items as [|next items]; [done|].
    rewrite join_length. cbn [startOf]. split; [lia|]. intros H. lia.
  - destruct items as [|next items]; [done|].
    rewrite join_length, startOf_S. destruct (IH j Hj) as [Hle Heq].
    split; [lia|]. intros H. cbn [length]. f_equal. apply Heq. lia.
Qed.

Lemma startOf_next (items : list string) (j : nat) (item : string) :
  items !! j = Some item -> (S j < length items)%nat ->
  (startOf items j + String.length item + 2 <= String.length (String.concat "::" items))%nat.
Proof.
  revert j. induction items as [|first items IH]; intros j Hj Hnext; [done|].
  destruct items as [|next items]; [simpl in Hnext; lia|]. rewrite join_length.
  destruct j as [|j]; simpl in Hj.
  - injection Hj as ->. cbn [startOf]. lia.
  - rewrite startOf_S. specialize (IH j Hj). cbn [length] in *. lia.
Qed.

Lemma parseMacroContext_layout (macroText : string) (cursorOffset : Z) :
  exists first args,
    splitColons macroText "" = first :: args /\
    parseMacroContext macroText cursorOffset =
    MacroAutoCompleteContext.mk macroText cursorOffset (js_trim first) args
      (argIndexIn (layoutFrom 0 (first :: args)) cursorOffset).
Proof.
  pose proof (splitColons_nonempty macroText "") as Hne.
  destruct (splitColons macroText "") as [|first args] eqn:Hsplit; [done|].
  exists first, args. split; [done|]. unfold parseMacroContext.
  change (scanParts macroText [] "" 0 0)
    with (scanParts macroText [] "" 0 (0 + String.length "")).
  rewrite scanParts_layout, Hsplit. cbn [app].
  unfold argIndexIn. cbn [layoutFrom tail map MacroAutoCompleteContext.text].
  by rewrite layoutFrom_texts.
Qed.

(** The identifier and the arguments are the parts of the macro text: joined
    with the separator they give the text back (the identifier but for the
    white space at its ends), none of them holds a separator, and none but
    the last ends with a colon. *)
Theorem parseMacroContext_join (macroText : string) (cursorOffset : Z) :
  let context := parseMacroContext macroText cursorOffset in
  exists first,
    MacroAutoCompleteContext.identifier context = js_trim first /\
    String.concat "::" (first :: MacroAutoCompleteContext.args context) = macroText /\
    separable (first :: MacroAutoCompleteContext.args context) = true.
Proof.
  destruct (parseMacroContext_layout macroText cursorOffset) as (first & args & Hsplit & ->).
  exists first. cbn [MacroAutoCompleteContext.identifier MacroAutoCompleteContext.args].
  split; [done|]. rewrite <- Hsplit. split.
  - apply (splitColons_join macroText "").
  - by apply splitColons_separable.
Qed.

(** An identifier and arguments that hold no separator, none but the last
    ending with a colon, are read back from their join. *)
Theorem parseMacroContext_split (first : string) (args : list string) (cursorOffset : Z) :
  separable (first :: args) = true ->
  let context := parseMacroContext (String.concat "::" (first :: args)) cursorOffset in
  MacroAutoCompleteContext.identifier context = js_trim first /\
  MacroAutoCompleteContext.args context = args.
Proof.
  intros Hsep.
  destruct (parseMacroContext_layout (String.concat "::" (first :: args)) cursorOffset)
    as (first' & args' & Hsplit & ->).
  rewrite splitColons_of_join in Hsplit by done. by injection Hsplit as <- <-.
Qed.

Lemma parseMacroContext_split_witness :
  let context := parseMacroContext "random::a:b::c d:" 3 in
  MacroAutoCompleteContext.identifier context = "random" /\
  MacroAutoCompleteContext.args context = ["a:b"; "c d:"].
Proof.
  apply (parseMacroContext_split "random" ["a:b"; "c d:"] 3). reflexivity.
Defined.

(** With the cursor in the [j]-th part of the text, at either end of the
    part or in between, the index is [j - 1]: [-1] in the identifier, and the
    number of the argument from 0 in an argument. One case differs: in a text
    without a separator the cursor at the end of the text gives 0. *)
Theorem parseMacroContext_index (items : list string) (j o : nat) (item : string) :
  separable items = true ->
  items !! j = Some item ->
  (o <= String.length item)%nat ->
  MacroAutoCompleteContext.currentArgIndex
    (parseMacroContext (String.concat "::" items) (Z.of_nat (startOf items j + o))) =
  if (length items =? 1)%nat && (o =? String.length item)%nat then 0 else Z.of_nat j - 1.
Proof.
  intros Hsep Hj Ho.
  assert (items <> []) as Hne by (by destruct items).
  destruct (parseMacroContext_layout (String.concat "::" items) (Z.of_nat (startOf items j + o)))
    as (first & args & Hsplit & ->).
  rewrite splitColons_of_join in Hsplit by done. rewrite <- Hsplit.
  cbn [MacroAutoCompleteContext.currentArgIndex]. unfold argIndexIn.
  pose proof (findPart_within items j o 0 0 item Hj Ho) as Hfound.
  change (0 + startOf items j + o)%nat with (startOf items j + o)%nat in Hfound.
  rewrite Hfound.
  destruct (layoutFrom_last 0 items Hne) as (part & -> & ->).
  rewrite layoutFrom_length. destruct (startOf_end items j item Hj) as [Hle Hlast].
  destruct (Nat.eqb_spec (length items) 1) as [Hone|Hmore]; cbn [andb].
  - assert (j = 0%nat) as ->.
    { apply lookup_lt_Some in Hj. lia. }
    destruct items as [|only [|]]; try done. simpl in Hj. injection Hj as ->. simpl.
    destruct (Nat.eqb_spec o (String.length item)) as [->|Ho'].
    + destruct (Z.leb_spec (Z.of_nat (String.length item)) (Z.of_nat (String.length item)));
        [done|lia].
    + destruct (Z.leb_spec (Z.of_nat (String.length item)) (Z.of_nat o)); [lia|done].
  - destruct (Z.eqb_spec (0 + Z.of_nat j - 1) (-1)) as [Hzero|Hpos]; cbn [andb]; [|lia].
    assert (j = 0%nat) as -> by lia.
    destruct (Z.leb_spec (Z.of_nat (0 + String.length (String.concat "::" items)))
                (Z.of_nat (startOf items 0 + o))); [|lia].
    exfalso. apply Hmore. symmetry. apply Hlast. lia.
Qed.

Lemma parseMacroContext_index_witness :
  MacroAutoCompleteContext.currentArgIndex (parseMacroContext "roll::1d20::x" 8) = 0 /\
  MacroAutoCompleteContext.currentArgIndex (parseMacroContext "roll" 4) = 0.
Proof.
  split.
  - apply (parseMacroContext_index ["roll"; "1d20"; "x"] 1 2 "1d20"); [reflexivity|reflexivity|simpl; lia].
  - apply (parseMacroContext_index ["roll"] 0 4 "roll"); [reflexivity|reflexivity|simpl; lia].
Defined.

(** Away from the text: with the cursor before the text the index is [-1];
    with the cursor behind the end of the text it is the number of arguments,
    one more than the index of the last argument. *)
Theorem parseMacroContext_outside (macroText : string) (cursorOffset : Z) :
  cursorOffset < 0 \/ strlen macroText < cursorOffset ->
  let context := parseMacroContext macroText cursorOffset in
  MacroAutoCompleteContext.currentArgIndex context =
  if cursorOffset <? 0 then -1
  else Z.of_nat (length (MacroAutoCompleteContext.args context)).
Proof.
  intros Hout.
  destruct (parseMacroContext_layout macroText cursorOffset) as (first & args & Hsplit & ->).
  cbn [MacroAutoCompleteContext.currentArgIndex MacroAutoCompleteContext.args].
  unfold argIndexIn.
  pose proof (splitColons_join macroText "") as Hjoin. rewrite Hsplit in Hjoin.
  change ("" +:+ macroText) with macroText in Hjoin.
  destruct (layoutFrom_last 0 (first :: args)) as (part & -> & ->); [done|].
  rewrite layoutFrom_length, Hjoin. cbn [length].
  destruct (Z.ltb_spec cursorOffset 0) as [Hneg|Hnonneg].
  - rewrite findPart_before by (simpl; lia). simpl.
    destruct (Z.leb_spec (Z.of_nat (String.length macroText)) cursorOffset); [lia|done].
  - destruct Hout as [|Hbeyond]; [lia|]. unfold strlen in Hbeyond.
    rewrite findPart_beyond by (rewrite Hjoin; simpl; lia). simpl.
    destruct (Z.leb_spec (Z.of_nat (String.length macroText)) cursorOffset); lia.
Qed.

Lemma parseMacroContext_outside_witness :
  MacroAutoCompleteContext.currentArgIndex (parseMacroContext "roll::1d20" 11) = 1.
Proof.
  apply (parseMacroContext_outside "roll::1d20" 11). right. reflexivity.
Defined.

(** The cursor between the two colons of the separator behind the [j]-th
    part is in no part: the index is [-1]. *)
Theorem parseMacroContext_in_separator (items : list string) (j : nat) (item : string) :
  separable items = true ->
  items !! j = Some item ->
  (S j < length items)%nat ->
  MacroAutoCompleteContext.currentArgIndex
    (parseMacroContext (String.concat "::" items)
       (Z.of_nat (startOf items j + String.length item + 1))) = -1.
Proof.
  intros Hsep Hj Hnext.
  assert (items <> []) as Hne by (by destruct items).
  destruct (parseMacroContext_layout (String.concat "::" items)
              (Z.of_nat (startOf items j + String.length item + 1)))
    as (first & args & Hsplit & ->).
  rewrite splitColons_of_join in Hsplit by done. rewrite <- Hsplit.
  cbn [MacroAutoCompleteContext.currentArgIndex]. unfold argIndexIn.
  pose proof (findPart_gap items j 0 0 item Hj) as Hfound.
  change (0 + startOf items j + String.length item + 1)%nat
    with (startOf items j + String.length item + 1)%nat in Hfound.
  rewrite Hfound.
  destruct (layoutFrom_last 0 items Hne) as (part & -> & ->).
  simpl.
  destruct (Z.leb_spec (Z.of_nat (String.length (String.concat "::" items)))
              (Z.of_nat (startOf items j + String.length item + 1))); [|done].
  pose proof (startOf_next items j item Hj Hnext). lia.
Qed.

Lemma parseMacroContext_in_separator_witness :
  MacroAutoCompleteContext.currentArgIndex (parseMacroContext "roll::1d20" 5) = -1.
Proof.
  apply (parseMacroContext_in_separator ["roll"; "1d20"] 0 "roll");
    [reflexivity|reflexivity|simpl; lia].
Defined.

Example parseMacroContext_sample :
  parseMacroContext "roll::1d20" 7 =
  MacroAutoCompleteContext.mk "roll::1d20" 7 "roll" ["1d20"] 0.
Proof. reflexivity. Qed.

(** ** [readSingleArgsRandomList] *)

Lemma splitBy_colons_step (c : ascii) (rest current : string) :
  splitBy "::" (String c rest) current 0 =
  match rest with
  | String c' rest2 =>
      if Ascii.eqb c colon && Ascii.eqb c' colon
      then current :: splitBy "::" rest2 "" 0
      else splitBy "::" rest (current +:+ String c "") 0
  | EmptyString => [current +:+ String c ""]
  end.
Proof.
  cbn [splitBy]. destruct rest as [|c' rest2].
  - rewrite prefix_cons. simpl. by rewrite andb_false_r.
  - rewrite !prefix_cons. assert (String.prefix "" rest2 = true) as -> by (by destruct rest2).
    rewrite andb_true_r, (Ascii.eqb_sym ":" c), (Ascii.eqb_sym ":" c'). unfold colon.
    by destruct (Ascii.eqb c ":" && Ascii.eqb c' ":").
Qed.

Lemma splitBy_colons (s current : string) : splitBy "::" s current 0 = splitColons s current.
Proof.
  revert current. induction s as [|c|c c' s IH1 IH2] using string_pair_ind; intros current.
  - done.
  - by rewrite splitColons_step, splitBy_colons_step.
  - rewrite splitColons_step, splitBy_colons_step.
    destruct (Ascii.eqb c colon && Ascii.eqb c' colon); [by rewrite IH1|apply IH2].
Qed.

Lemma includes_app (sub a b : string) : includes sub (a +:+ sub +:+ b) = true.
Proof.
  induction a as [|c a IH].
  - change ("" +:+ sub +:+ b) with (sub +:+ b).
    destruct (sub +:+ b) as [|c s] eqn:Hs.
    + destruct sub; [done|]. done.
    + cbn [includes]. by rewrite <- Hs, prefix_app.
  - change (String c a +:+ sub +:+ b) with (String c (a +:+ sub +:+ b)).
    cbn [includes]. by rewrite IH, orb_true_r.
Qed.

(** A list written with the separator [::]: the items are read back, each
    without the white space at its ends. *)
Theorem readSingleArgsRandomList_colons (items : list string) :
  (2 <= length items)%nat ->
  separable items = true ->
  readSingleArgsRandomList (String.concat "::" items) = map js_trim items.
Proof.
  intros Hlen Hsep. unfold readSingleArgsRandomList.
  destruct items as [|item [|next items]]; [simpl in Hlen; lia|simpl in Hlen; lia|].
  change (String.concat "::" (item :: next :: items))
    with (item +:+ "::" +:+ String.concat "::" (next :: items)) at 1.
  rewrite includes_app. unfold split. rewrite splitBy_colons.
  by rewrite splitColons_of_join.
Qed.

Lemma readSingleArgsRandomList_colons_witness :
  readSingleArgsRandomList "red :: dark blue::green" = ["red"; "dark blue"; "green"].
Proof.
  apply (readSingleArgsRandomList_colons ["red "; " dark blue"; "green"]); [simpl; lia|reflexivity].
Defined.

Lemma commaPlaceholder_head :
  exists tail, commaPlaceholder = String "#" tail /\
               String.length commaPlaceholder = S (String.length tail).
Proof. eexists. split; [by vm_compute|by vm_compute]. Qed.

(** Escaped commas become placeholders; nothing else changes in items that
    hold no backslash. *)
Lemma hide_escaped (item tail : string) :
  hasChar "\" item = false ->
  replaceMatches (matchLiteral "\," commaPlaceholder) (escapeCommas item +:+ tail) 0 =
  hideCommas item +:+ replaceMatches (matchLiteral "\," commaPlaceholder) tail 0.
Proof.
  induction item as [|c item IH]; intros Hno; [done|].
  simpl in Hno. apply orb_false_iff in Hno as [Hc Hno].
  cbn [escapeCommas hideCommas]. destruct (Ascii.eqb_spec c ",") as [->|Hcomma].
  - change (String "\" (String "," (escapeCommas item)) +:+ tail)
      with (String "\" (String "," (escapeCommas item +:+ tail))).
    cbn [replaceMatches]. unfold matchLiteral at 1. rewrite !prefix_cons. simpl Ascii.eqb.
    assert (String.prefix "" (escapeCommas item +:+ tail) = true) as ->
      by (by destruct (escapeCommas item +:+ tail)).
    cbn [andb String.length Nat.pred replaceMatches]. rewrite (IH Hno).
    by rewrite str_app_assoc.
  - change (String c (escapeCommas item) +:+ tail) with (String c (escapeCommas item +:+ tail)).
    cbn [replaceMatches]. unfold matchLiteral at 1.
    rewrite prefix_other by (intros <-; by rewrite Ascii.eqb_refl in Hc).
    by rewrite (IH Hno).
Qed.

Lemma hide_escaped_list (items : list string) :
  Forall (fun item => hasChar "\" item = false) items ->
  replaceAll (matchLiteral "\," commaPlaceholder) (String.concat "," (map escapeCommas items)) =
  String.concat "," (map hideCommas items).
Proof.
  unfold replaceAll. induction 1 as [|item items Hitem _ IH]; [done|].
  destruct items as [|next items].
  - cbn [map String.concat]. rewrite <- (str_app_nil_r (escapeCommas item)).
    rewrite (hide_escaped item "" Hitem). by rewrite !str_app_nil_r.
  - change (String.concat "," (map escapeCommas (item :: next :: items)))
      with (escapeCommas item +:+ String "," (String.concat "," (map escapeCommas (next :: items)))).
    change (String.concat "," (map hideCommas (item :: next :: items)))
      with (hideCommas item +:+ String "," (String.concat "," (map hideCommas (next :: items)))).
    rewrite (hide_escaped item _ Hitem). f_equal.
    cbn [replaceMatches]. unfold matchLiteral at 1. rewrite prefix_other by done.
    by rewrite IH.
Qed.

Lemma splitBy_comma_step (c : ascii) (rest current : string) :
  splitBy "," (String c rest) current 0 =
  if Ascii.eqb c ","
  then current :: splitBy "," rest "" 0
  else splitBy "," rest (current +:+ String c "") 0.
Proof.
  cbn [splitBy]. rewrite prefix_cons.
  assert (String.prefix "" rest = true) as -> by (by destruct rest).
  rewrite andb_true_r, (Ascii.eqb_sym "," c). by destruct (Ascii.eqb c ",").
Qed.

Lemma splitBy_comma_item (item tail current : string) :
  hasChar "," item = false ->
  splitBy "," (item +:+ tail) current 0 = splitBy "," tail (current +:+ item) 0.
Proof.
  revert current. induction item as [|c item IH]; intros current Hno.
  - by rewrite str_app_nil_r.
  - simpl in Hno. apply orb_false_iff in Hno as [Hc Hno].
    change (String c item +:+ tail) with (String c (item +:+ tail)).
    rewrite splitBy_comma_step, Hc, (IH _ Hno). by rewrite str_app_assoc.
Qed.

(** Items without a comma are the parts of their join with commas. *)
Lemma split_comma_join (items : list string) :
  items <> [] -> Forall (fun item => hasChar "," item = false) items ->
  split "," (String.concat "," items) = items.
Proof.
  unfold split. intros Hne H. induction H as [|item items Hitem _ IH]; [done|].
  destruct items as [|next items].
  - cbn [String.concat]. rewrite <- (str_app_nil_r item) at 1.
    by rewrite (splitBy_comma_item item "" "" Hitem).
  - change (String.concat "," (item :: next :: items))
      with (item +:+ String "," (String.concat "," (next :: items))).
    rewrite (splitBy_comma_item item _ "" Hitem), splitBy_comma_step. simpl Ascii.eqb.
    cbv iota. f_equal. by apply IH.
Qed.

Lemma hideCommas_no_comma (item : string) : hasChar "," (hideCommas item) = false.
Proof.
  induction item as [|c item IH]; [done|]. cbn [hideCommas].
  destruct (Ascii.eqb c ",") eqn:Hc.
  - rewrite hasChar_app, IH. by vm_compute.
  - simpl. by rewrite Hc, IH.
Qed.

Lemma replaceMatches_literal (pattern replacement x : string) :
  pattern <> "" ->
  replaceMatches (matchLiteral pattern replacement) (pattern +:+ x) 0 =
  replacement +:+ replaceMatches (matchLiteral pattern replacement) x 0.
Proof.
  intros Hne. destruct pattern as [|c p]; [done|].
  assert (matchLiteral (String c p) replacement (String c p +:+ x) =
          Some (String.length (String c p), replacement)) as Hmatch
    by (unfold matchLiteral; by rewrite prefix_app).
  change (String c p +:+ x) with (String c (p +:+ x)) in Hmatch |- *.
  cbn [replaceMatches]. rewrite Hmatch. cbn [String.length Nat.pred].
  by rewrite replaceMatches_skip.
Qed.

(** The placeholders become commas again in items that hold no [#]. *)
Lemma show_hidden (item : string) :
  hasChar "#" item = false ->
  replaceAll (matchLiteral commaPlaceholder ",") (hideCommas item) = item.
Proof.
  unfold replaceAll. induction item as [|c item IH]; intros Hno; [done|].
  simpl in Hno. apply orb_false_iff in Hno as [Hc Hno]. specialize (IH Hno).
  cbn [hideCommas]. destruct (Ascii.eqb_spec c ",") as [->|Hcomma].
  - rewrite replaceMatches_literal, IH; [done|].
    destruct commaPlaceholder_head as (tail & -> & _). done.
  - cbn [replaceMatches]. destruct commaPlaceholder_head as (tail & Hhead & _).
    rewrite Hhead in IH |- *. unfold matchLiteral at 1.
    rewrite prefix_other by (intros <-; by rewrite Ascii.eqb_refl in Hc).
    by rewrite IH.
Qed.

Lemma hideCommas_empty (item : string) : hideCommas item = "" -> item = "".
Proof.
  destruct item as [|c item]; [done|]. cbn [hideCommas]. destruct (Ascii.eqb c ","); [|done].
  destruct commaPlaceholder_head as (tail & -> & _). done.
Qed.

Lemma hideCommas_app (a b : string) : hideCommas (a +:+ b) = hideCommas a +:+ hideCommas b.
Proof.
  induction a as [|c a IH]; [done|].
  change (String c a +:+ b) with (String c (a +:+ b)). cbn [hideCommas].
  destruct (Ascii.eqb c ","); rewrite IH; [by rewrite str_app_assoc|done].
Qed.

Lemma hideCommas_same (s : string) : hasChar "," s = false -> hideCommas s = s.
Proof.
  induction s as [|c s IH]; [done|]. simpl. intros H.
  apply orb_false_iff in H as [Hc H]. by rewrite Hc, IH.
Qed.

Lemma whiteSpaces_plain (ws : string) :
  In ws whiteSpaces -> hasChar "," ws = false /\ hasChar "#" ws = false.
Proof.
  assert (forallb (fun ws => negb (hasChar "," ws) && negb (hasChar "#" ws)) whiteSpaces = true)
    as H by (by vm_compute).
  rewrite forallb_forall in H. intros Hws. specialize (H ws Hws).
  apply andb_true_iff in H as [H1 H2]. by rewrite !negb_true_iff in H1, H2.
Qed.

Lemma Blank_plain (l : string) : Blank l -> hasChar "," l = false.
Proof.
  induction 1 as [|ws rest Hws _ IH]; [done|].
  rewrite hasChar_app, IH. by destruct (whiteSpaces_plain ws Hws) as [-> _].
Qed.

Lemma prefix_hideCommas (ws s : string) :
  hasChar "," ws = false -> hasChar "#" ws = false ->
  String.prefix ws (hideCommas s) = String.prefix ws s.
Proof.
  revert s. induction ws as [|a ws IH]; intros s H1 H2.
  - by destruct s, (hideCommas _).
  - simpl in H1, H2. apply orb_false_iff in H1 as [Ha1 H1]. apply orb_false_iff in H2 as [Ha2 H2].
    destruct s as [|c s]; [done|]. cbn [hideCommas].
    destruct (Ascii.eqb_spec c ",") as [->|Hc].
    + destruct commaPlaceholder_head as (tail & -> & _).
      change (String "#" tail +:+ hideCommas s) with (String "#" (tail +:+ hideCommas s)).
      rewrite !prefix_other; [done| |].
      * intros ->. by rewrite Ascii.eqb_refl in Ha1.
      * intros ->. by rewrite Ascii.eqb_refl in Ha2.
    + rewrite !prefix_cons. f_equal. by apply IH.
Qed.

Lemma find_same {A : Type} (f g : A -> bool) (l : list A) :
  (forall x, In x l -> f x = g x) -> find f l = find g l.
Proof.
  induction l as [|x l IH]; [done|]. intros H. simpl.
  rewrite (H x) by (by left). destruct (g x); [done|]. apply IH. intros y Hy. apply H. by right.
Qed.

(** The placeholders stand for no white space. *)
Lemma whiteSpaceAt_hideCommas (s : string) : whiteSpaceAt (hideCommas s) = whiteSpaceAt s.
Proof.
  unfold whiteSpaceAt. rewrite (find_same _ (fun ws => String.prefix ws s)); [done|].
  intros ws Hws. destruct (whiteSpaces_plain ws Hws). by apply prefix_hideCommas.
Qed.

(** Trimming does not reach into the placeholders. *)
Lemma trimStart_hideCommas (item : string) :
  trimStart (hideCommas item) = hideCommas (trimStart item).
Proof.
  destruct (trimStart_spec item) as (l & Hl & Hb & H0). rewrite Hl at 1.
  rewrite hideCommas_app, (hideCommas_same l) by (by apply Blank_plain).
  apply trimStart_unique; [done|]. by rewrite whiteSpaceAt_hideCommas.
Qed.

Lemma not_lead (c : ascii) :
  forallb (fun d => negb (Ascii.eqb d c)) leadBytes = true -> ~ In c leadBytes.
Proof.
  intros H Hin. rewrite forallb_forall in H. specialize (H c Hin).
  by rewrite Ascii.eqb_refl in H.
Qed.

Lemma trimEnd_placeholder (x : string) :
  trimEnd (commaPlaceholder +:+ x) = commaPlaceholder +:+ trimEnd x.
Proof.
  set (p := commaPlaceholder). vm_compute in p. subst p.
  rewrite !str_app_cons. change ("" +:+ x) with x. change ("" +:+ trimEnd x) with (trimEnd x).
  by repeat (rewrite trimEnd_cons by reflexivity).
Qed.

Lemma trimEnd_hideCommas (item : string) :
  trimEnd (hideCommas item) = hideCommas (trimEnd item).
Proof.
  induction item as [|c item IH]; [done|].
  destruct (Ascii.eqb_spec c ",") as [->|Hc].
  - rewrite (trimEnd_cons "," item) by (apply whiteSpaceAt_other, not_lead; reflexivity).
    cbn [hideCommas]. simpl Ascii.eqb. cbv iota. by rewrite trimEnd_placeholder, IH.
  - assert (hideCommas (String c item) = String c (hideCommas item)) as Hh
      by (cbn [hideCommas]; by destruct (Ascii.eqb_spec c ",")).
    rewrite Hh. cbn [trimEnd]. rewrite <- Hh, trimStart_hideCommas.
    destruct (trimStart (String c item)) as [|d t] eqn:Ht.
    + done.
    + destruct (hideCommas (String d t)) as [|e u] eqn:He.
      { by apply hideCommas_empty in He. }
      simpl String.eqb. cbv iota. cbn [hideCommas].
      destruct (Ascii.eqb_spec c ","); [done|]. by rewrite IH.
Qed.

(** A list written with commas, the commas inside the items escaped by a
    backslash: the items are read back, each without the white space at its
    ends. *)
Theorem readSingleArgsRandomList_commas (items : list string) :
  items <> [] ->
  forallb (fun item => negb (hasChar "\" item) && negb (hasChar "#" item)) items = true ->
  includes "::" (String.concat "," (map escapeCommas items)) = false ->
  readSingleArgsRandomList (String.concat "," (map escapeCommas items)) = map js_trim items.
Proof.
  intros Hne Hitems Hcolons. unfold readSingleArgsRandomList. rewrite Hcolons.
  rewrite forallb_forall in Hitems.
  assert (Forall (fun item => hasChar "\" item = false /\ hasChar "#" item = false) items)
    as Hall.
  { apply List.Forall_forall. intros item Hin. specialize (Hitems item Hin).
    apply andb_true_iff in Hitems as [H1 H2]. by rewrite !negb_true_iff in H1, H2. }
  rewrite hide_escaped_list by (eapply Forall_impl; [exact Hall|]; by intros item [? ?]).
  rewrite split_comma_join.
  - rewrite map_map. apply map_ext_Forall. eapply Forall_impl; [exact Hall|].
    intros item [_ Hhash]. cbv beta. unfold js_trim.
    rewrite trimStart_hideCommas, trimEnd_hideCommas.
    apply show_hidden. by apply hasChar_trimEnd, hasChar_trimStart.
  - by destruct items.
  - apply Forall_map. apply Forall_true. intros item. apply hideCommas_no_comma.
Qed.

Lemma readSingleArgsRandomList_commas_witness :
  readSingleArgsRandomList "red, light\, bright ,blue" = ["red"; "light, bright"; "blue"].
Proof.
  apply (readSingleArgsRandomList_commas ["red"; " light, bright "; "blue"]);
    [done|reflexivity|reflexivity].
Defined.

Example readSingleArgsRandomList_samples :
  readSingleArgsRandomList "a, b\, c ,d" = ["a"; "b, c"; "d"] /\
  readSingleArgsRandomList "a,b:: c,d " = ["a,b"; "c,d"] /\
  readSingleArgsRandomList "" = [""].
Proof. by vm_compute. Qed.

(** ** [getChatIdHash] *)

(** The hash of the chat id is computed once and kept in the metadata: a
    later call gives the same hash and leaves the metadata as the first call
    left it, whatever the current chat id has become; the first call sets the
    entry [chat_id_hash] and changes no other entry. *)
Theorem getChatIdHash_cached (getStringHash : MetadataValue -> Z)
    (currentChatId laterChatId : MetadataValue) (chat_metadata : gmap string MetadataValue) :
  let (chatIdHash, metadata) := getChatIdHash getStringHash currentChatId chat_metadata in
  getChatIdHash getStringHash laterChatId metadata = (chatIdHash, metadata) /\
  metadata !! "chat_id_hash" = Some (MetadataNumber chatIdHash) /\
  (forall key, key <> "chat_id_hash" -> metadata !! key = chat_metadata !! key).
Proof.
  unfold getChatIdHash.
  destruct (chat_metadata !! "chat_id_hash") as [[cached|other|]|] eqn:Hcache.
  - by rewrite Hcache.
  - rewrite lookup_insert_eq. split_and!; [done|done|].
    intros key Hkey. by rewrite lookup_insert_ne.
  - rewrite lookup_insert_eq. split_and!; [done|done|].
    intros key Hkey. by rewrite lookup_insert_ne.
  - rewrite lookup_insert_eq. split_and!; [done|done|].
    intros key Hkey. by rewrite lookup_insert_ne.
Qed.

(** ** [inferMacroName] *)

(** The name a log entry carries is never blank and has no white space at
    its ends: it is the explicit name, the name of the call or the name of
    the definition, trimmed, the first of them that is not blank, and
    [unknown] when all are blank or absent. *)
Theorem inferMacroName_not_blank (callName defName explicit : option string) :
  let name := inferMacroName callName defName explicit in
  name <> "" /\ js_trim name = name /\
  (name = "unknown" \/
   exists given, In (Some given) [explicit; callName; defName] /\ name = js_trim given).
Proof.
  unfold inferMacroName.
  destruct explicit as [e|]; [destruct (String.eqb_spec (js_trim e) "")|];
    (destruct callName as [c|]; [destruct (String.eqb_spec (js_trim c) "")|]);
    (destruct defName as [d|]; [destruct (String.eqb_spec (js_trim d) "")|]);
    cbv zeta beta iota; (split; [done|]); (split; [by rewrite ?js_trim_idempotent|]);
    try (by left); right; eauto 10 using in_eq, in_cons.
Qed.

(** ** [#getArgumentLocation] *)

Lemma locateElement_offsets (acc : option Z * option Z) (element : CstElement) :
  locateElement acc element =
  (lowerTo (fst acc) (elementStart element), raiseTo (snd acc) (elementEnd element)).
Proof.
  destruct element as [token|node]; [done|]. simpl.
  destruct (location node); [done|]. by destruct acc.
Qed.

Lemma locate_fold (elements : list CstElement) (acc : option Z * option Z) :
  fold_left locateElement elements acc =
  (fold_left lowerTo (map elementStart elements) (fst acc),
   fold_left raiseTo (map elementEnd elements) (snd acc)).
Proof.
  revert acc. induction elements as [|element elements IH]; intros acc; [by destruct acc|].
  simpl. by rewrite IH, locateElement_offsets.
Qed.

Lemma locate_children (cs : list (string * list CstElement)) (acc : option Z * option Z) :
  fold_left (fun acc kv => fold_left locateElement (snd kv) acc) cs acc =
  fold_left locateElement (concat (map snd cs)) acc.
Proof.
  revert acc. induction cs as [|kv cs IH]; intros acc; [done|].
  simpl. by rewrite fold_left_app, IH.
Qed.

(** The least of the numbers among [xs] and [lo]. *)
Lemma lowerTo_least (xs : list jsnum) (lo : option Z) :
  match fold_left lowerTo xs lo with
  | Some m =>
      (forall l, lo = Some l -> m <= l) /\
      Forall (fun x => forall z, x = Num z -> m <= z) xs /\
      (lo = Some m \/ In (Num m) xs)
  | None => lo = None /\ Forall (fun x => x = NaN) xs
  end.
Proof.
  revert lo. induction xs as [|x xs IH]; intros lo.
  - simpl. destruct lo as [l|]; [|done]. split_and!; [by intros ? [= ->]|done|by left].
  - simpl. specialize (IH (lowerTo lo x)).
    destruct (fold_left lowerTo xs (lowerTo lo x)) as [m|].
    + destruct IH as (Hlo & Hxs & Hin).
      destruct x as [z|], lo as [l|]; simpl in *.
      * destruct (Z.ltb_spec z l).
        -- specialize (Hlo z eq_refl). split_and!.
           ++ intros ? [= <-]. lia.
           ++ constructor; [intros ? [= <-]; lia|done].
           ++ destruct Hin as [[= ->]|Hin]; right; [by left|by right].
        -- specialize (Hlo l eq_refl). split_and!.
           ++ by intros ? [= <-].
           ++ constructor; [intros ? [= <-]; lia|done].
           ++ destruct Hin as [Hin|Hin]; [by left|right; by right].
      * specialize (Hlo z eq_refl). split_and!; [done| |].
        -- constructor; [by intros ? [= <-]|done].
        -- destruct Hin as [[= ->]|Hin]; right; [by left|by right].
      * split_and!; [done|by constructor|]. destruct Hin as [Hin|Hin]; [by left|right; by right].
      * split_and!; [done|by constructor|]. destruct Hin as [Hin|Hin]; [done|right; by right].
    + destruct IH as (Hlo & Hxs). destruct x as [z|], lo as [l|]; simpl in *; try done.
      * by destruct (z <? l).
      * split; [done|by constructor].
Qed.

(** The greatest of the numbers among [xs] and [hi]. *)
Lemma raiseTo_greatest (xs : list jsnum) (hi : option Z) :
  match fold_left raiseTo xs hi with
  | Some m =>
      (forall h, hi = Some h -> h <= m) /\
      Forall (fun x => forall z, x = Num z -> z <= m) xs /\
      (hi = Some m \/ In (Num m) xs)
  | None => hi = None /\ Forall (fun x => x = NaN) xs
  end.
Proof.
  revert hi. induction xs as [|x xs IH]; intros hi.
  - simpl. destruct hi as [h|]; [|done]. split_and!; [by intros ? [= ->]|done|by left].
  - simpl. specialize (IH (raiseTo hi x)).
    destruct (fold_left raiseTo xs (raiseTo hi x)) as [m|].
    + destruct IH as (Hhi & Hxs & Hin).
      destruct x as [z|], hi as [h|]; simpl in *.
      * destruct (Z.ltb_spec h z).
        -- specialize (Hhi z eq_refl). split_and!.
           ++ intros ? [= <-]. lia.
           ++ constructor; [intros ? [= <-]; lia|done].
           ++ destruct Hin as [[= ->]|Hin]; right; [by left|by right].
        -- specialize (Hhi h eq_refl). split_and!.
           ++ by intros ? [= <-].
           ++ constructor; [intros ? [= <-]; lia|done].
           ++ destruct Hin as [Hin|Hin]; [by left|right; by right].
      * specialize (Hhi z eq_refl). split_and!; [done| |].
        -- constructor; [by intros ? [= <-]|done].
        -- destruct Hin as [[= ->]|Hin]; right; [by left|by right].
      * split_and!; [done|by constructor|]. destruct Hin as [Hin|Hin]; [by left|right; by right].
      * split_and!; [done|by constructor|]. destruct Hin as [Hin|Hin]; [done|right; by right].
    + destruct IH as (Hhi & Hxs). destruct x as [z|], hi as [h|]; simpl in *; try done.
      * by destruct (h <? z).
      * split; [done|by constructor].
Qed.

(** The location of an argument covers its children: it starts at the least
    start offset and ends at the greatest end offset among the tokens and the
    located nodes of the argument, offsets that are no numbers left aside.
    There is no location exactly when no child has a start offset that is a
    number, or none has such an end offset: so for an argument without
    children. *)
Theorem getArgumentLocation_covers (argNode : CstNode) :
  match getArgumentLocation argNode with
  | Some range =>
      exists lo hi, range = rangeOf (lo, hi) /\
        Forall (fun element =>
                  (forall s, elementStart element = Num s -> lo <= s) /\
                  (forall e, elementEnd element = Num e -> e <= hi))
          (elementsOf argNode) /\
        (exists first, In first (elementsOf argNode) /\ elementStart first = Num lo) /\
        (exists final, In final (elementsOf argNode) /\ elementEnd final = Num hi)
  | None =>
      Forall (fun element => elementStart element = NaN) (elementsOf argNode) \/
      Forall (fun element => elementEnd element = NaN) (elementsOf argNode)
  end.
Proof.
  unfold getArgumentLocation. rewrite locate_children, locate_fold. cbn [fst snd].
  fold (elementsOf argNode).
  pose proof (lowerTo_least (map elementStart (elementsOf argNode)) None) as Hlo.
  pose proof (raiseTo_greatest (map elementEnd (elementsOf argNode)) None) as Hhi.
  destruct (fold_left lowerTo _ None) as [lo|]; destruct (fold_left raiseTo _ None) as [hi|].
  - destruct Hlo as (_ & Hstarts & [|Hfirst]); [done|].
    destruct Hhi as (_ & Hends & [|Hfinal]); [done|].
    exists lo, hi. split; [done|]. split_and!.
    + rewrite Forall_map in Hstarts, Hends. apply List.Forall_forall. intros element Hin.
      rewrite List.Forall_forall in Hstarts, Hends. split; [by apply Hstarts|by apply Hends].
    + apply in_map_iff in Hfirst as (first & ? & ?). by exists first.
    + apply in_map_iff in Hfinal as (final & ? & ?). by exists final.
  - right. destruct Hhi as [_ Hends]. by rewrite Forall_map in Hends.
  - left. destruct Hlo as [_ Hstarts]. by rewrite Forall_map in Hstarts.
  - left. destruct Hlo as [_ Hstarts]. by rewrite Forall_map in Hstarts.
Qed.

(** ** Pre-processing: the legacy markers *)

Lemma sameCharCI_sym (a b : ascii) : sameCharCI a b = sameCharCI b a.
Proof. unfold sameCharCI. apply Ascii.eqb_sym. Qed.

Lemma stripPrefixCI_head_absent (a : ascii) (p s t : string) :
  hasCharCI a s = false -> s <> "" -> stripPrefixCI (String a p) (s +:+ t) = None.
Proof.
  destruct s as [|c s]; [done|]. intros H _. simpl in H.
  apply orb_false_iff in H as [Hc _].
  change (String c s +:+ t) with (String c (s +:+ t)). simpl. by rewrite Hc.
Qed.

Lemma occursCI_app_absent (a : ascii) (p s t : string) :
  hasCharCI a s = false -> occursCI (String a p) (s +:+ t) = occursCI (String a p) t.
Proof.
  induction s as [|c s IH]; [done|]. intros H.
  change (String c s +:+ t) with (String c (s +:+ t)). cbn [occursCI].
  change (String c (s +:+ t)) with (String c s +:+ t).
  rewrite (stripPrefixCI_head_absent a p (String c s) t H) by done.
  simpl in H. apply orb_false_iff in H as [_ H]. by apply IH.
Qed.

(** Where the pattern matches the text behind a replacement, it matched the
    text before: a replacement begins with a brace, which the pattern does
    not hold. *)
Lemma stripPrefixCI_replaced (matchAt : string -> option (nat * string)) (p t : string) :
  (forall t' n r, matchAt t' = Some (n, r) -> exists rest, r = String "{" rest) ->
  hasCharCI "{" p = false ->
  stripPrefixCI p (replaceMatches matchAt t 0) <> None -> stripPrefixCI p t <> None.
Proof.
  intros Hbrace. revert t. induction p as [|a p IH]; intros t Hp; [done|].
  simpl in Hp. apply orb_false_iff in Hp as [Ha Hp].
  destruct t as [|c t]; [done|]. cbn [replaceMatches].
  destruct (matchAt (String c t)) as [[n r]|] eqn:Hm.
  - destruct (Hbrace _ _ _ Hm) as (rest & ->).
    change (String "{" rest +:+ ?x) with (String "{" (rest +:+ x)). cbn [stripPrefixCI].
    by rewrite (sameCharCI_sym a "{"), Ha.
  - cbn [stripPrefixCI]. destruct (sameCharCI a c); [by apply IH|done].
Qed.

(** Replacing leaves no occurrence of a pattern that occurs, in the text
    replaced, only where the matcher matches. *)
Lemma occursCI_replaced (matchAt : string -> option (nat * string)) (a : ascii) (p s : string)
    (skip : nat) :
  bracedWithout a matchAt ->
  hasCharCI "{" (String a p) = false ->
  (forall before t, s = before +:+ t -> matchAt t = None -> stripPrefixCI (String a p) t = None) ->
  occursCI (String a p) (replaceMatches matchAt s skip) = false.
Proof.
  intros Hsafe Hp. revert skip. induction s as [|c s IH]; intros skip Hkept; [by destruct skip|].
  assert (forall before t, s = before +:+ t -> matchAt t = None ->
                           stripPrefixCI (String a p) t = None) as Hkept'.
  { intros before t -> Hm. by apply (Hkept (String c before)). }
  cbn [replaceMatches]. destruct skip as [|k]; [|by apply IH].
  destruct (matchAt (String c s)) as [[n r]|] eqn:Hm.
  - destruct (Hsafe _ _ _ Hm) as [_ Hr]. rewrite occursCI_app_absent by done. by apply IH.
  - cbn [occursCI].
    destruct (stripPrefixCI (String a p) (String c (replaceMatches matchAt s 0))) eqn:Hstrip;
      [|by apply IH].
    exfalso.
    assert (stripPrefixCI (String a p) (replaceMatches matchAt (String c s) 0) <> None) as Hout.
    { cbn [replaceMatches]. rewrite Hm. by rewrite Hstrip. }
    apply stripPrefixCI_replaced in Hout; [|intros t' n' r' Hm'; by destruct (Hsafe _ _ _ Hm')|done].
    apply Hout. by apply (Hkept "").
Qed.

Lemma bracedWithout_literal (a : ascii) (pattern replacement : string) :
  (exists rest, replacement = String "{" rest) -> hasCharCI a replacement = false ->
  bracedWithout a (matchLiteralCI pattern replacement).
Proof.
  intros Hbrace Hwithout t n r. unfold matchLiteralCI.
  destruct (stripPrefixCI pattern t); [|done]. by intros [= <- <-].
Qed.

(** A replacement removes its own marker. *)
Lemma marker_removed (a : ascii) (p replacement s : string) :
  (exists rest, replacement = String "{" rest) -> hasCharCI a replacement = false ->
  hasCharCI "{" (String a p) = false ->
  occursCI (String a p) (replaceAll (matchLiteralCI (String a p) replacement) s) = false.
Proof.
  intros Hbrace Hwithout Hp. apply occursCI_replaced; [by apply bracedWithout_literal|done|].
  intros before t _. unfold matchLiteralCI. by destruct (stripPrefixCI (String a p) t).
Qed.

(** A replacement brings back no marker that was gone. *)
Lemma marker_stays_removed (a : ascii) (p pattern replacement s : string) :
  (exists rest, replacement = String "{" rest) -> hasCharCI a replacement = false ->
  hasCharCI "{" (String a p) = false ->
  occursCI (String a p) s = false ->
  occursCI (String a p) (replaceAll (matchLiteralCI pattern replacement) s) = false.
Proof.
  intros Hbrace Hwithout Hp Hs. apply occursCI_replaced; [by apply bracedWithout_literal|done|].
  intros before t Heq _. by apply (occursCI_false _ s before t).
Qed.

(** The expression of no marker matches anywhere in the pre-processed text:
    a replacement removes its own marker and brings about no other. *)
Lemma runPreProcessors_occursCI {E : Type} (text : string) (env : E) :
  Forall (fun marker => occursCI marker (runPreProcessors text env) = false) legacyMarkers.
Proof.
  unfold runPreProcessors, legacyMarkers.
  repeat constructor;
    repeat first
      [ apply marker_removed; [by eexists|reflexivity|reflexivity]
      | apply marker_stays_removed; [by eexists|reflexivity|reflexivity|] ].
Qed.

(** ** Pre-processing: the legacy time macro *)

Lemma substring_skip (a b : string) (n : nat) :
  substring (String.length a) n (a +:+ b) = substring 0 n b.
Proof.
  induction a as [|c a IH]; [done|].
  change (String c a +:+ b) with (String c (a +:+ b)). exact IH.
Qed.

Lemma substring_prefix (a b : string) : substring 0 (String.length a) (a +:+ b) = a.
Proof.
  induction a as [|c a IH]; [by destruct b|].
  change (String c a +:+ b) with (String c (a +:+ b)). simpl. by rewrite IH.
Qed.

Lemma spanDigits_app (digits rest : string) :
  allDigits digits = true ->
  spanDigits (digits +:+ rest) =
  (digits +:+ fst (spanDigits rest), snd (spanDigits rest)).
Proof.
  induction digits as [|c digits IH]; intros H.
  { change ("" +:+ rest) with rest. change ("" +:+ ?x) with x. by destruct (spanDigits rest). }
  simpl in H. apply andb_true_iff in H as [Hc H].
  change (String c digits +:+ rest) with (String c (digits +:+ rest)).
  cbn [spanDigits]. by rewrite Hc, (IH H).
Qed.

Lemma sameCharCI_trans (a b c : ascii) :
  sameCharCI a b = true -> sameCharCI c b = sameCharCI c a.
Proof. unfold sameCharCI. intros H. apply Ascii.eqb_eq in H. by rewrite H. Qed.

(** Texts that are equal but for case hold the same characters but for
    case. *)
Lemma hasCharCI_equal (c : ascii) (pattern s : string) :
  stripPrefixCI pattern s = Some "" -> hasCharCI c s = hasCharCI c pattern.
Proof.
  revert s. induction pattern as [|p pattern IH]; intros s; simpl; [by intros [= ->]|].
  destruct s as [|x s]; [done|]. destruct (sameCharCI p x) eqn:Hpx; [|done].
  intros H. simpl. by rewrite (IH s H), (sameCharCI_trans p x c Hpx).
Qed.

Lemma hasCharCI_app (c : ascii) (a b : string) :
  hasCharCI c (a +:+ b) = hasCharCI c a || hasCharCI c b.
Proof.
  induction a as [|x a IH]; [done|].
  change (String x a +:+ b) with (String x (a +:+ b)). simpl. by rewrite IH, orb_assoc.
Qed.

Lemma digit_no_angle (c : ascii) : isDigit c = true -> sameCharCI "<" c = false.
Proof.
  destruct c as [[] [] [] [] [] [] [] []]; vm_compute; congruence.
Qed.

Lemma digits_no_angle (digits : string) :
  allDigits digits = true -> hasCharCI "<" digits = false.
Proof.
  induction digits as [|c digits IH]; [done|]. simpl. intros H.
  apply andb_true_iff in H as [Hc H]. by rewrite (digit_no_angle c Hc), (IH H).
Qed.

Lemma occursCI_head_absent (a : ascii) (p s : string) :
  hasCharCI a s = false -> occursCI (String a p) s = false.
Proof.
  intros H. rewrite <- (str_app_nil_r s). by rewrite occursCI_app_absent.
Qed.

(** The match of the expression at a legacy time macro. *)
Lemma matchLegacyTime_legacy (T u digits rest : string) (sign : ascii) :
  stripPrefixCI "{{time_" T = Some "" -> stripPrefixCI "UTC" u = Some "" ->
  sign = "+"%char \/ sign = "-"%char ->
  digits <> "" -> allDigits digits = true ->
  matchLegacyTime (T +:+ u +:+ String sign digits +:+ "}}" +:+ rest) =
  Some (String.length (T +:+ u +:+ String sign digits +:+ "}}"),
        "{{time::" +:+ u +:+ String sign digits +:+ "}}").
Proof.
  intros HT Hu Hsign Hne Hdigits. unfold matchLegacyTime.
  destruct (stripPrefixCI_split _ _ _ HT) as (T' & HT' & HlenT & _).
  destruct (stripPrefixCI_split _ _ _ Hu) as (u' & Hu' & Hlenu & _).
  rewrite str_app_nil_r in HT', Hu'. subst T' u'.
  rewrite (stripPrefixCI_app _ T _ HT), (stripPrefixCI_app _ u _ Hu).
  change (String sign digits +:+ "}}" +:+ rest) with (String sign (digits +:+ "}}" +:+ rest)).
  cbv beta iota.
  assert ((Ascii.eqb sign "+" || Ascii.eqb sign "-") = true) as ->
    by (destruct Hsign as [-> | ->]; done).
  rewrite (spanDigits_app digits _ Hdigits).
  change (spanDigits ("}}" +:+ rest)) with (EmptyString, "}}" +:+ rest).
  cbn [fst snd]. rewrite str_app_nil_r.
  destruct digits as [|d digits]; [done|].
  change (stripPrefixCI "}}" ("}}" +:+ rest)) with (Some rest).
  f_equal. f_equal.
  - rewrite !str_length_app, HlenT, Hlenu. simpl. lia.
  - assert (substring 7 (4 + String.length (String d digits))
              (T +:+ u +:+ String sign (String d digits +:+ "}}" +:+ rest)) =
            u +:+ String sign (String d digits)) as ->; [|by rewrite !str_app_assoc].
    change 7%nat with (String.length "{{time_"). rewrite <- HlenT, substring_skip.
    replace (4 + String.length (String d digits))%nat
      with (String.length (u +:+ String sign (String d digits)))
      by (rewrite str_length_app, Hlenu; simpl; lia).
    change (String sign (String d digits +:+ "}}" +:+ rest))
      with (String sign (String d digits) +:+ "}}" +:+ rest).
    by rewrite <- (str_app_assoc u), substring_prefix.
Qed.

(** The legacy time macro, however its name and the letters of the offset
    are cased, is rewritten to the macro [time] with the offset as its
    argument, the offset as it was written. *)
Theorem legacy_time_rewritten {E : Type} (env : E) (T u digits : string) (sign : ascii) :
  stripPrefixCI "{{time_" T = Some "" -> stripPrefixCI "UTC" u = Some "" ->
  sign = "+"%char \/ sign = "-"%char ->
  digits <> "" -> allDigits digits = true ->
  runPreProcessors (T +:+ u +:+ String sign digits +:+ "}}") env =
  "{{time::" +:+ u +:+ String sign digits +:+ "}}".
Proof.
  intros HT Hu Hsign Hne Hdigits. unfold runPreProcessors.
  assert (replaceAll matchLegacyTime (T +:+ u +:+ String sign digits +:+ "}}") =
          "{{time::" +:+ u +:+ String sign digits +:+ "}}") as ->.
  { pose proof (matchLegacyTime_legacy T u digits "" sign HT Hu Hsign Hne Hdigits) as Hm.
    rewrite !str_app_nil_r in Hm. unfold replaceAll.
    destruct (T +:+ u +:+ String sign digits +:+ "}}") as [|c s] eqn:Hs.
    { destruct (stripPrefixCI_split _ _ _ HT) as (T' & -> & HlenT & _). by destruct T'. }
    cbn [replaceMatches]. rewrite Hm. cbn [String.length Nat.pred].
    rewrite <- (str_app_nil_r s) at 1. rewrite replaceMatches_skip. simpl replaceMatches.
    by rewrite str_app_nil_r. }
  assert (hasCharCI "<" ("{{time::" +:+ u +:+ String sign digits +:+ "}}") = false) as Hangle.
  { rewrite !hasCharCI_app, (hasCharCI_equal "<" "UTC" u Hu).
    change (String sign digits) with (String sign "" +:+ digits).
    rewrite hasCharCI_app, (digits_no_angle digits Hdigits).
    by destruct Hsign as [-> | ->]. }
  set (result := "{{time::" +:+ u +:+ String sign digits +:+ "}}") in *.
  by repeat rewrite (replaceAll_literal_absent _ _ result)
    by (by apply occursCI_head_absent).
Qed.

Lemma legacy_time_rewritten_witness :
  runPreProcessors "{{Time_utc-10}}" tt = "{{time::utc-10}}".
Proof.
  apply (legacy_time_rewritten tt "{{Time_" "utc" "10" "-"); try done. by right.
Defined.

(** ** The evaluation of a document *)

Lemma slice_clamp (s : string) (a b : Z) :
  0 <= a -> a <= b -> strlen s <= b -> slice s (Num a) (Num b) = slice s (Num a) (Num (strlen s)).
Proof.
  intros Ha Hab Hb. assert (0 <= strlen s) by (unfold strlen; lia).
  destruct (Z.le_gt_cases a (strlen s)).
  - rewrite !slice_nonneg by lia. by rewrite (Z.min_r b), Z.min_id by lia.
  - rewrite slice_past_end by lia. unfold slice, clampIndex, toInteger.
    destruct (Z.ltb_spec a 0); [lia|]. destruct (Z.ltb_spec (strlen s) 0); [lia|].
    rewrite Z.min_r, Z.min_id by lia. rewrite Z.sub_diag. by rewrite substring_zero_length.
Qed.

Lemma spliceTo_extend (text : string) (cursor mid stop : Z) (spans : list ((Z * Z) * string)) :
  0 <= cursor -> spansWithin cursor (mid - 1) (map fst spans) -> mid <= stop ->
  spliceTo text cursor spans mid +:+ slice text (Num mid) (Num stop) =
  spliceTo text cursor spans stop.
Proof.
  intros Hc Hw Hstop.
  rewrite <- (spliceTo_nil text mid stop).
  rewrite (spliceTo_app text cursor mid stop spans []); [by rewrite app_nil_r|done|done|].
  simpl. lia.
Qed.

Lemma splice_final_ge (text : string) (cursor hi : Z) (spans : list ((Z * Z) * string)) :
  spansWithin cursor hi (map fst spans) -> cursor <= snd (splice text cursor spans).
Proof.
  revert cursor. induction spans as [|[span value] rest IH]; intros cursor; simpl; [done|].
  intros (H1 & H2 & H3). specialize (IH _ H3).
  destruct (splice text (snd span + 1) rest). simpl in *. lia.
Qed.

Lemma macroSpansOf_length (items : list DocumentItem.t) :
  length (macroSpansOf items) = length (macroNodesOf items).
Proof.
  induction items as [|item items IH]; [done|]. simpl.
  destruct (DocumentItem.type item); simpl; by rewrite ?IH.
Qed.

Lemma itemsLaidOut_cons (cursor : Z) (item : DocumentItem.t) (items : list DocumentItem.t) :
  itemsLaidOut cursor (item :: items) = true ->
  exists s e, DocumentItem.startOffset item = Num s /\ DocumentItem.endOffset item = Num e /\
    cursor <= s /\ s <= e + 1 /\ itemsLaidOut (e + 1) items = true.
Proof.
  simpl. destruct (DocumentItem.startOffset item) as [s|]; [|done].
  destruct (DocumentItem.endOffset item) as [e|]; [|done].
  rewrite !andb_true_iff, !Z.leb_le. intros [[? ?] ?]. by exists s, e.
Qed.

(** The macro items of laid out items lie in order, without overlap, and
    the items end at or behind the cursor. *)
Lemma itemsLaidOut_spans (cursor : Z) (items : list DocumentItem.t) :
  itemsLaidOut cursor items = true ->
  cursor <= behindItems cursor items /\
  spansWithin cursor (behindItems cursor items - 1) (macroSpansOf items).
Proof.
  revert cursor. induction items as [|item items IH]; intros cursor H.
  - simpl. lia.
  - destruct (itemsLaidOut_cons _ _ _ H) as (s & e & Hs & He & Hcs & Hse & Hrest).
    destruct (IH _ Hrest) as [Hle Hw]. cbn [behindItems macroSpansOf]. rewrite Hs, He.
    cbn [toInteger]. split; [lia|].
    destruct (DocumentItem.type item).
    + apply (spansWithin_weaken (e + 1)); [lia|done].
    + cbn [spansWithin fst snd]. by split_and!.
Qed.

Section DocumentFacts.
Context {Env W : Type}.
Variable context : EvaluationContext.t Env W.

Lemma macroSpansOf_values (items : list DocumentItem.t) (w : W) :
  map fst (combine (macroSpansOf items)
             (fst (forEach (fun m => evaluateMacroNode m context) (macroNodesOf items) w))) =
  macroSpansOf items.
Proof. apply map_fst_combine. by rewrite macroSpansOf_length, forEach_length. Qed.

(** The walk over laid out items: the text from the cursor to the end of the
    last item, with the value of each macro in place of its span. *)
Lemma walkItems_substitutes (items : list DocumentItem.t) (result : string) (cursor : Z) (w : W) :
  itemsLaidOut cursor items = true -> 0 <= cursor ->
  walkItems context items result (Num cursor) w =
  (let (values, w1) := forEach (fun m => evaluateMacroNode m context) (macroNodesOf items) w in
   ((result +:+
     spliceTo (EvaluationContext.text context) cursor (combine (macroSpansOf items) values)
       (behindItems cursor items),
     Num (behindItems cursor items)), w1)).
Proof.
  revert result cursor w. induction items as [|item items IH]; intros result cursor w H Hc.
  - simpl. by rewrite spliceTo_nil, slice_same, str_app_nil_r.
  - destruct (itemsLaidOut_cons _ _ _ H) as (s & e & Hs & He & Hcs & Hse & Hrest).
    destruct (itemsLaidOut_spans _ _ Hrest) as [Hle Hw].
    cbn [walkItems macroNodesOf macroSpansOf behindItems]. rewrite Hs, He.
    cbn [toInteger js_add].
    assert (forall r, (if js_gt (Num s) (Num cursor)
                       then r +:+ slice (EvaluationContext.text context) (Num cursor) (Num s)
                       else r) =
                      r +:+ slice (EvaluationContext.text context) (Num cursor) (Num s)) as Hgap.
    { intros r. unfold js_gt, js_lt. destruct (Z.ltb_spec cursor s); [done|].
      assert (s = cursor) as -> by lia. by rewrite slice_same, str_app_nil_r. }
    rewrite Hgap. destruct (DocumentItem.type item) as [token|node].
    + rewrite IH by (done || lia).
      pose proof (macroSpansOf_values items w) as Hfst.
      destruct (forEach _ (macroNodesOf items) w) as [values w1].
      cbn [fst] in Hfst.
      do 2 f_equal. rewrite !str_app_assoc. f_equal.
      rewrite <- str_app_assoc, slice_join by lia.
      apply spliceTo_prefix; [lia|lia|]. by rewrite Hfst.
    + cbn [forEach]. unfold bind, ret.
      destruct (evaluateMacroNode node context w) as [value w1].
      rewrite IH by (done || lia).
      destruct (forEach _ (macroNodesOf items) w1) as [values w2].
      do 2 f_equal. cbn [combine]. by rewrite spliceTo_cons, !str_app_assoc.
Qed.

(** When the items of a document lie one behind the other, the document
    evaluates to its whole text with the value of each top-level macro in
    place of the span of the macro: the text before, between and behind the
    macros is kept, also where no item covers it. The macros are evaluated
    once each, in the order of the text. *)
Theorem evaluateDocument_substitutes (document : CstNode) (w : W) :
  itemsLaidOut 0 (collectDocumentItems document) = true ->
  evaluateDocument context document w =
  (let items := collectDocumentItems document in
   let (values, w1) := forEach (fun m => evaluateMacroNode m context) (macroNodesOf items) w in
   (spliceTo (EvaluationContext.text context) 0 (combine (macroSpansOf items) values)
      (strlen (EvaluationContext.text context)), w1)).
Proof.
  intros H. unfold evaluateDocument. cbv zeta.
  destruct (collectDocumentItems document) as [|item items] eqn:Hitems.
  - simpl. unfold ret. by rewrite spliceTo_nil, slice_whole.
  - rewrite <- Hitems in *. clear Hitems item items.
    set (items := collectDocumentItems document) in *.
    destruct (itemsLaidOut_spans _ _ H) as [Hle Hw].
    unfold bind. rewrite walkItems_substitutes by (done || lia).
    pose proof (macroSpansOf_values items w) as Hfst.
    destruct (forEach _ (macroNodesOf items) w) as [values w1].
    cbn [fst] in Hfst.
    change ("" +:+ ?x) with x. unfold js_lt, sliceFrom, ret.
    set (text := EvaluationContext.text context).
    assert (0 <= strlen text) by (unfold strlen; lia).
    destruct (Z.ltb_spec (behindItems 0 items) (strlen text)).
    + f_equal. apply spliceTo_extend; [lia| |lia]. by rewrite Hfst.
    + f_equal. unfold spliceTo.
      pose proof (splice_final text 0 (behindItems 0 items - 1)
                    (combine (macroSpansOf items) values)) as Hfinal.
      pose proof (splice_final_ge text 0 (behindItems 0 items - 1)
                    (combine (macroSpansOf items) values)) as Hge.
      rewrite Hfst in Hfinal, Hge. specialize (Hfinal Hw). specialize (Hge Hw).
      destruct (splice text 0 (combine (macroSpansOf items) values)) as [replaced final].
      cbn [snd] in Hfinal, Hge. f_equal. apply slice_clamp; lia.
Qed.

End DocumentFacts.

(** The document of the unknown macro: the text in which the macro at 6 to 40
    is replaced by its value. *)
Lemma evaluateDocument_substitutes_witness :
  itemsLaidOut 0 (collectDocumentItems unknownDocument) = true /\
  macroSpansOf (collectDocumentItems unknownDocument) = [(6, 40)] /\
  evaluateDocument unknownContext unknownDocument emptyWorld =
  ("Test: {{unknown::my " +:+ String LF " example}}", emptyWorld).
Proof.
  assert (itemsLaidOut 0 (collectDocumentItems unknownDocument) = true) as H by reflexivity.
  split_and!; [exact H|reflexivity|].
  eapply eq_trans; [exact (evaluateDocument_substitutes unknownContext unknownDocument emptyWorld H)|].
  by vm_compute.
Defined.

(** ** Escaped braces in post-processing *)

Lemma matchEscapedBrace_brace (c : ascii) (rest : string) :
  isBrace c = true ->
  matchEscapedBrace (String "\" (String c rest)) = Some (2%nat, String c EmptyString).
Proof. unfold matchEscapedBrace, isBrace. by intros ->. Qed.

Lemma matchEscapedBrace_other (c : ascii) (rest : string) :
  isBrace c = false -> matchEscapedBrace (String "\" (String c rest)) = None.
Proof. unfold matchEscapedBrace, isBrace. by intros ->. Qed.

Lemma matchEscapedBrace_head (c : ascii) (rest : string) :
  c <> "\"%char -> matchEscapedBrace (String c rest) = None.
Proof.
  intros Hc. unfold matchEscapedBrace.
  destruct c as [[] [] [] [] [] [] [] []]; try done.
Qed.

Lemma matchEscapedBrace_last (c : ascii) : matchEscapedBrace (String c EmptyString) = None.
Proof. unfold matchEscapedBrace. by destruct c as [[] [] [] [] [] [] [] []]. Qed.

(** An escaped text does not begin with a brace. *)
Lemma escapeBraces_head (s : string) :
  match escapeBraces s with
  | String c _ => isBrace c = false
  | EmptyString => True
  end.
Proof.
  destruct s as [|c s]; [done|]. cbn [escapeBraces].
  destruct (isBrace c) eqn:Hc; done.
Qed.

Lemma unescape_escaped (s : string) : replaceAll matchEscapedBrace (escapeBraces s) = s.
Proof.
  unfold replaceAll. induction s as [|c s IH]; [done|].
  cbn [escapeBraces]. destruct (isBrace c) eqn:Hc.
  - cbn [replaceMatches]. rewrite (matchEscapedBrace_brace c _ Hc).
    cbn [Nat.pred]. by rewrite IH.
  - cbn [replaceMatches].
    assert (matchEscapedBrace (String c (escapeBraces s)) = None) as ->; [|by rewrite IH].
    destruct (Ascii.eqb_spec c "\") as [->|Hne]; [|by apply matchEscapedBrace_head].
    pose proof (escapeBraces_head s) as Hhead.
    destruct (escapeBraces s) as [|d rest]; [apply matchEscapedBrace_last|].
    by apply matchEscapedBrace_other.
Qed.

(** Braces escaped with a backslash come out of the post-processors as they
    were before the escaping; only the trim marker, which is removed after
    the unescaping, must not be among them. *)
Theorem runPostProcessors_unescapes {E : Type} (s : string) (env : E) :
  occursCI "{{trim}}" s = false ->
  runPostProcessors (escapeBraces s) env = s.
Proof.
  intros Hno. unfold runPostProcessors. cbv zeta.
  rewrite unescape_escaped. by apply replaceAll_trim_none.
Qed.

(** A macro written with escaped braces comes out as the text of the macro. *)
Lemma runPostProcessors_unescapes_witness :
  occursCI "{{trim}}" "a {{user}} and \{b}" = false /\
  runPostProcessors "a \{\{user\}\} and \\{b\}" tt = "a {{user}} and \{b}".
Proof.
  split; [reflexivity|].
  exact (runPostProcessors_unescapes "a {{user}} and \{b}" tt eq_refl).
Defined.

(** An escaped trim marker is unescaped and then removed with the line breaks
    around it. *)
Example escaped_trim_removed :
  runPostProcessors ("a" +:+ String LF "\{\{trim\}\}" +:+ String LF "b") tt = "ab".
Proof. reflexivity. Qed.

(** ** Macros that are not resolved keep their text *)

Lemma spliceTo_same (text : string) (cursor stop : Z) (spans : list ((Z * Z) * string)) :
  0 <= cursor -> spansWithin cursor (stop - 1) (map fst spans) ->
  Forall (fun sv => snd sv = slice text (Num (fst (fst sv))) (Num (snd (fst sv) + 1))) spans ->
  spliceTo text cursor spans stop = slice text (Num cursor) (Num stop).
Proof.
  intros Hc Hw Hs. revert cursor Hc Hw.
  induction Hs as [|[span value] rest Hv _ IH]; intros cursor Hc Hw.
  - apply spliceTo_nil.
  - cbn [map fst snd spansWithin] in Hw, Hv. destruct Hw as (H1 & H2 & H3).
    rewrite spliceTo_cons, IH by (done || lia). rewrite Hv.
    pose proof (spansWithin_bound _ _ _ H3).
    rewrite slice_join by lia. by rewrite slice_join by lia.
Qed.

Section VerbatimFacts.
Context {W : Type}.

Lemma forEach_pure {A B : Type} (g : A -> State W B) (h : A -> B) (l : list A) (w : W) :
  Forall (fun x => forall w', g x w' = (h x, w')) l -> forEach g l w = (map h l, w).
Proof.
  induction 1 as [|x l Hx _ IH]; [done|].
  cbn [forEach map]. unfold bind. by rewrite Hx, IH.
Qed.

End VerbatimFacts.

(** The values of nested macros that keep their text are the texts of their
    spans. *)
Lemma nestedSpans_source (text : string) (argumentNodes : list CstNode)
    (layouts : list ArgumentLayout) :
  Forall2 argumentLayout argumentNodes layouts ->
  Forall (fun sv => snd sv = slice text (Num (fst (fst sv))) (Num (snd (fst sv) + 1)))
    (nestedSpans layouts (map (fun a => map (sourceOf text) (nestedMacrosOf a)) argumentNodes)).
Proof.
  induction 1 as [|a layout args layouts Ha _ IH]; [by constructor|].
  cbn [map nestedSpans]. apply Forall_app. split; [|done].
  destruct layout as [span nested|]; [|by constructor].
  destruct Ha as (_ & Hranges & _). cbn [argumentSpans].
  revert Hranges. generalize (nestedMacrosOf a). clear.
  induction nested as [|sp nested IH]; intros [|m ms] Hranges; try done; try by constructor.
  cbn [map combine] in *. injection Hranges as Hm Hms. constructor; [|by apply IH].
  cbn [fst snd]. unfold sourceOf. by rewrite Hm.
Qed.

Section UnknownFacts.
Context {St : Type}.
Variable hasMacro : string -> bool.
Variable executeMacro :
  MacroCall.t (MacroEnv St) -> option (MacroDefinition.t St) ->
  State (World St) (Completion string).
Variable text : string.
Variable env : MacroEnv St.

(** A macro of which no name, at any depth, is resolved evaluates to its own
    text, and nothing is logged or changed. *)
Theorem unknown_macros_keep_text (macroNode : CstNode) (w : World St) :
  Delimited text (unresolved hasMacro env) macroNode ->
  evaluateMacroNode macroNode
    (EvaluationContext.mk text env (resolveMacro hasMacro executeMacro)) w =
  (sourceOf text macroNode, w).
Proof.
  set (context := EvaluationContext.mk text env (resolveMacro hasMacro executeMacro)).
  remember (height macroNode) as h eqn:Hh. revert macroNode w Hh.
  induction h as [h IH] using lt_wf_ind. intros macroNode w -> HD.
  destruct HD as [macroNode first last lo hi layouts Hwf Hrange H0 Hlo Hhi Hopen Hclose Hname Hnested].
  rewrite (evaluateMacroNode_substitutes context macroNode lo hi layouts w Hwf).
  rewrite (forEach_pure _ (fun a => map (sourceOf text) (nestedMacrosOf a))).
  2: { apply Forall_forall. intros a Ha w'. apply forEach_pure.
       apply Forall_forall. intros m Hm w''.
       apply (IH (height m)).
       - apply height_nestedIn. exists a. split; by apply list_elem_of_In.
       - reflexivity.
       - rewrite Forall_forall in Hnested. specialize (Hnested a Ha).
         rewrite Forall_forall in Hnested. by apply Hnested. }
  subst context.
  cbn [EvaluationContext.resolveMacro EvaluationContext.text EvaluationContext.env].
  rewrite resolveMacro_raw.
  2: { destruct Hname as [Hn|[Hd Hr]]; [by left|right]. split; [|done].
       unfold defOverrideOf. cbn [MacroCall.env MacroCall.name]. by rewrite Hd. }
  destruct Hwf as (_ & _ & Hlo0 & Hle & Hargs & Hw).
  f_equal. unfold rawOf. cbn [MacroCall.rawInner]. unfold substitute.
  rewrite spliceTo_same; [|lia| |by apply nestedSpans_source].
  - unfold sourceOf. rewrite Hrange. cbn [rangeOf fst snd TokenRange.startOffset
      TokenRange.endOffset js_add].
    rewrite <- Hopen, <- Hclose.
    assert (lo <= hi + 1) by lia.
    rewrite slice_join by lia. by rewrite slice_join by lia.
  - replace (hi + 1 - 1) with hi by lia. apply nestedSpans_within; [|done].
    pose proof (layoutValues_of (W := World St) (fun m => ret (sourceOf text m))
                  (argumentNodesOf macroNode) layouts w Hargs) as Hvalues.
    rewrite (forEach_pure _ (fun a => map (sourceOf text) (nestedMacrosOf a))) in Hvalues;
      [done|].
    apply Forall_forall. intros a _ w'. apply forEach_pure.
    apply Forall_forall. by intros m _ w''.
Qed.

End UnknownFacts.

(** With nothing registered, the unknown macro of the example and the macro
    nested in it keep their text. *)
Lemma unknown_macros_keep_text_witness :
  Delimited unknownInput (unresolved (fun _ => false) (testEnv unknownInput)) unknownNode /\
  evaluateMacroNode unknownNode
    (EvaluationContext.mk unknownInput (testEnv unknownInput)
       (resolveMacro (fun _ => false) (executeMacro ∅))) emptyWorld =
  ("{{unknown::my {{newline}} example}}", emptyWorld).
Proof.
  assert (Delimited unknownInput (unresolved (fun _ => false) (testEnv unknownInput))
            unknownNewline) as Hnewline.
  { apply (Delimited_macro _ _ unknownNewline 20 30 22 28 []);
      try reflexivity; try lia.
    - unfold wellFormedMacro. split_and!; try reflexivity; try lia.
      + constructor.
      + simpl. lia.
    - right. split; reflexivity.
    - constructor. }
  assert (Delimited unknownInput (unresolved (fun _ => false) (testEnv unknownInput))
            unknownNode) as Hnode.
  { apply (Delimited_macro _ _ unknownNode 6 40 8 38 [Located (17, 38) [(20, 30)]]);
      try reflexivity; try lia.
    - unfold wellFormedMacro. split_and!; try reflexivity; try lia.
      + repeat constructor; simpl; lia.
      + simpl. lia.
    - right. split; reflexivity.
    - repeat constructor. exact Hnewline. }
  split; [exact Hnode|].
  exact (unknown_macros_keep_text (fun _ => false) (executeMacro ∅) unknownInput
           (testEnv unknownInput) unknownNode emptyWorld Hnode).
Defined.

(** ** Pre-processing: what becomes of a legacy marker *)

Lemma SameLetter_upperCase (c d : ascii) : SameLetter c d -> upperCase c = upperCase d.
Proof.
  intros [-> | [H | H]]; [done| |];
    unfold letters in H; simpl in H;
    repeat (destruct H as [H | H]; [by injection H as <- <-|]); done.
Qed.

Lemma SameLetter_sameCharCI (a c d : ascii) : SameLetter c d -> sameCharCI a d = sameCharCI a c.
Proof. intros H. unfold sameCharCI. by rewrite (SameLetter_upperCase c d H). Qed.

Lemma SameLetter_hasCharCI (c d : ascii) (s : string) :
  SameLetter c d -> hasCharCI d s = hasCharCI c s.
Proof.
  intros H. induction s as [|x s IH]; [done|]. simpl. rewrite IH. f_equal.
  unfold sameCharCI. by rewrite (SameLetter_upperCase c d H).
Qed.

Lemma Written_strip (marker M t : string) :
  Written marker M -> stripPrefixCI marker (M +:+ t) = Some t.
Proof.
  induction 1 as [|c d pattern text Hcd _ IH]; [done|].
  change (String d text +:+ t) with (String d (text +:+ t)). cbn [stripPrefixCI].
  rewrite (SameLetter_sameCharCI c c d Hcd). unfold sameCharCI. by rewrite Ascii.eqb_refl.
Qed.

Lemma Written_length (marker M : string) :
  Written marker M -> String.length M = String.length marker.
Proof. induction 1; simpl; congruence. Qed.

Lemma Written_hasCharCI (a : ascii) (marker M : string) :
  Written marker M -> hasCharCI a M = hasCharCI a marker.
Proof.
  induction 1 as [|c d pattern text Hcd _ IH]; [done|]. simpl.
  by rewrite IH, (SameLetter_sameCharCI a c d Hcd).
Qed.

(** An expression that does not match the marker matches none of the ways
    of writing it. *)
Lemma Written_other (pattern marker M t : string) :
  Written marker M ->
  stripPrefixCI pattern (marker +:+ t) = None -> stripPrefixCI pattern (M +:+ t) = None.
Proof.
  intros HW. revert pattern. induction HW as [|c d marker M Hcd _ IH]; intros pattern; [done|].
  destruct pattern as [|a q]; [done|].
  change (String ?x ?y +:+ t) with (String x (y +:+ t)). cbn [stripPrefixCI].
  rewrite (SameLetter_sameCharCI a c d Hcd). destruct (sameCharCI a c); [apply IH|done].
Qed.

(** A character that the pattern does not hold ends every match. *)
Lemma stripPrefixCI_barrier (b : ascii) (pattern u x : string) :
  hasCharCI b pattern = false ->
  stripPrefixCI pattern (u +:+ String b x) =
  option_map (fun rest => rest +:+ String b x) (stripPrefixCI pattern u).
Proof.
  revert u. induction pattern as [|a q IH]; intros u H; [done|].
  simpl in H. apply orb_false_iff in H as [Hb H].
  destruct u as [|c u].
  - change ("" +:+ String b x) with (String b x). cbn [stripPrefixCI].
    by rewrite (sameCharCI_sym a b), Hb.
  - change (String c u +:+ String b x) with (String c (u +:+ String b x)). cbn [stripPrefixCI].
    destruct (sameCharCI a c); [by apply IH|done].
Qed.

Lemma stripPrefixCI_behind (a b : ascii) (q u x : string) :
  hasCharCI b q = false -> u <> "" ->
  stripPrefixCI (String a q) (u +:+ String b x) =
  option_map (fun rest => rest +:+ String b x) (stripPrefixCI (String a q) u).
Proof.
  intros H Hu. destruct u as [|c u]; [done|].
  change (String c u +:+ String b x) with (String c (u +:+ String b x)). cbn [stripPrefixCI].
  destruct (sameCharCI a c); [by apply stripPrefixCI_barrier|done].
Qed.

(** *** Replacement on the two sides of a text that ends the matches *)

Lemma replaceMatches_before (matchAt : string -> option (nat * string)) (p B : string)
    (skip : nat) :
  (forall u, u <> "" -> matchAt (u +:+ B) = matchAt u) ->
  (forall u n r, matchAt u = Some (n, r) -> (n <= String.length u)%nat) ->
  (skip <= String.length p)%nat ->
  replaceMatches matchAt (p +:+ B) skip =
  replaceMatches matchAt p skip +:+ replaceMatches matchAt B 0.
Proof.
  intros Hlocal Hlen. revert skip. induction p as [|c p IH]; intros skip Hskip.
  - simpl in Hskip. by replace skip with 0%nat by lia.
  - change (String c p +:+ B) with (String c (p +:+ B)). cbn [replaceMatches].
    destruct skip as [|k]; [|apply IH; simpl in Hskip; lia].
    change (String c (p +:+ B)) with (String c p +:+ B). rewrite Hlocal by done.
    destruct (matchAt (String c p)) as [[n r]|] eqn:Hm.
    + rewrite IH; [by rewrite str_app_assoc|].
      apply Hlen in Hm. simpl in Hm. lia.
    + by rewrite IH by lia.
Qed.

Lemma replaceMatches_kept (matchAt : string -> option (nat * string)) (B t : string) :
  (forall w v, B = w +:+ v -> v <> "" -> matchAt (v +:+ t) = None) ->
  replaceMatches matchAt (B +:+ t) 0 = B +:+ replaceMatches matchAt t 0.
Proof.
  induction B as [|b B IH]; intros H; [done|].
  change (String b B +:+ ?x) with (String b (B +:+ x)). cbn [replaceMatches].
  change (String b (B +:+ t)) with (String b B +:+ t). rewrite (H "" (String b B)) by done.
  f_equal. apply IH. intros w v -> Hv. by apply (H (String b w)).
Qed.

Lemma replaceMatches_replaced (matchAt : string -> option (nat * string)) (B t r : string) :
  B <> "" -> matchAt (B +:+ t) = Some (String.length B, r) ->
  replaceMatches matchAt (B +:+ t) 0 = r +:+ replaceMatches matchAt t 0.
Proof.
  destruct B as [|b B]; [done|]. intros _ Hm.
  change (String b B +:+ t) with (String b (B +:+ t)) in *. cbn [replaceMatches].
  rewrite Hm. cbn [String.length Nat.pred]. by rewrite replaceMatches_skip.
Qed.

(** *** The expression of a marker *)

Lemma matchLiteralCI_local (a b : ascii) (q replacement u x : string) :
  hasCharCI b q = false -> u <> "" ->
  matchLiteralCI (String a q) replacement (u +:+ String b x) =
  matchLiteralCI (String a q) replacement u.
Proof.
  intros H Hu. unfold matchLiteralCI. rewrite stripPrefixCI_behind by done.
  by destruct (stripPrefixCI (String a q) u).
Qed.

Lemma matchLiteralCI_length (pattern replacement u r : string) (n : nat) :
  matchLiteralCI pattern replacement u = Some (n, r) -> (n <= String.length u)%nat.
Proof.
  unfold matchLiteralCI. destruct (stripPrefixCI pattern u) as [rest|] eqn:Hs; [|done].
  intros [= <- <-]. destruct (stripPrefixCI_split _ _ _ Hs) as (T & -> & Hlen & _).
  rewrite str_length_app. lia.
Qed.

Lemma stripPrefixCI_other_head (a c : ascii) (q s : string) :
  sameCharCI a c = false -> stripPrefixCI (String a q) (String c s) = None.
Proof. intros H. cbn [stripPrefixCI]. by rewrite H. Qed.

(** A text that begins with [b] and holds the first character of the
    expression nowhere behind that, and that the expression does not match,
    stays, and the texts on its two sides are replaced each by itself. *)
Lemma literal_around (a b : ascii) (q replacement p B t : string) :
  hasCharCI b q = false -> hasCharCI a B = false ->
  stripPrefixCI (String a q) (String b B +:+ t) = None ->
  replaceAll (matchLiteralCI (String a q) replacement) (p +:+ String b B +:+ t) =
  replaceAll (matchLiteralCI (String a q) replacement) p +:+ String b B +:+
  replaceAll (matchLiteralCI (String a q) replacement) t.
Proof.
  intros Hb HB Hhead. unfold replaceAll.
  rewrite replaceMatches_before;
    [|intros u Hu; by apply matchLiteralCI_local
     |intros u n r; apply matchLiteralCI_length|lia].
  rewrite replaceMatches_kept; [done|].
  intros [|w0 w] v Hsplit Hv.
  - change ("" +:+ v) with v in Hsplit. subst v. unfold matchLiteralCI. by rewrite Hhead.
  - injection Hsplit as _ ->. rewrite hasCharCI_app in HB.
    apply orb_false_iff in HB as [_ HB]. destruct v as [|c v]; [done|].
    simpl in HB. apply orb_false_iff in HB as [Hc _].
    unfold matchLiteralCI.
    change (String c v +:+ t) with (String c (v +:+ t)).
    by rewrite stripPrefixCI_other_head.
Qed.

(** Another marker stays where it is. *)
Lemma literal_other (a a' : ascii) (q q' replacement p M t : string) :
  Written (String a' q') M ->
  hasCharCI a' q = false -> hasCharCI a q' = false ->
  stripPrefixCI (String a q) (String a' q' +:+ t) = None ->
  replaceAll (matchLiteralCI (String a q) replacement) (p +:+ M +:+ t) =
  replaceAll (matchLiteralCI (String a q) replacement) p +:+ M +:+
  replaceAll (matchLiteralCI (String a q) replacement) t.
Proof.
  intros HW Hq Hq' Hother.
  pose proof (Written_other _ _ _ t HW Hother) as Hnone.
  inversion HW as [|c d pattern M' Hcd HW']; subst.
  apply literal_around; [|by rewrite (Written_hasCharCI a q' M' HW')|done].
  by rewrite (SameLetter_hasCharCI a' d q Hcd).
Qed.

(** The marker of the expression gives way to its macro. *)
Lemma literal_same (a : ascii) (q replacement p M t : string) :
  Written (String a q) M -> hasCharCI a q = false ->
  replaceAll (matchLiteralCI (String a q) replacement) (p +:+ M +:+ t) =
  replaceAll (matchLiteralCI (String a q) replacement) p +:+ replacement +:+
  replaceAll (matchLiteralCI (String a q) replacement) t.
Proof.
  intros HW Hq. unfold replaceAll.
  pose proof (Written_strip _ _ t HW) as Hstrip.
  pose proof (Written_length _ _ HW) as Hlen.
  inversion HW as [|c d pattern M' Hcd HW']; subst.
  change (String d M' +:+ t) with (String d (M' +:+ t)).
  rewrite replaceMatches_before;
    [|intros u Hu; apply matchLiteralCI_local; [by rewrite (SameLetter_hasCharCI a d q Hcd)|done]
     |intros u n r; apply matchLiteralCI_length|lia].
  f_equal. change (String d (M' +:+ t)) with (String d M' +:+ t).
  apply replaceMatches_replaced; [done|].
  unfold matchLiteralCI. by rewrite Hstrip, Hlen.
Qed.

(** The macro that stands for a marker stays where it is. *)
Lemma literal_macro (a b : ascii) (q replacement p B t : string) :
  hasCharCI b q = false -> hasCharCI a (String b B) = false ->
  replaceAll (matchLiteralCI (String a q) replacement) (p +:+ String b B +:+ t) =
  replaceAll (matchLiteralCI (String a q) replacement) p +:+ String b B +:+
  replaceAll (matchLiteralCI (String a q) replacement) t.
Proof.
  intros Hb HB. simpl in HB. apply orb_false_iff in HB as [Hab HB].
  apply literal_around; [done|done|].
  change (String b B +:+ t) with (String b (B +:+ t)). by apply stripPrefixCI_other_head.
Qed.

(** *** The expression of the legacy time macro *)

Lemma spanDigits_barrier (b : ascii) (s x : string) :
  isDigit b = false ->
  spanDigits (s +:+ String b x) = (fst (spanDigits s), snd (spanDigits s) +:+ String b x).
Proof.
  intros Hb. induction s as [|c s IH].
  - change ("" +:+ String b x) with (String b x). cbn [spanDigits]. by rewrite Hb.
  - change (String c s +:+ String b x) with (String c (s +:+ String b x)). cbn [spanDigits].
    destruct (isDigit c); [|done]. rewrite IH. by destruct (spanDigits s).
Qed.

Lemma spanDigits_split (s : string) : s = fst (spanDigits s) +:+ snd (spanDigits s).
Proof.
  induction s as [|c s IH]; [done|]. cbn [spanDigits].
  destruct (isDigit c); [|done]. destruct (spanDigits s) as [d r]. cbn [fst snd] in *.
  change (String c d +:+ r) with (String c (d +:+ r)). by rewrite <- IH.
Qed.

Lemma substring_within (n m : nat) (u y : string) :
  (n + m <= String.length u)%nat -> substring n m (u +:+ y) = substring n m u.
Proof.
  revert n m. induction u as [|c u IH]; intros n m H.
  - simpl in H. assert (n = 0 /\ m = 0)%nat as [-> ->] by lia.
    by rewrite substring_zero_length.
  - change (String c u +:+ y) with (String c (u +:+ y)).
    destruct n as [|n]; [destruct m as [|m]; [done|]|]; simpl in *.
    + f_equal. apply (IH 0%nat). lia.
    + apply IH. lia.
Qed.

Lemma matchLegacyTime_length (u r : string) (n : nat) :
  matchLegacyTime u = Some (n, r) -> (n <= String.length u)%nat.
Proof.
  unfold matchLegacyTime.
  destruct (stripPrefixCI "{{time_" u) as [afterName|] eqn:H1; [|done].
  destruct (stripPrefixCI "UTC" afterName) as [[|sign afterSign]|] eqn:H2; [done| |done].
  destruct (Ascii.eqb sign "+" || Ascii.eqb sign "-"); [|done].
  pose proof (spanDigits_split afterSign) as Hsplit.
  destruct (spanDigits afterSign) as [digits rest]. simpl in Hsplit.
  destruct digits as [|d digits]; [done|].
  destruct (stripPrefixCI "}}" rest) as [behind|] eqn:H3; [|done].
  intros [= <- <-].
  destruct (stripPrefixCI_split _ _ _ H1) as (T1 & -> & Hlen1 & _).
  destruct (stripPrefixCI_split _ _ _ H2) as (T2 & -> & Hlen2 & _).
  destruct (stripPrefixCI_split _ _ _ H3) as (T3 & -> & Hlen3 & _).
  subst afterSign. rewrite !str_length_app. simpl in *. rewrite !str_length_app. lia.
Qed.

Lemma matchLegacyTime_local (u x : string) :
  matchLegacyTime (u +:+ String "<" x) = matchLegacyTime u.
Proof.
  unfold matchLegacyTime.
  rewrite (stripPrefixCI_barrier "<" "{{time_") by done.
  destruct (stripPrefixCI "{{time_" u) as [afterName|] eqn:H1; [|done]. cbn [option_map].
  rewrite (stripPrefixCI_barrier "<" "UTC") by done.
  destruct (stripPrefixCI "UTC" afterName) as [[|sign afterSign]|] eqn:H2; [done| |done].
  cbn [option_map].
  change (String sign afterSign +:+ String "<" x) with (String sign (afterSign +:+ String "<" x)).
  cbv beta iota.
  destruct (Ascii.eqb sign "+" || Ascii.eqb sign "-"); [|done].
  rewrite (spanDigits_barrier "<") by done.
  pose proof (spanDigits_split afterSign) as Hsplit.
  destruct (spanDigits afterSign) as [digits rest]. simpl in Hsplit. cbn [fst snd].
  destruct digits as [|d digits]; [done|].
  rewrite (stripPrefixCI_barrier "<" "}}") by done.
  destruct (stripPrefixCI "}}" rest) as [behind|] eqn:H3; [|done]. cbn [option_map].
  rewrite substring_within; [done|].
  destruct (stripPrefixCI_split _ _ _ H1) as (T1 & -> & Hlen1 & _).
  destruct (stripPrefixCI_split _ _ _ H2) as (T2 & -> & Hlen2 & _).
  subst afterSign. rewrite !str_length_app. simpl in *. rewrite !str_length_app. lia.
Qed.

(** A marker ends every match of the time expression, and none begins in
    it. *)
Lemma time_around (q p M t : string) :
  Written (String "<" q) M -> hasCharCI "{" (String "<" q) = false ->
  replaceAll matchLegacyTime (p +:+ M +:+ t) =
  replaceAll matchLegacyTime p +:+ M +:+ replaceAll matchLegacyTime t.
Proof.
  intros HW Hq. unfold replaceAll.
  pose proof (Written_hasCharCI "{" _ _ HW) as HM. rewrite Hq in HM.
  inversion HW as [|c d pattern M' Hcd HW']; subst.
  assert (d = "<"%char) as ->.
  { destruct Hcd as [<- | [H | H]]; [done| |];
      unfold letters in H; simpl in H;
      repeat (destruct H as [H | H]; [discriminate H|]); done. }
  change (String "<" M' +:+ t) with (String "<" (M' +:+ t)).
  rewrite replaceMatches_before;
    [|intros u _; apply matchLegacyTime_local|intros u n r; apply matchLegacyTime_length|lia].
  f_equal. change (String "<" (M' +:+ t)) with (String "<" M' +:+ t).
  apply replaceMatches_kept. intros w v Hsplit Hv.
  rewrite Hsplit, hasCharCI_app in HM. apply orb_false_iff in HM as [_ HM].
  destruct v as [|c v]; [done|]. simpl in HM. apply orb_false_iff in HM as [Hc _].
  unfold matchLegacyTime. change (String c v +:+ t) with (String c (v +:+ t)).
  by rewrite (stripPrefixCI_other_head "{" c).
Qed.

Lemma no_marker_left {E : Type} (text : string) (env : E) (marker macro : string) :
  In (marker, macro) legacyMacros -> occursCI marker (runPreProcessors text env) = false.
Proof.
  intros Hin. pose proof (runPreProcessors_occursCI text env) as H.
  rewrite List.Forall_forall in H. apply H.
  apply (in_map fst) in Hin. exact Hin.
Qed.

(** A legacy marker, in whatever case its letters are written, gives way to
    its macro: the text before it and the text behind it are pre-processed
    each by itself, and the macro stands between them. And no marker is left:
    the pre-processed text holds a marker nowhere, in no way of writing it. *)
Theorem legacy_markers_rewritten {E : Type} (env : E) (marker macro M : string) :
  In (marker, macro) legacyMacros -> Written marker M ->
  (forall p t,
     runPreProcessors (p +:+ M +:+ t) env =
     runPreProcessors p env +:+ macro +:+ runPreProcessors t env) /\
  (forall text p t, runPreProcessors text env <> p +:+ M +:+ t).
Proof.
  intros Hin HW. split.
  - intros p t. unfold runPreProcessors.
    unfold legacyMacros in Hin. simpl in Hin.
    repeat (destruct Hin as [Hin | Hin]; [injection Hin as <- <-|]); [..|done];
      rewrite (time_around _ p M t HW) by done;
      repeat first
        [ rewrite (literal_other _ _ _ _ _ _ M _ HW) by (done || (intros; reflexivity))
        | rewrite (literal_same _ _ _ _ M _ HW) by done
        | rewrite literal_macro by done ];
      done.
  - intros text p t Heq.
    pose proof (no_marker_left text env marker macro Hin) as Hnone.
    apply (occursCI_false _ _ p (M +:+ t)) in Hnone; [|done].
    by rewrite (Written_strip marker M t HW) in Hnone.
Qed.

Lemma legacy_markers_rewritten_witness :
  In ("<USER>", "{{user}}") legacyMacros /\ Written "<USER>" "<uSeR>" /\
  runPreProcessors ("<bot>: hi " +:+ "<uSeR>" +:+ ", {{time_utc+2}}") tt =
  "{{char}}: hi {{user}}, {{time::utc+2}}".
Proof.
  assert (Written "<USER>" "<uSeR>") as HW.
  { repeat (apply written_char; [|]); [..|apply written_end];
      first [ by left
            | right; left; unfold letters; simpl;
              solve [repeat (first [left; reflexivity | right])]
            | right; right; unfold letters; simpl;
              solve [repeat (first [left; reflexivity | right])] ]. }
  split_and!; [by left|done|].
  by rewrite (proj1 (legacy_markers_rewritten tt "<USER>" "{{user}}" "<uSeR>" (or_introl eq_refl) HW)
                "<bot>: hi " ", {{time_utc+2}}").
Defined.
